(** * DoctorFollow retrieval and citation pipeline: a shallow embedding

    The definitions below follow [src/utils.py] and [src/rag.py] function by
    function.  Python [int] is [Z], Python [float] scores are exact rationals
    [Q] (compared up to [Qeq]), a Python [str] is a list of characters, and a
    Python [dict] is an association list kept in insertion order, because the
    iteration order of the dictionary is observable in [rrf_fusion].  Where
    the order of the fused scores is at stake, [Ranking] embeds [rrf_fusion]
    over the arithmetic of the scores, doubles included. *)

From Stdlib Require Import List ZArith QArith Lia Bool Ascii String.
From Stdlib Require Import Permutation FinFun Qround Lqa.
From Stdlib Require PrimFloat Uint63 FloatAxioms.
Import ListNotations.

Local Open Scope Z_scope.

(** ** Shared list vocabulary *)

(** [x] occurs in [l] strictly before some occurrence of [y]. *)
Definition ordered_pair {A : Type} (l : list A) (x y : A) : Prop :=
  exists l1 l2 l3, l = l1 ++ x :: l2 ++ y :: l3.

(** [i] occurs in [l] at a place before which [j] has not occurred: the first
    occurrence of [i] comes before the first occurrence of [j]. *)
Definition first_before (l : list Z) (i j : Z) : Prop :=
  exists l1 l2, l = l1 ++ i :: l2 /\ ~ In j l1 /\ i <> j.

(** Adding a key to a list of keys that keeps the order of first
    insertion: a key already there stays where it is, a new one goes to the
    end.  This is how the keys of a Python dict move on an assignment, and
    how [citation_ids] moves in [extract_citations]. *)
Definition add_new (acc : list Z) (k : Z) : list Z :=
  if existsb (Z.eqb k) acc then acc else acc ++ [k].

(** ** Reciprocal rank fusion ([utils.rrf_fusion]) *)

Module Fusion.

(** [rrf_scores]: a Python dict from chunk id to fused score.  Keys keep the
    order of their first insertion. *)
Definition dict := list (Z * Q).

(** [rrf_scores.get(idx, default)] *)
Fixpoint dict_get (d : dict) (key : Z) (default : Q) : Q :=
  match d with
  | [] => default
  | (k', v') :: d' => if k' =? key then v' else dict_get d' key default
  end.

(** [rrf_scores[idx] = v]: an existing key keeps its place, a new key goes
    to the end. *)
Fixpoint dict_set (d : dict) (key : Z) (v : Q) : dict :=
  match d with
  | [] => [(key, v)]
  | (k', v') :: d' =>
      if k' =? key then (k', v) :: d' else (k', v') :: dict_set d' key v
  end.

(** [1 / n] on a Python int: [ZeroDivisionError] ([None]) when [n] is 0. *)
Definition recip (n : Z) : option Q :=
  if n =? 0 then None else Some (/ inject_Z n).

Definition Qlt_bool (x y : Q) : bool := negb (Qle_bool y x).

(** [sorted(items, key=lambda x: x[1], reverse=True)].  Python's sort is
    stable and [reverse=True] keeps the original order of items with equal
    keys, so the result is the stable descending arrangement of the items;
    it is computed here by stable insertion from the right. *)
Fixpoint insert_desc (x : Z * Q) (l : list (Z * Q)) : list (Z * Q) :=
  match l with
  | [] => [x]
  | y :: l' =>
      if Qlt_bool (snd x) (snd y) then y :: insert_desc x l' else x :: y :: l'
  end.

Fixpoint sorted_desc (l : list (Z * Q)) : list (Z * Q) :=
  match l with
  | [] => []
  | x :: l' => insert_desc x (sorted_desc l')
  end.

Section RRF.
(** The scores carried by the input lists are never read. *)
Context {Score : Type}.

(** One [for rank, (idx, score) in enumerate(...)] loop, started at
    [rank]. *)
Fixpoint accumulate (k rank : Z) (l : list (Z * Score)) (d : dict)
  : option dict :=
  match l with
  | [] => Some d
  | (idx, _) :: l' =>
      match recip (k + rank + 1) with
      | None => None
      | Some c =>
          accumulate k (rank + 1) l' (dict_set d idx (dict_get d idx 0 + c))
      end
  end.

Definition rrf_fusion (bm25_scores semantic_scores : list (Z * Score))
  (k : Z) : option (list (Z * Q)) :=
  match accumulate k 0 bm25_scores [] with
  | None => None
  | Some d1 =>
      match accumulate k 0 semantic_scores d1 with
      | None => None
      | Some d2 => Some (sorted_desc d2)
      end
  end.

(** The sum, over every place where [id] stands in [l], of
    [1 / (k + r + 1)] for the 0-based rank [r] of that place ([rank] is the
    rank of the head of [l]). *)
Fixpoint rank_sum (k rank : Z) (l : list (Z * Score)) (id : Z) : Q :=
  match l with
  | [] => 0
  | (idx, _) :: l' =>
      (if idx =? id then / inject_Z (k + rank + 1) else 0)
      + rank_sum k (rank + 1) l' id
  end.
End RRF.

(** The default [k = 60]. *)
Definition default_k : Z := 60.

(** The scenario of the specification. *)
Definition scenario_a : list (Z * Q) := [(5, 10 # 1); (2, 9 # 1)].
Definition scenario_b : list (Z * Q) := [(2, 9 # 10); (5, 7 # 10)].

(** The claimed tie-break: equal fused scores are ordered by ascending id. *)
Definition ties_by_ascending_id (out : list (Z * Q)) : Prop :=
  forall i si j sj,
    ordered_pair out (i, si) (j, sj) -> si == sj -> i < j.

(** A list of scored ids in which no score is followed by a greater one. *)
Definition descending (l : list (Z * Q)) : Prop :=
  forall x y, ordered_pair l x y -> (snd y <= snd x)%Q.

End Fusion.

(** ** Python sequences *)

Module PySeq.
Section Seq.
Context {A : Type}.

Definition len (s : list A) : Z := Z.of_nat (List.length s).

(** The adjustment Python makes to one bound of a slice of a sequence of
    length [n]: a negative bound counts from the end, and the result is
    clipped to [0..n]. *)
Definition clamp (n i : Z) : Z :=
  if i <? 0 then Z.max 0 (i + n) else Z.min i n.

(** [s[start:stop]] *)
Definition slice (s : list A) (start stop : Z) : list A :=
  let a := clamp (len s) start in
  let b := clamp (len s) stop in
  firstn (Z.to_nat (b - a)) (skipn (Z.to_nat a) s).

(** [s[start:]] *)
Definition slice_from (s : list A) (start : Z) : list A :=
  slice s start (len s).

(** [s[:stop]] *)
Definition slice_to (s : list A) (stop : Z) : list A := slice s 0 stop.

(** [s[i]]: a negative index counts from the end; [None] stands for
    [IndexError]. *)
Definition index (s : list A) (i : Z) : option A :=
  let j := if i <? 0 then i + len s else i in
  if j <? 0 then None else nth_error s (Z.to_nat j).
End Seq.
End PySeq.

(** ** Python strings

    A [str] is the list of its characters; a character is its code point,
    which the model takes below 256.  The predicates follow CPython:
    [str.isspace] (also the class [\s] of [re]) holds of code points 9-13,
    28-32, 133 and 160; the decimal digits (the class [\d]) below 256 are
    ['0'] to ['9']. *)

Module PyStr.
Import PySeq.

Abbreviation str := (list ascii).

Definition lit (s : string) : str := list_ascii_of_string s.

Definition code (c : ascii) : N := N_of_ascii c.

Definition is_space (c : ascii) : bool :=
  let n := code c in
  (((9 <=? n) && (n <=? 13)) || ((28 <=? n) && (n <=? 32))
   || (n =? 133) || (n =? 160))%N.

Definition is_digit (c : ascii) : bool :=
  let n := code c in ((48 <=? n) && (n <=? 57))%N.

Definition char_eqb (a b : ascii) : bool := Ascii.eqb a b.

(** [str.lower] on one character: the upper-case letters below 256 are
    A-Z and the Latin-1 capitals 192-222 other than 215. *)
Definition lower_char (c : ascii) : ascii :=
  let n := code c in
  if (((65 <=? n) && (n <=? 90))
      || ((192 <=? n) && (n <=? 222) && negb (n =? 215)))%N
  then ascii_of_N (n + 32) else c.

Definition lower (s : str) : str := map lower_char s.

Fixpoint str_eqb (a b : str) : bool :=
  match a, b with
  | [], [] => true
  | x :: a', y :: b' => char_eqb x y && str_eqb a' b'
  | _, _ => false
  end.

(** [s.rfind(c)] for a one-character [c]: the highest index of [c], or -1. *)
Fixpoint rfind_from (s : str) (c : ascii) (i : Z) (found : Z) : Z :=
  match s with
  | [] => found
  | x :: s' => rfind_from s' c (i + 1) (if char_eqb x c then i else found)
  end.

Definition rfind (s : str) (c : ascii) : Z := rfind_from s c 0 (-1).

Fixpoint lstrip (s : str) : str :=
  match s with
  | [] => []
  | c :: s' => if is_space c then lstrip s' else s
  end.

Definition rstrip (s : str) : str := rev (lstrip (rev s)).

(** [s.strip()] *)
Definition strip (s : str) : str := lstrip (rstrip s).

Definition is_empty (s : str) : bool :=
  match s with [] => true | _ => false end.

(** A text without any space character. *)
Definition no_space (s : str) : Prop := Forall (fun c => is_space c = false) s.

End PyStr.

(** ** The chunker ([utils.chunk_text]) *)

Module Chunker.
Import PySeq PyStr.

(** What one pass through the body of the [while] loop leaves behind:
    the loop goes on from a new [start], or [break] ends it. *)
Inductive outcome :=
| Continue (start : Z) (chunks : list str)
| Break (chunks : list str).

Section Loop.
Variables (text : str) (size overlap : Z).

Definition text_length : Z := len text.

(** The window of one iteration after the optional snap to a sentence
    end: the chunk and the position [end]. *)
Definition window (start : Z) : str * Z :=
  let end_ := start + size in
  let chunk := slice text start end_ in
  if end_ <? text_length then
    let last_period :=
      Z.max (Z.max (rfind chunk ".") (rfind chunk "!")) (rfind chunk "?") in
    if last_period >? size / 2
    then (slice_to chunk (last_period + 1), start + last_period + 1)
    else (chunk, end_)
  else (chunk, end_).

Definition body (start : Z) (chunks : list str) : outcome :=
  let '(chunk, end_) := window start in
  let chunks := chunks ++ [strip chunk] in
  let start := end_ - overlap in
  if (start + size >=? text_length) && (start <? text_length)
  then Break (chunks ++ [strip (slice_from text start)])
  else Continue start chunks.

(** The [while start < text_length] loop, run for at most [fuel]
    iterations; [None] when the fuel runs out before the loop ends. *)
Fixpoint loop (fuel : nat) (start : Z) (chunks : list str)
  : option (list str) :=
  if start <? text_length then
    match fuel with
    | O => None
    | S fuel' =>
        match body start chunks with
        | Break chunks' => Some chunks'
        | Continue start' chunks' => loop fuel' start' chunks'
        end
    end
  else Some chunks.

Definition chunk_text (fuel : nat) : option (list str) :=
  if is_empty text then Some []
  else
    match loop fuel 0 [] with
    | None => None
    | Some chunks => Some (filter (fun c => negb (is_empty c)) chunks)
    end.
End Loop.

(** The reconstruction the specification describes: the chunks are
    concatenated after the declared overlap is removed from the front of
    every chunk but the first. *)
Definition remove_overlap (overlap : Z) (chunks : list str) : str :=
  match chunks with
  | [] => []
  | c :: cs => c ++ List.concat (map (skipn (Z.to_nat overlap)) cs)
  end.

Definition nonempty_chunks (cs : list str) : Prop :=
  Forall (fun c => is_empty c = false) cs.

(** The coverage property as the specification words it. *)
Definition coverage_claim : Prop :=
  forall text size overlap fuel chunks,
    0 <= overlap -> overlap < size -> size <= len text ->
    chunk_text text size overlap fuel = Some chunks ->
    remove_overlap overlap chunks = text.

(** What holds each time the loop test is reached, when every step moves
    forward: the chunks so far rebuild the text up to the end of the last
    window, which lies [overlap] characters after [s]. *)
Definition loop_inv (text : str) (size overlap : Z) (s : Z) (cs : list str)
  : Prop :=
  0 <= s
  /\ ((cs = [] /\ s = 0 /\ size <= len text)
      \/ (cs <> [] /\ s + overlap <= len text
          /\ (s + size < len text \/ len text <= s)
          /\ remove_overlap overlap cs = slice text 0 (s + overlap)
          /\ nonempty_chunks cs)).

End Chunker.

(** ** The citation auditor ([utils.extract_citations],
    [utils.validate_citations]) *)

Module Citations.
Import PySeq PyStr.

(** The label of the pattern, in the lower case that [re.IGNORECASE]
    compares in. *)
Definition label : str := lit "kaynak".

(** [(?:Kaynak|kaynak)] under [re.IGNORECASE]: the label read off the
    front of [s] whatever the case of its letters; the result is what
    follows it. *)
Fixpoint match_label (pat s : str) : option str :=
  match pat with
  | [] => Some s
  | p :: pat' =>
      match s with
      | [] => None
      | c :: s' =>
          if char_eqb (lower_char c) p then match_label pat' s' else None
      end
  end.

(** Greedy [\d+]: the longest run of digits at the front of [s], and what
    follows it. *)
Fixpoint span_digits (s : str) : str * str :=
  match s with
  | [] => ([], [])
  | c :: s' =>
      if is_digit c
      then let (ds, r) := span_digits s' in (c :: ds, r)
      else ([], s)
  end.

(** [\s*(\d+)\]] at the front of [s]: the digits captured and what follows
    the closing bracket.  The greedy runs never have to give anything
    back, because no space is a digit and no digit is a bracket. *)
Definition match_tail (s : str) : option (str * str) :=
  let (ds, r) := span_digits (lstrip s) in
  match ds, r with
  | _ :: _, c :: rest => if char_eqb c "]" then Some (ds, rest) else None
  | _, _ => None
  end.

(** The whole pattern [\[(?:Kaynak|kaynak)?\s*(\d+)\]] at the front of
    [s]: the optional label is tried first, and dropped when the rest
    does not match after it. *)
Definition match_at (s : str) : option (str * str) :=
  match s with
  | [] => None
  | c :: s1 =>
      if char_eqb c "[" then
        match match_label label s1 with
        | Some s2 =>
            match match_tail s2 with
            | Some r => Some r
            | None => match_tail s1
            end
        | None => match_tail s1
        end
      else None
  end.

(** [re.findall]: the captured groups of the matches found from left to
    right, each search starting where the last match ended.  Every step
    consumes a character, so [fuel] equal to the length of the text is
    enough. *)
Fixpoint findall (fuel : nat) (s : str) : list str :=
  match fuel with
  | O => []
  | S fuel' =>
      match s with
      | [] => []
      | _ :: s' =>
          match match_at s with
          | Some (ds, rest) => ds :: findall fuel' rest
          | None => findall fuel' s'
          end
      end
  end.

Definition re_findall (s : str) : list str := findall (List.length s) s.

(** [re.sub(pattern, '', s)]: the text with every match taken out. *)
Fixpoint remove_matches (fuel : nat) (s : str) : str :=
  match fuel with
  | O => []
  | S fuel' =>
      match s with
      | [] => []
      | c :: s' =>
          match match_at s with
          | Some (_, rest) => remove_matches fuel' rest
          | None => c :: remove_matches fuel' s'
          end
      end
  end.

Definition re_sub_citations (s : str) : str :=
  remove_matches (List.length s) s.

Definition digit_value (c : ascii) : Z := Z.of_N (code c) - 48.

(** [int(match)] on a run of decimal digits. *)
Definition int_of_digits (ds : str) : Z :=
  fold_left (fun acc c => 10 * acc + digit_value c) ds 0.

Definition mem (x : Z) (l : list Z) : bool := existsb (Z.eqb x) l.

(** The loop over the matches: [citation_ids] grows at its end, [seen]
    is the set of the ids met so far. *)
Definition record_match (st : list Z * list Z) (m : str) : list Z * list Z :=
  let '(citation_ids, seen) := st in
  let cid := int_of_digits m in
  if mem cid seen then (citation_ids, seen)
  else (citation_ids ++ [cid], cid :: seen).

Definition extract_citations (answer : str) : list Z :=
  fst (fold_left record_match (re_findall answer) ([], [])).

(** The three messages of [validate_citations]; their wording is not
    modelled, only which one is given and the value it quotes. *)
Inductive message :=
| NoCitationsFound
| InvalidSourceNumbers (invalid_ids : list Z)
| ValidCitations (count : Z).

Record validation := {
  is_valid : bool;
  has_citations : bool;
  citation_ids : list Z;
  invalid_ids : list Z;
  message_of : message
}.

Definition validate_citations (answer : str) (num_sources : Z) : validation :=
  let ids := extract_citations answer in
  match ids with
  | [] =>
      {| is_valid := false; has_citations := 0 <? len ids;
         citation_ids := ids; invalid_ids := [];
         message_of := NoCitationsFound |}
  | _ :: _ =>
      let invalid :=
        filter (fun cid => (cid <? 1) || (cid >? num_sources)) ids in
      match invalid with
      | _ :: _ =>
          {| is_valid := false; has_citations := 0 <? len ids;
             citation_ids := ids; invalid_ids := invalid;
             message_of := InvalidSourceNumbers invalid |}
      | [] =>
          {| is_valid := true; has_citations := 0 <? len ids;
             citation_ids := ids; invalid_ids := invalid;
             message_of := ValidCitations (len ids) |}
      end
  end.

(** The shape of a citation marker, read off the pattern: an opening
    bracket, the label in any case or nothing, any run of spaces, one digit
    or more, a closing bracket.  [[n]] and [[<label> n]] are its two usual
    forms. *)
Inductive Marker : str -> str -> Prop :=
| marker_plain ws ds :
    Forall (fun c => is_space c = true) ws ->
    Forall (fun c => is_digit c = true) ds -> ds <> [] ->
    Marker ("["%char :: ws ++ ds ++ ["]"%char]) ds
| marker_labelled lab ws ds :
    lower lab = label ->
    Forall (fun c => is_space c = true) ws ->
    Forall (fun c => is_digit c = true) ds -> ds <> [] ->
    Marker ("["%char :: lab ++ ws ++ ds ++ ["]"%char]) ds.

(** The result of a match on a text, seen on that text followed by [x]. *)
Definition extend (x : str) (r : option (str * str)) : option (str * str) :=
  match r with
  | Some (ds, rest) => Some (ds, rest ++ x)
  | None => None
  end.

Definition scenario : str := lit "X [1] Y [2][2] Z [Kaynak 3]".

End Citations.

(** ** Grounding ([utils.verify_answer_grounding]) *)

Module Grounding.
Import PySeq PyStr Citations.

Definition is_terminal (c : ascii) : bool :=
  char_eqb c "." || char_eqb c "!" || char_eqb c "?".

(** [re.split(r'[.!?]+', s)]: the pieces between the runs of sentence
    ends; the first and the last piece may be empty.  [cur] holds the piece
    being read, reversed; [in_sep] tells that the last character read was a
    sentence end. *)
Fixpoint re_split (s cur : str) (in_sep : bool) : list str :=
  match s with
  | [] => [rev cur]
  | c :: s' =>
      if is_terminal c then
        if in_sep then re_split s' [] true
        else rev cur :: re_split s' [] true
      else re_split s' (c :: cur) false
  end.

(** [s.split()]: the maximal runs of characters that are not spaces. *)
Fixpoint split_ws (s cur : str) : list str :=
  match s with
  | [] => if is_empty cur then [] else [rev cur]
  | c :: s' =>
      if is_space c then
        if is_empty cur then split_ws s' [] else rev cur :: split_ws s' []
      else split_ws s' (c :: cur)
  end.

Definition split (s : str) : list str := split_ws s [].

(** Python sets of words, as lists without repetition. *)
Definition mem_word (w : str) (l : list str) : bool := existsb (str_eqb w) l.

Fixpoint set_of (l : list str) : list str :=
  match l with
  | [] => []
  | w :: l' => if mem_word w l' then set_of l' else w :: set_of l'
  end.

Definition set_diff (a b : list str) : list str :=
  filter (fun w => negb (mem_word w b)) a.

Definition set_inter (a b : list str) : list str :=
  filter (fun w => mem_word w b) a.

Definition c_cedilla : ascii := ascii_of_N 231.
Definition u_umlaut : ascii := ascii_of_N 252.

(** [turkish_stop_words].  The entry with an s-cedilla (code point 351)
    has no counterpart among the strings of the model; it has two
    characters, and words that short are dropped before the stop words are
    taken out. *)
Definition turkish_stop_words : list str :=
  [ lit "ve"; lit "veya"; lit "ile"; lit "bir"; lit "bu"; lit "o";
    lit "i" ++ [c_cedilla] ++ lit "in"; lit "da"; lit "de"; lit "mi";
    lit "mu"; lit "m" ++ [u_umlaut]; lit "ki"; lit "ne"; lit "kadar";
    lit "gibi"; lit "daha"; [c_cedilla] ++ lit "ok"; lit "az" ].

(** [set(w.lower() for w in s.split() if len(w) > 2) - turkish_stop_words] *)
Definition content_words (s : str) : list str :=
  set_diff (set_of (map lower (filter (fun w => 2 <? len w) (split s))))
           turkish_stop_words.

(** [overlap >= len(words) * 0.25] *)
Definition overlaps (words chunk_words : list str) : bool :=
  Qle_bool (inject_Z (len words) * (25 # 100))%Q
           (inject_Z (len (set_inter words chunk_words))).

(** The inner loop: some source chunk shares enough words. *)
Definition grounded_in (words : list str) (source_chunks : list str) : bool :=
  existsb (fun chunk => overlaps words (content_words chunk)) source_chunks.

(** One pass through the body of the loop over the sentences. *)
Definition count_sentence (source_chunks : list str) (grounded : Z)
  (sentence : str) : Z :=
  let words := content_words sentence in
  if len words <? 3 then grounded
  else if grounded_in words source_chunks then grounded + 1 else grounded.

Definition sentences_of (answer : str) : list str :=
  let clean_answer := re_sub_citations answer in
  let sentences := re_split clean_answer [] false in
  map strip (filter (fun s => negb (is_empty (strip s))) sentences).

Record grounding_report := {
  grounding_ratio : Q;
  grounded_sentences : Z;
  total_sentences : Z;
  is_well_grounded : bool
}.

Definition verify_answer_grounding (answer : str) (source_chunks : list str)
  : grounding_report :=
  let sentences := sentences_of answer in
  let total := len sentences in
  let grounded := fold_left (count_sentence source_chunks) sentences 0 in
  let ratio :=
    if 0 <? total then (inject_Z grounded / inject_Z total)%Q else 0%Q in
  {| grounding_ratio := ratio;
     grounded_sentences := grounded;
     total_sentences := total;
     is_well_grounded := Qle_bool (65 # 100) ratio |}.

(** A sentence is eligible when it has at least three content words. *)
Definition eligible (sentence : str) : bool :=
  negb (len (content_words sentence) <? 3).

(** The ratio the specification describes: grounded sentences over
    eligible sentences. *)
Definition ratio_over_eligible (answer : str) (source_chunks : list str) : Q :=
  let sentences := sentences_of answer in
  let n_eligible := len (filter eligible sentences) in
  let grounded :=
    grounded_sentences (verify_answer_grounding answer source_chunks) in
  if 0 <? n_eligible then (inject_Z grounded / inject_Z n_eligible)%Q
  else 0%Q.

(** A sentence that adds one to the count of grounded sentences. *)
Definition counts (source_chunks : list str) (sentence : str) : bool :=
  eligible sentence && grounded_in (content_words sentence) source_chunks.

Definition scenario_answer : str :=
  lit "Aspirin reduces fever quickly. Ok then.".
Definition scenario_sources : list str := [lit "aspirin reduces fever quickly"].

End Grounding.

(** ** Retrieval ([utils.cosine_similarity], [MedicalRAG.hybrid_search]) *)

Module Retrieval.
Import PySeq PyStr.

(** A floating-point result: a number, an infinity, or not-a-number.
    Numbers are exact rationals; the special values are what NumPy gives
    for a division by zero. *)
Inductive npfloat :=
| Num (q : Q)
| PosInf
| NegInf
| NaN.

(** A call that returns a value or raises an exception. *)
Inductive result (A : Type) :=
| Ok (a : A)
| Raises.
Arguments Ok {A} a.
Arguments Raises {A}.

Definition bind {A B} (r : result A) (f : A -> result B) : result B :=
  match r with
  | Ok a => f a
  | Raises => Raises
  end.

Notation "x <- r ;; k" := (bind r (fun x => k))
  (at level 61, r at next level, right associativity).

(** What the code calls and this repository does not define: the BM25
    index of [rank_bm25], the sentence encoder, and NumPy's [argsort] and
    square root.  Of [argsort] only that it returns a permutation of the
    positions is used, of the square root only its value at 0. *)
Class Collaborators := {
  bm25_index : Type;
  get_scores : bm25_index -> list str -> list npfloat;
  encode : str -> list Q;
  argsort : list npfloat -> list nat;
  argsort_perm : forall l, Permutation (argsort l) (seq 0 (List.length l));
  sqrt : Q -> Q;
  sqrt_0 : forall x, x == 0 -> sqrt x == 0
}.

Definition dot (a b : list Q) : Q :=
  fold_left Qplus (map (fun p => fst p * snd p)%Q (combine a b)) 0%Q.

(** [a / b] in NumPy on finite operands: dividing by zero gives
    not-a-number or an infinity, with a warning and no exception. *)
Definition np_div (a b : Q) : npfloat :=
  if Qeq_bool b 0 then
    if Qeq_bool a 0 then NaN
    else if Qle_bool 0 a then PosInf else NegInf
  else Num (a / b).

Section WithCollaborators.
Context {C : Collaborators}.

(** [np.linalg.norm] of a vector *)
Definition norm (a : list Q) : Q := sqrt (dot a a).

(** [utils.cosine_similarity] on two vectors; [np.dot] raises when their
    lengths differ. *)
Definition cosine_similarity (a b : list Q) : result npfloat :=
  if negb (List.length a =? List.length b)%nat then Raises
  else
    let dot_product := dot a b in
    let norm_a := norm a in
    let norm_b := norm b in
    if Qeq_bool norm_a 0 || Qeq_bool norm_b 0 then Ok (Num 0)
    else Ok (np_div dot_product (norm_a * norm_b)).

(** [np.dot(matrix, v)]: one product per row; raises when a row and the
    vector differ in length. *)
Fixpoint mat_vec (m : list (list Q)) (v : list Q) : result (list Q) :=
  match m with
  | [] => Ok []
  | row :: m' =>
      if negb (List.length row =? List.length v)%nat then Raises
      else ds <- mat_vec m' v ;; Ok (dot row v :: ds)
  end.

(** The similarities of [hybrid_search]:
    [np.dot(E, q) / (np.linalg.norm(E, axis=1) * np.linalg.norm(q))] *)
Definition similarities (E : list (list Q)) (q : list Q)
  : result (list npfloat) :=
  ds <- mat_vec E q ;;
  Ok (map (fun p => np_div (fst p) (norm (snd p) * norm q))
          (combine ds E)).

(** The state of a [MedicalRAG] that retrieval reads. *)
Record rag := {
  chunks : list str;
  embeddings : option (list (list Q));
  bm25 : option bm25_index
}.

(** [[(idx, float(scores[idx])) for idx in top_indices]]; the indices
    come from [argsort], hence are positions of [scores]. *)
Definition with_scores (scores : list npfloat) (top_indices : list nat)
  : list (Z * npfloat) :=
  map (fun idx => (Z.of_nat idx, nth idx scores NaN)) top_indices.

(** [np.argsort(scores)[::-1][:top_k * 2]] *)
Definition top_indices (scores : list npfloat) (top_k : Z) : list nat :=
  slice_to (rev (argsort scores)) (top_k * 2).

(** The last loop: [results.append((idx, self.chunks[idx]))]. *)
Fixpoint resolve (chunks : list str) (fused : list (Z * Q))
  : result (list (Z * str)) :=
  match fused with
  | [] => Ok []
  | (idx, _) :: fused' =>
      match index chunks idx with
      | None => Raises
      | Some c => rs <- resolve chunks fused' ;; Ok ((idx, c) :: rs)
      end
  end.

Definition hybrid_search (self : rag) (query : str) (top_k : Z)
  : result (list (Z * str)) :=
  match chunks self, embeddings self, bm25 self with
  | _ :: _, Some E, Some B =>
      let tokenized_query := Grounding.split (lower query) in
      let bm25_scores := get_scores B tokenized_query in
      let bm25_results :=
        with_scores bm25_scores (top_indices bm25_scores top_k) in
      let query_embedding := encode (lit "query: " ++ query) in
      sims <- similarities E query_embedding ;;
      let semantic_results :=
        with_scores sims (top_indices sims top_k) in
      match Fusion.rrf_fusion bm25_results semantic_results
              Fusion.default_k with
      | None => Raises
      | Some fused_results =>
          resolve (chunks self) (slice_to fused_results top_k)
      end
  | _, _, _ => Ok []
  end.
End WithCollaborators.

(** *** One choice of collaborators, to run the definitions on *)

Definition np_ltb (x y : npfloat) : bool :=
  match x, y with
  | NaN, _ => false
  | _, NaN => true
  | PosInf, _ => false
  | _, PosInf => true
  | _, NegInf => false
  | NegInf, _ => true
  | Num a, Num b => Fusion.Qlt_bool a b
  end.

Fixpoint insert_asc (x : nat * npfloat) (l : list (nat * npfloat))
  : list (nat * npfloat) :=
  match l with
  | [] => [x]
  | y :: l' =>
      if np_ltb (snd y) (snd x) || negb (np_ltb (snd x) (snd y))
      then y :: insert_asc x l' else x :: y :: l'
  end.

Fixpoint sort_asc (l : list (nat * npfloat)) : list (nat * npfloat) :=
  match l with
  | [] => []
  | x :: l' => insert_asc x (sort_asc l')
  end.

(** An ascending stable argsort, not-a-number last. *)
Definition simple_argsort (l : list npfloat) : list nat :=
  map fst (sort_asc (combine (seq 0 (List.length l)) l)).

(** The number of query words a chunk holds. *)
Definition simple_scores (index : list (list str)) (query : list str)
  : list npfloat :=
  map (fun doc =>
         Num (inject_Z (len (filter (fun w => Grounding.mem_word w doc)
                                    query))))
      index.

(** A two-coordinate embedding: the number of spaces and of other
    characters. *)
Definition simple_encode (s : str) : list Q :=
  [inject_Z (len (filter is_space s));
   inject_Z (len (filter (fun c => negb (is_space c)) s))].

(** The integer square root of numerator times denominator, over the
    denominator. *)
Definition simple_sqrt (x : Q) : Q :=
  Z.sqrt (Qnum x * Zpos (Qden x)) # Qden x.

End Retrieval.

(** ** Reciprocal rank fusion over the arithmetic of the scores

    [Fusion] computes the fused scores as exact rationals.  That fixes
    which reciprocals are added for an id, but not how the ids are ranked:
    the code adds and compares doubles, and two sums that are equal as
    rationals can differ as doubles, so that a tie of the rationals need
    not be a tie of the code.  Here [utils.rrf_fusion] is embedded once
    more with the arithmetic of the scores as a parameter: what [0], [+],
    [1 / n] and [<] are.  [binary64] is the arithmetic of the code, [exact]
    the one of [Fusion]. *)

Module Ranking.

Class Arithmetic := {
  number : Type;
  (** the [0] of [rrf_scores.get(idx, 0)] *)
  zero : number;
  (** [+] *)
  add : number -> number -> number;
  (** [1 / n] for an int [n]; [None] is [ZeroDivisionError] *)
  reciprocal : Z -> option number;
  (** [<], the one comparison that [sorted] makes *)
  less : number -> number -> bool
}.

Section Over.
Context {A : Arithmetic}.

(** [rrf_scores]: keys in the order of their first insertion. *)
Definition dict := list (Z * number).

(** [rrf_scores.get(idx, default)] *)
Fixpoint dict_get (d : dict) (key : Z) (default : number) : number :=
match d with
| [] => default
| (k', v') :: d' => if k' =? key then v' else dict_get d' key default
end.

(** [rrf_scores[idx] = v] *)
Fixpoint dict_set (d : dict) (key : Z) (v : number) : dict :=
match d with
| [] => [(key, v)]
| (k', v') :: d' =>
    if k' =? key then (k', v) :: d' else (k', v') :: dict_set d' key v
end.

(** [sorted(items, key=lambda x: x[1], reverse=True)]: the sort is stable,
  also with [reverse=True], and compares the keys with [<] only.  An
  item goes behind the items that its key is less than, and stops at the
  first item that its key is not less than; where the comparisons are
  those of a weak order this is the arrangement that the sort
  returns. *)
Fixpoint insert_desc (x : Z * number) (l : list (Z * number))
: list (Z * number) :=
match l with
| [] => [x]
| y :: l' =>
    if less (snd x) (snd y) then y :: insert_desc x l' else x :: y :: l'
end.

Fixpoint sorted_desc (l : list (Z * number)) : list (Z * number) :=
match l with
| [] => []
| x :: l' => insert_desc x (sorted_desc l')
end.

Section RRF.
Context {Score : Type}.

(** One [for rank, (idx, score) in enumerate(...)] loop, started at
[rank]. *)
Fixpoint accumulate (k rank : Z) (l : list (Z * Score)) (d : dict)
: option dict :=
match l with
| [] => Some d
| (idx, _) :: l' =>
  match reciprocal (k + rank + 1) with
  | None => None
  | Some c =>
      accumulate k (rank + 1) l'
        (dict_set d idx (add (dict_get d idx zero) c))
  end
end.

Definition rrf_fusion (bm25_scores semantic_scores : list (Z * Score))
(k : Z) : option (list (Z * number)) :=
match accumulate k 0 bm25_scores [] with
| None => None
| Some d1 =>
  match accumulate k 0 semantic_scores d1 with
  | None => None
  | Some d2 => Some (sorted_desc d2)
  end
end.
End RRF.

(** No item is followed by one with a greater key. *)
Definition never_rising (l : list (Z * number)) : Prop :=
forall x y, ordered_pair l x y -> less (snd x) (snd y) = false.

(** The comparisons among the numbers that satisfy [P] are those of a weak
  order: of two numbers at most one is less than the other, and a number
  that is less than another is less than every number that the other is
  not less than. *)
Definition weak_on (P : number -> Prop) : Prop :=
forall x y z, P x -> P y -> P z ->
  (less x y = true -> less y x = false)
  /\ (less x z = true -> less x y = true \/ less y z = true).

(** The same for the numbers of a list, as a test. *)
Definition weakly_ordered (l : list number) : bool :=
forallb (fun x =>
  forallb (fun y =>
    (negb (less x y) || negb (less y x))
    && forallb (fun z => negb (less x z) || less x y || less y z) l) l) l.
End Over.

(** The arithmetic of [Fusion]: exact rationals. *)
Definition exact : Arithmetic :=
  {| number := Q; zero := 0%Q; add := Qplus;
     reciprocal := Fusion.recip; less := Fusion.Qlt_bool |}.

(** [float(n)] for an int below [2 ^ 63] in absolute value; the double is
    [n] itself up to [2 ^ 53]. *)
Definition float_of_int (n : Z) : PrimFloat.float :=
  if n <? 0 then PrimFloat.opp (PrimFloat.of_uint63 (Uint63.of_Z (- n)))
  else PrimFloat.of_uint63 (Uint63.of_Z n).

(** The arithmetic of the code: IEEE 754 doubles, rounded to nearest.
    [1 / n] is the correctly rounded quotient as long as [n] is a double
    itself, that is up to [2 ^ 53] in absolute value. *)
Definition binary64 : Arithmetic :=
  {| number := PrimFloat.float;
     zero := float_of_int 0;
     add := PrimFloat.add;
     reciprocal := fun n =>
       if n =? 0 then None
       else Some (PrimFloat.div (float_of_int 1) (float_of_int n));
     less := PrimFloat.ltb |}.

(** Two ranked lists on which the rounding of the sums decides the order:
    with [k = 5] the ids 0, 4 and 10 all have the exact score 1/6. *)
Definition rounding_a : list (Z * Q) :=
  [(0, 5 # 1); (1, 4 # 1); (2, 3 # 1); (3, 2 # 1); (4, 1 # 1)].
Definition rounding_b : list (Z * Q) :=
  [(10, 9 # 10); (11, 8 # 10); (12, 7 # 10); (13, 6 # 10); (14, 5 # 10);
   (15, 4 # 10); (16, 3 # 10); (17, 2 # 10); (18, 1 # 10); (4, 1 # 20)].

End Ranking.

(** ** Predicates on chunks and answers *)

Module Shapes.
Import PySeq PyStr Citations.

(** A text that does not start with a space. *)
Definition headed (s : str) : Prop :=
  match s with
  | [] => True
  | c :: _ => is_space c = false
  end.

(** What every chunk that the loop of [chunk_text] appends satisfies. *)
Definition well_cut (size : Z) (c : str) : Prop :=
  strip c = c /\ len c <= size.

(** Whether [strip] leaves unchanged every chunk that the loop of
    [chunk_text] cuts from [start] on, in at most [fuel] passes: no cut
    begins or ends with a space. *)
Fixpoint cuts_untrimmed (text : str) (size overlap : Z) (fuel : nat)
  (start : Z) : bool :=
  if start <? Chunker.text_length text then
    match fuel with
    | O => true
    | S fuel' =>
        let '(chunk, end_) := Chunker.window text size start in
        let start' := end_ - overlap in
        str_eqb (strip chunk) chunk
        && (if (start' + size >=? Chunker.text_length text)
               && (start' <? Chunker.text_length text)
            then str_eqb (strip (slice_from text start'))
                         (slice_from text start')
            else cuts_untrimmed text size overlap fuel' start')
    end
  else true.

(** A text without an opening bracket. *)
Definition bracket_free (s : str) : Prop := ~ In "["%char s.

(** [ds] is a decimal numeral of [n]: digits, at least one, that
    [int] reads as [n]. *)
Definition written (n : Z) (ds : str) : Prop :=
  ds <> [] /\ Forall (fun c => is_digit c = true) ds /\ int_of_digits ds = n.

End Shapes.

(** ** Indexing a document ([MedicalRAG.ingest_pdf]) *)

Module Ingest.
Import PySeq PyStr Chunker.

(** [self.chunks = chunk_text(text, size=500, overlap=50)], on the text
    that [clean_text] returned. *)
Definition stored_chunks (text : str) (fuel : nat) : option (list str) :=
  chunk_text text 500 50 fuel.

(** [[f"passage: {chunk}" for chunk in self.chunks]] *)
Definition passages (chunks : list str) : list str :=
  map (fun chunk => lit "passage: " ++ chunk) chunks.

(** [[chunk.lower().split() for chunk in self.chunks]] *)
Definition tokenized_chunks (chunks : list str) : list (list str) :=
  map (fun chunk => Grounding.split (lower chunk)) chunks.

End Ingest.

(** ** The source context of the prompt ([MedicalRAG.generate_answer]) *)

Module Prompt.
Import PySeq PyStr.

Definition digit_char (d : Z) : ascii := ascii_of_N (Z.to_N (48 + d)).

(** The decimal digits of [n >= 0], most significant first, put in front
    of [acc]; a number below [2 ^ fuel] has at most [fuel] digits. *)
Fixpoint decimal_digits (fuel : nat) (n : Z) (acc : str) : str :=
  match fuel with
  | O => acc
  | S fuel' =>
      let acc' := digit_char (n mod 10) :: acc in
      if n / 10 =? 0 then acc' else decimal_digits fuel' (n / 10) acc'
  end.

(** [str(n)], as an f-string prints an int. *)
Definition str_of_int (n : Z) : str :=
  if n <? 0
  then "-"%char :: decimal_digits (S (Z.to_nat (Z.log2 (- n)))) (- n) []
  else decimal_digits (S (Z.to_nat (Z.log2 n))) n [].

Definition newline : ascii := ascii_of_N 10.

(** One pass of [for i, chunk in enumerate(context_chunks, 1)]:
    [context_text += f"[Kaynak {i}]\n{chunk}\n\n"]. *)
Definition add_source (context_text : str) (i : Z) (chunk : str) : str :=
  context_text ++ lit "[Kaynak " ++ str_of_int i ++ lit "]" ++ [newline]
  ++ chunk ++ [newline; newline].

Fixpoint context_from (i : Z) (context_chunks : list str) (context_text : str)
  : str :=
  match context_chunks with
  | [] => context_text
  | chunk :: rest => context_from (i + 1) rest (add_source context_text i chunk)
  end.

(** The value of [context_text] after the loop. *)
Definition context_text (context_chunks : list str) : str :=
  context_from 1 context_chunks [].

(** [conversation_history[-3:]]: the turns that go into the prompt. *)
Definition recent_turns {Turn : Type} (conversation_history : list Turn)
  : list Turn :=
  slice_from conversation_history (-3).

(** The ids [start, start + 1, ...], [n] of them. *)
Fixpoint count_from (start : Z) (n : nat) : list Z :=
  match n with
  | O => []
  | S n' => start :: count_from (start + 1) n'
  end.

End Prompt.

(** ** The source listing ([utils.format_sources_with_citations]) *)

Module Sources.
Import PySeq PyStr Citations.

(** One numbered entry of the listing,
    [f"**[{i}]** {used_indicator}{display_chunk}\n\n"]: the text is kept as
    the three values it is formatted from. *)
Record entry := {
  number : Z;
  used : bool;
  display_chunk : str
}.

(** The listing: the fixed text for no chunk at all, or the entries
    followed, when chunks were left out, by the line that counts them. *)
Inductive listing :=
| NoSources
| Listed (entries : list entry) (left_out : option Z).

(** [chunk[:250] + "..." if len(chunk) > 250 else chunk] *)
Definition preview (chunk : str) : str :=
  if len chunk >? 250 then slice_to chunk 250 ++ lit "..." else chunk.

(** [citation_ids and i in citation_ids], for an optional list. *)
Definition cited (citation_ids : option (list Z)) (i : Z) : bool :=
  match citation_ids with
  | None => false
  | Some ids => negb (0 =? len ids) && mem i ids
  end.

(** The loop [for i, chunk in enumerate(display_chunks, 1)]. *)
Fixpoint entries_from (i : Z) (display_chunks : list str)
  (citation_ids : option (list Z)) : list entry :=
  match display_chunks with
  | [] => []
  | chunk :: rest =>
      {| number := i; used := cited citation_ids i;
         display_chunk := preview chunk |}
      :: entries_from (i + 1) rest citation_ids
  end.

Definition format_sources_with_citations (chunks : list str)
  (citation_ids : option (list Z)) (max_display : Z) : listing :=
  match chunks with
  | [] => NoSources
  | _ :: _ =>
      let display_chunks := slice_to chunks max_display in
      Listed (entries_from 1 display_chunks citation_ids)
             (if len chunks >? max_display
              then Some (len chunks - max_display) else None)
  end.

End Sources.

(** ** The question pipeline ([MedicalRAG.ask], [MedicalRAG.get_stats]) *)

Module Pipeline.
Import PySeq PyStr Citations Sources Retrieval.

(** One turn of the conversation: what the user asked and what the
    assistant answered. *)
Definition turn : Type := (str * str)%type.

(** The text generation behind [generate_answer]: the model call, and the
    texts returned in place of an answer when there is no client or the
    call fails.  It never raises. *)
Class Generator := {
  generate_answer : str -> list str -> list turn -> str
}.

Section WithServices.
Context {C : Collaborators} {G : Generator}.

(** A [MedicalRAG]: the index and the counters of [self.stats]. *)
Record service := {
index_of : rag;
document_name : str;
total_queries : Z;
total_chunks : Z
}.

(** What [ask] returns: one of its two fixed replies, or the answer with
  its sources and the verdict on its citations. *)
Inductive reply :=
| UploadFirst
| NothingRelevant
| Answered (answer : str) (sources : list str) (sources_formatted : listing)
         (citation_ids : list Z) (citations_valid : bool)
         (validation_message : message).

Definition count_query (self : service) : service :=
{| index_of := index_of self;
   document_name := document_name self;
   total_queries := total_queries self + 1;
   total_chunks := total_chunks self |}.

(** [ask]: the state it leaves, and its reply or the exception that
  [hybrid_search] raised. *)
Definition ask (self : service) (query : str)
(conversation_history : list turn) : service * result reply :=
match chunks (index_of self) with
| [] => (self, Ok UploadFirst)
| _ :: _ =>
    let self := count_query self in
    match hybrid_search (index_of self) query 5 with
    | Raises => (self, Raises)
    | Ok search_results =>
        let context_chunks := map snd search_results in
        match context_chunks with
        | [] => (self, Ok NothingRelevant)
        | _ :: _ =>
            let answer :=
              generate_answer query context_chunks conversation_history in
            let citation_ids := extract_citations answer in
            let validation :=
              validate_citations answer (len context_chunks) in
            let sources_formatted :=
              format_sources_with_citations context_chunks
                (Some citation_ids) 5 in
            (self,
             Ok (Answered answer context_chunks sources_formatted
                   citation_ids (is_valid validation)
                   (message_of validation)))
        end
    end
end.

(** [get_stats] *)
Record stats := {
stats_document_name : str;
stats_total_chunks : Z;
stats_total_queries : Z;
indexed : bool
}.

Definition get_stats (self : service) : stats :=
{| stats_document_name := document_name self;
   stats_total_chunks := total_chunks self;
   stats_total_queries := total_queries self;
   indexed := 0 <? len (chunks (index_of self)) |}.
End WithServices.

(** A generator that cites every source it was given, to run [ask] on. *)
Definition citing_generator : Generator :=
  {| generate_answer := fun _ context_chunks _ =>
       Prompt.context_text (map (fun _ => lit "see") context_chunks) |}.

End Pipeline.

(** ** The dose calculator ([dose_calculator.calc_amoxicillin_dose],
    [dose_calculator.calc_ibuprofen_dose])

    Weights, ages and doses are exact rationals where the code computes
    with floats; the two calculators compare, halve, cap and round their
    numbers, and divide by constants only.  The texts of a [DoseResult]
    are kept as the values they are formatted from, and a warning as the
    sentence it is. *)

Module Dose.
Import PySeq PyStr.

Local Open Scope Q_scope.

Definition Qlt_bool (x y : Q) : bool := Fusion.Qlt_bool x y.

(** [round(x)]: the nearest integer, and of two nearest the even one. *)
Definition py_round (x : Q) : Z :=
  let f := Qfloor x in
  match Qcompare (x - inject_Z f) (1 # 2) with
  | Lt => f
  | Gt => (f + 1)%Z
  | Eq => if Z.even f then f else (f + 1)%Z
  end.

(** [min(a, b)] *)
Definition py_min (a b : Q) : Q := if Qlt_bool b a then b else a.

Inductive drug_text :=
| Amoxicillin
| Ibuprofen.

Inductive dose_text :=
| NotApplicable
| Mg (single_dose : Z).

Inductive frequency_text :=
| NoFrequency
| TwiceDaily (daily_dose : Z)
| EverySixToEightHours (max_doses : Z).

Inductive method_text :=
| AgeLimit
| PerKg (mg_per_kg : Z) (weight_kg : Q).

(** The warnings of the two calculators. *)
Inductive warning :=
| WeightOutOfRange
| UnderOneMonth
| DailyMaximumApplied
| SingleDoseLimited500
| DoseInSafeRange
| UnderSixMonths
| DailyMaximumIs (max_daily : Q)
| TakeWithFood.

(** Whether the text of the warning holds the warning sign that the
    safety checks look for. *)
Definition has_warning_sign (w : warning) : bool :=
  match w with
  | WeightOutOfRange | UnderOneMonth | DailyMaximumApplied
  | SingleDoseLimited500 | UnderSixMonths | DailyMaximumIs _ => true
  | DoseInSafeRange | TakeWithFood => false
  end.

Record DoseResult := {
  drug_name : drug_text;
  dose : dose_text;
  frequency : frequency_text;
  warnings : list warning;
  calculation_method : method_text;
  is_safe : bool
}.

(** [len([w for w in warnings if sign in w])] *)
Definition signs (warnings : list warning) : Z :=
  len (filter has_warning_sign warnings).

(** [warnings if warnings else [...]] *)
Definition or_safe_range (warnings : list warning) : list warning :=
  match warnings with
  | [] => [DoseInSafeRange]
  | _ :: _ => warnings
  end.

Definition calc_amoxicillin_dose (weight_kg age_years : Q) : DoseResult :=
  let warnings := [] in
  let warnings :=
    if Qlt_bool weight_kg 3 || Qlt_bool 150 weight_kg
    then warnings ++ [WeightOutOfRange] else warnings in
  if Qlt_bool age_years (1 # 10) then
    {| drug_name := Amoxicillin; dose := NotApplicable;
       frequency := NoFrequency; warnings := warnings ++ [UnderOneMonth];
       calculation_method := AgeLimit; is_safe := false |}
  else
    let daily_dose := 25 * weight_kg in
    let '(daily_dose, warnings) :=
      if Qlt_bool 3000 daily_dose
      then (3000, warnings ++ [DailyMaximumApplied])
      else (daily_dose, warnings) in
    let single_dose := daily_dose / 2 in
    let '(single_dose, warnings) :=
      if Qlt_bool 500 single_dose
      then (500, warnings ++ [SingleDoseLimited500])
      else (single_dose, warnings) in
    let single_dose := (py_round (single_dose / 125) * 125)%Z in
    let daily_dose := (single_dose * 2)%Z in
    let is_safe := (signs warnings =? 0)%Z in
    {| drug_name := Amoxicillin; dose := Mg single_dose;
       frequency := TwiceDaily daily_dose;
       warnings := or_safe_range warnings;
       calculation_method := PerKg 25 weight_kg; is_safe := is_safe |}.

Definition calc_ibuprofen_dose (weight_kg age_years : Q) : DoseResult :=
  let warnings := [] in
  if Qlt_bool age_years (1 # 2) then
    {| drug_name := Ibuprofen; dose := NotApplicable;
       frequency := NoFrequency; warnings := warnings ++ [UnderSixMonths];
       calculation_method := AgeLimit; is_safe := false |}
  else
    let single_dose := 10 * weight_kg in
    let max_daily := py_min (40 * weight_kg) 1200 in
    let max_doses := 4%Z in
    let '(single_dose, warnings) :=
      if Qlt_bool (max_daily / 3) single_dose
      then (max_daily / 3, warnings ++ [DailyMaximumIs max_daily])
      else (single_dose, warnings) in
    let single_dose :=
      if Qlt_bool single_dose 200
      then (py_round (single_dose / 20) * 20)%Z
      else (py_round (single_dose / 50) * 50)%Z in
    let warnings := warnings ++ [TakeWithFood] in
    let is_safe := (signs warnings =? 0)%Z in
    {| drug_name := Ibuprofen; dose := Mg single_dose;
       frequency := EverySixToEightHours max_doses;
       warnings := warnings;
       calculation_method := PerKg 10 weight_kg; is_safe := is_safe |}.

End Dose.

Import Fusion PySeq PyStr Chunker Citations Grounding Retrieval.

(** ** The collaborators chosen to run the definitions *)

Lemma insert_asc_perm x l : Permutation (insert_asc x l) (x :: l).
Proof.
  induction l as [|y l IH]; simpl.
  - apply Permutation_refl.
  - destruct (np_ltb (snd y) (snd x) || negb (np_ltb (snd x) (snd y))).
    + eapply Permutation_trans; [apply perm_skip, IH | apply perm_swap].
    + apply Permutation_refl.
Qed.

Lemma sort_asc_perm l : Permutation (sort_asc l) l.
Proof.
  induction l as [|x l IH]; simpl.
  - apply Permutation_refl.
  - eapply Permutation_trans; [apply insert_asc_perm | apply perm_skip, IH].
Qed.

Lemma map_fst_combine {A B} (a : list A) : forall (b : list B),
  List.length a = List.length b -> map fst (combine a b) = a.
Proof.
  induction a as [|x a IH]; intros [|y b] H; simpl in *; try discriminate.
  - reflexivity.
  - f_equal. apply IH. lia.
Qed.

Lemma simple_argsort_perm l :
  Permutation (simple_argsort l) (seq 0 (List.length l)).
Proof.
  unfold simple_argsort.
  eapply Permutation_trans; [apply Permutation_map, sort_asc_perm|].
  rewrite map_fst_combine by apply length_seq. apply Permutation_refl.
Qed.

Lemma simple_sqrt_0 x : x == 0 -> simple_sqrt x == 0.
Proof.
  unfold Qeq, simple_sqrt. simpl. intros H.
  rewrite Z.mul_1_r in H. rewrite H. reflexivity.
Qed.

#[export] Instance simple_collaborators : Collaborators := {|
  bm25_index := list (list str);
  get_scores := simple_scores;
  encode := simple_encode;
  argsort := simple_argsort;
  argsort_perm := simple_argsort_perm;
  sqrt := simple_sqrt;
  sqrt_0 := simple_sqrt_0
|}.

(** ** States to run retrieval on *)

(** A state with one chunk and its embedding, and no lexical index. *)
Definition rag_without_bm25 : rag :=
  {| chunks := [lit "aspirin reduces fever"];
     embeddings := Some [[1; 0]%Q];
     bm25 := None |}.

(** Retrieval that still answers from the signal that is there. *)
Definition missing_signal_claim : Prop :=
  forall (self : rag) (query : str) (top_k : Z),
    chunks self <> [] -> 0 < top_k ->
    (embeddings self <> None /\ bm25 self = None)
    \/ (embeddings self = None /\ bm25 self <> None) ->
    hybrid_search self query top_k <> Ok [].

(** A state with three chunks, their embeddings and their lexical index. *)
Definition rag_of_three : rag :=
  {| chunks := [lit "aspirin reduces fever"; lit "ibuprofen eases pain";
                lit "rest and fluids"];
     embeddings := Some [[2; 19]%Q; [2; 18]%Q; [2; 13]%Q];
     bm25 := Some [[lit "aspirin"; lit "reduces"; lit "fever"];
                   [lit "ibuprofen"; lit "eases"; lit "pain"];
                   [lit "rest"; lit "and"; lit "fluids"]] |}.

(** * Facts about lists of keys, and reciprocal rank fusion *)

Lemma ordered_pair_cons {A} (a : A) l x y :
  ordered_pair (a :: l) x y <-> (x = a /\ In y l) \/ ordered_pair l x y.
Proof.
  split.
  - intros (l1 & l2 & l3 & E). destruct l1 as [|b l1]; simpl in E.
    + injection E as -> ->. left. split; [reflexivity|].
      apply in_or_app. right. left. reflexivity.
    + injection E as -> ->. right. exists l1, l2, l3. reflexivity.
  - intros [[-> Hy] | (l1 & l2 & l3 & ->)].
    + apply in_split in Hy. destruct Hy as (l2 & l3 & ->).
      exists [], l2, l3. reflexivity.
    + exists (a :: l1), l2, l3. reflexivity.
Qed.

Lemma ordered_pair_snoc {A} (a : A) l x y :
  ordered_pair (l ++ [a]) x y <-> ordered_pair l x y \/ (In x l /\ y = a).
Proof.
  split.
  - intros (l1 & l2 & l3 & E).
    destruct l3 as [|c l3] using rev_ind.
    + replace (l1 ++ x :: l2 ++ [y]) with ((l1 ++ x :: l2) ++ [y]) in E
        by (rewrite <- app_assoc; reflexivity).
      apply app_inj_tail in E. destruct E as [-> ->].
      right. split; [|reflexivity]. apply in_or_app. right. left. reflexivity.
    + clear IHl3.
      replace (l1 ++ x :: l2 ++ y :: l3 ++ [c])
        with ((l1 ++ x :: l2 ++ y :: l3) ++ [c]) in E
        by (rewrite <- app_assoc; simpl; rewrite <- app_assoc; reflexivity).
      apply app_inj_tail in E. destruct E as [-> ->].
      left. exists l1, l2, l3. reflexivity.
  - intros [(l1 & l2 & l3 & ->) | [Hx ->]].
    + exists l1, l2, (l3 ++ [a]).
      rewrite <- app_assoc. simpl. rewrite <- app_assoc. reflexivity.
    + apply in_split in Hx. destruct Hx as (l1 & l2 & ->).
      exists l1, l2, []. rewrite <- app_assoc. reflexivity.
Qed.

Lemma ordered_pair_map {A B} (f : A -> B) l x y :
  ordered_pair l x y -> ordered_pair (map f l) (f x) (f y).
Proof.
  intros (l1 & l2 & l3 & ->). exists (map f l1), (map f l2), (map f l3).
  rewrite map_app. simpl. rewrite map_app. reflexivity.
Qed.

Lemma ordered_pair_in {A} (l : list A) x y :
  ordered_pair l x y -> In x l /\ In y l.
Proof.
  intros (l1 & l2 & l3 & ->). split.
  - apply in_or_app. right. left. reflexivity.
  - apply in_or_app. right. right. apply in_or_app. right. left. reflexivity.
Qed.

(** first-insertion order *)
Lemma existsb_eqb_in k acc : existsb (Z.eqb k) acc = true <-> In k acc.
Proof.
  rewrite existsb_exists. split.
  - intros (x & Hx & E). apply Z.eqb_eq in E. subst. exact Hx.
  - intros H. exists k. split; [exact H | apply Z.eqb_refl].
Qed.

Lemma add_new_old acc k : In k acc -> add_new acc k = acc.
Proof.
  intros H. unfold add_new. apply existsb_eqb_in in H. rewrite H. reflexivity.
Qed.

Lemma add_new_fresh acc k : ~ In k acc -> add_new acc k = acc ++ [k].
Proof.
  intros H. unfold add_new. destruct (existsb (Z.eqb k) acc) eqn:E.
  - apply existsb_eqb_in in E. contradiction.
  - reflexivity.
Qed.

Lemma in_add_new acc k x : In x (add_new acc k) <-> In x acc \/ x = k.
Proof.
  unfold add_new. destruct (existsb (Z.eqb k) acc) eqn:E.
  - apply existsb_eqb_in in E. split; [auto|]. intros [H| ->]; assumption.
  - rewrite in_app_iff. simpl. intuition congruence.
Qed.

Lemma nodup_add_new acc k : NoDup acc -> NoDup (add_new acc k).
Proof.
  intros H. unfold add_new. destruct (existsb (Z.eqb k) acc) eqn:E.
  - exact H.
  - apply NoDup_app; [exact H | repeat constructor; simpl; tauto |].
    intros a Ha [<-|[]]. apply existsb_eqb_in in Ha. congruence.
Qed.

Lemma in_fold_add_new l : forall acc x,
  In x (fold_left add_new l acc) <-> In x acc \/ In x l.
Proof.
  induction l as [|k l IH]; intros acc x; simpl.
  - tauto.
  - rewrite IH, in_add_new. intuition congruence.
Qed.

Lemma nodup_fold_add_new l : forall acc,
  NoDup acc -> NoDup (fold_left add_new l acc).
Proof.
  induction l as [|k l IH]; intros acc H; simpl.
  - exact H.
  - apply IH, nodup_add_new, H.
Qed.

(** Where two keys stand after a run of insertions. *)
Lemma fold_add_new_order l : forall acc i j,
  ordered_pair (fold_left add_new l acc) i j ->
  ordered_pair acc i j
  \/ (In i acc /\ ~ In j acc /\ In j l)
  \/ (~ In i acc /\ ~ In j acc /\ first_before l i j).
Proof.
  induction l as [|k l IH]; intros acc i j Hop; simpl in *.
  - left. exact Hop.
  - destruct (IH _ _ _ Hop) as [Ho | [(Hi & Hj & Hl) | (Hi & Hj & Hf)]].
    + destruct (in_dec Z.eq_dec k acc) as [Hin|Hnin].
      * rewrite add_new_old in Ho by exact Hin. left. exact Ho.
      * rewrite add_new_fresh in Ho by exact Hnin.
        apply ordered_pair_snoc in Ho. destruct Ho as [Ho | [Hi ->]].
        -- left. exact Ho.
        -- right. left. split; [exact Hi|]. split; [exact Hnin|].
           left. reflexivity.
    + rewrite in_add_new in Hi, Hj.
      assert (Hj' : ~ In j acc) by tauto.
      assert (Hjk : j <> k) by tauto.
      destruct Hi as [Hi | ->].
      * right. left. split; [exact Hi|]. split; auto.
      * destruct (in_dec Z.eq_dec k acc) as [Hin|Hnin].
        -- right. left. split; [exact Hin|]. split; auto.
        -- right. right. split; [exact Hnin|]. split; [exact Hj'|].
           exists [], l. split; [reflexivity|].
           split; [intros []|congruence].
    + rewrite in_add_new in Hi, Hj.
      assert (Hj' : ~ In j acc) by tauto.
      assert (Hjk : j <> k) by tauto.
      right. right. split; [tauto|]. split; [exact Hj'|].
      destruct Hf as (l1 & l2 & E & Hn & Hne).
      exists (k :: l1), l2. rewrite E. split; [reflexivity|].
      split; [|exact Hne]. intros [->|Hin]; auto.
Qed.

Lemma first_seen_order l i j :
  ordered_pair (fold_left add_new l []) i j -> first_before l i j.
Proof.
  intros H. destruct (fold_add_new_order _ _ _ _ H)
    as [(l1 & l2 & l3 & E) | [(Hi & _) | (_ & _ & Hf)]].
  - destruct l1; discriminate.
  - destruct Hi.
  - exact Hf.
Qed.

(** dict *)
Lemma keys_dict_set d key v :
  map fst (dict_set d key v) = add_new (map fst d) key.
Proof.
  induction d as [|[k' v'] d IH]; simpl.
  - reflexivity.
  - unfold add_new. simpl. rewrite (Z.eqb_sym key k').
    destruct (Z.eqb_spec k' key) as [->|Hne]; simpl.
    + reflexivity.
    + rewrite IH. unfold add_new.
      destruct (existsb (Z.eqb key) (map fst d)); reflexivity.
Qed.

Lemma dict_get_set d key v x def :
  dict_get (dict_set d key v) x def =
  if key =? x then v else dict_get d x def.
Proof.
  induction d as [|[k' v'] d IH]; simpl.
  - destruct (key =? x); reflexivity.
  - destruct (Z.eqb_spec k' key) as [->|Hne]; simpl.
    + destruct (key =? x); reflexivity.
    + rewrite IH. destruct (Z.eqb_spec k' x) as [->|Hne'].
      * destruct (Z.eqb_spec key x); [congruence | reflexivity].
      * reflexivity.
Qed.

Lemma dict_get_in d key v def :
  NoDup (map fst d) -> In (key, v) d -> dict_get d key def = v.
Proof.
  induction d as [|[k' v'] d IH]; simpl; intros ND Hin; [contradiction|].
  inversion ND as [|? ? Hn ND']; subst.
  destruct Hin as [E|Hin].
  - injection E as -> ->. rewrite Z.eqb_refl. reflexivity.
  - destruct (Z.eqb_spec k' key) as [->|Hne].
    + exfalso. apply Hn. apply (in_map fst) in Hin. exact Hin.
    + apply IH; assumption.
Qed.

Section AccumulateFacts.
Context {Score : Type}.
Implicit Types (l : list (Z * Score)) (d : dict).

Lemma recip_some n : n <> 0 -> recip n = Some (/ inject_Z n).
Proof. unfold recip. destruct (Z.eqb_spec n 0); congruence. Qed.

Lemma accumulate_total l : forall k rank d,
  0 <= k -> 0 <= rank -> exists d', accumulate k rank l d = Some d'.
Proof.
  induction l as [|[idx s] l IH]; intros k rank d Hk Hr; simpl.
  - eexists; reflexivity.
  - rewrite recip_some by lia. apply IH; lia.
Qed.

Lemma accumulate_value l : forall k rank d d' id,
  accumulate k rank l d = Some d' ->
  dict_get d' id 0 == dict_get d id 0 + rank_sum k rank l id.
Proof.
  induction l as [|[idx s] l IH]; intros k rank d d' id H; simpl in *.
  - injection H as <-. ring.
  - unfold recip in H. destruct (k + rank + 1 =? 0); [discriminate|].
    rewrite (IH _ _ _ _ _ H), dict_get_set.
    destruct (Z.eqb_spec idx id) as [->|Hne]; ring.
Qed.

Lemma accumulate_keys_eq l : forall k rank d d',
  accumulate k rank l d = Some d' ->
  map fst d' = fold_left add_new (map fst l) (map fst d).
Proof.
  induction l as [|[idx s] l IH]; intros k rank d d' H; simpl in *.
  - injection H as <-. reflexivity.
  - unfold recip in H. destruct (k + rank + 1 =? 0); [discriminate|].
    rewrite (IH _ _ _ _ H), keys_dict_set. reflexivity.
Qed.
End AccumulateFacts.

Lemma Qlt_bool_iff x y : Qlt_bool x y = true <-> (x < y)%Q.
Proof.
  unfold Qlt_bool. rewrite negb_true_iff. split.
  - intros H. apply Qnot_le_lt. intros Hle.
    apply Qle_bool_iff in Hle. congruence.
  - intros H. destruct (Qle_bool y x) eqn:E; [|reflexivity].
    apply Qle_bool_iff in E. exfalso. exact (Qlt_not_le _ _ H E).
Qed.

Lemma Qlt_bool_false x y : Qlt_bool x y = false -> (y <= x)%Q.
Proof.
  unfold Qlt_bool. rewrite negb_false_iff. apply Qle_bool_iff.
Qed.

Lemma insert_desc_perm x l : Permutation (insert_desc x l) (x :: l).
Proof.
  induction l as [|y l IH]; simpl.
  - apply Permutation_refl.
  - destruct (Qlt_bool (snd x) (snd y)).
    + eapply Permutation_trans; [apply perm_skip, IH | apply perm_swap].
    + apply Permutation_refl.
Qed.

Lemma sorted_desc_perm l : Permutation (sorted_desc l) l.
Proof.
  induction l as [|x l IH]; simpl.
  - apply Permutation_refl.
  - eapply Permutation_trans; [apply insert_desc_perm | apply perm_skip, IH].
Qed.

Lemma insert_desc_order a l x y :
  ordered_pair (insert_desc a l) x y ->
  (x = a /\ In y l) \/ (y = a /\ In x l /\ (snd a < snd x)%Q)
  \/ ordered_pair l x y.
Proof.
  induction l as [|y0 l IH]; simpl; intros H.
  - destruct H as (l1 & l2 & l3 & E). exfalso.
    apply (f_equal (@List.length _)) in E. rewrite length_app in E. simpl in E.
    rewrite length_app in E. simpl in E. lia.
  - destruct (Qlt_bool (snd a) (snd y0)) eqn:Hlt.
    + apply ordered_pair_cons in H. destruct H as [[-> Hy] | H].
      * apply (Permutation_in _ (insert_desc_perm a l)) in Hy.
        destruct Hy as [<- | Hy].
        -- right. left. split; [reflexivity|]. split; [left; reflexivity|].
           apply Qlt_bool_iff. assumption.
        -- right. right. apply ordered_pair_cons. left. split; auto.
      * destruct (IH H) as [[-> Hy] | [(-> & Hx & Hl) | Ho]].
        -- left. split; [reflexivity | right; assumption].
        -- right. left. split; [reflexivity|]. split; [right|]; assumption.
        -- right. right. apply ordered_pair_cons. right. assumption.
    + apply ordered_pair_cons in H. destruct H as [[-> Hy] | H].
      * left. split; [reflexivity | assumption].
      * right. right. assumption.
Qed.

Lemma sorted_desc_stable l x y :
  ordered_pair (sorted_desc l) x y -> (snd x == snd y)%Q -> ordered_pair l x y.
Proof.
  induction l as [|a l IH]; simpl; intros H E.
  - destruct H as (l1 & l2 & l3 & H). destruct l1; discriminate.
  - apply insert_desc_order in H.
    destruct H as [[-> Hy] | [(-> & Hx & Hl) | Ho]].
    + apply ordered_pair_cons. left. split; [reflexivity|].
      apply (Permutation_in _ (sorted_desc_perm l)). assumption.
    + exfalso. rewrite E in Hl. exact (Qlt_irrefl _ Hl).
    + apply ordered_pair_cons. right. apply IH; assumption.
Qed.

Lemma descending_tail a l : descending (a :: l) -> descending l.
Proof.
  intros H x y Ho. apply H. apply ordered_pair_cons. right. assumption.
Qed.

Lemma insert_desc_descending a l :
  descending l -> descending (insert_desc a l).
Proof.
  induction l as [|y0 l IH]; simpl; intros Hd x y Ho.
  - destruct Ho as (l1 & l2 & l3 & E). exfalso.
    apply (f_equal (@List.length _)) in E. rewrite length_app in E. simpl in E.
    rewrite length_app in E. simpl in E. lia.
  - destruct (Qlt_bool (snd a) (snd y0)) eqn:Hlt.
    + apply ordered_pair_cons in Ho. destruct Ho as [[-> Hy] | Ho].
      * apply (Permutation_in _ (insert_desc_perm a l)) in Hy.
        destruct Hy as [<- | Hy].
        -- apply Qlt_le_weak, Qlt_bool_iff. assumption.
        -- apply Hd. apply ordered_pair_cons. left. split; auto.
      * apply (IH (descending_tail _ _ Hd)). assumption.
    + apply Qlt_bool_false in Hlt.
      apply ordered_pair_cons in Ho. destruct Ho as [[-> Hy] | Ho].
      * destruct Hy as [<- | Hy]; [assumption|].
        eapply Qle_trans; [|exact Hlt].
        apply Hd. apply ordered_pair_cons. left. split; auto.
      * apply Hd. assumption.
Qed.

Lemma sorted_desc_descending l : descending (sorted_desc l).
Proof.
  induction l as [|a l IH]; simpl.
  - intros x y (l1 & l2 & l3 & H). destruct l1; discriminate.
  - apply insert_desc_descending. assumption.
Qed.

Section FusionFacts.
Context {Score : Type}.
Implicit Types (l sem : list (Z * Score)).

Lemma rank_sum_absent l : forall k rank id,
  ~ In id (map fst l) -> rank_sum k rank l id == 0.
Proof.
  induction l as [|[idx s] l IH]; intros k rank id Hn; simpl in *.
  - reflexivity.
  - destruct (Z.eqb_spec idx id) as [->|Hne]; [tauto|].
    rewrite IH by tauto. ring.
Qed.

Lemma rank_sum_unique l : forall k rank r id s,
  NoDup (map fst l) -> nth_error l r = Some (id, s) ->
  rank_sum k rank l id == / inject_Z (k + (rank + Z.of_nat r) + 1).
Proof.
  induction l as [|[idx s0] l IH]; intros k rank r id s ND Hn; simpl in *.
  - destruct r; discriminate.
  - inversion ND as [|? ? Hnin ND']; subst.
    destruct r as [|r]; simpl in Hn.
    + injection Hn as -> ->. rewrite Z.eqb_refl.
      rewrite rank_sum_absent by assumption.
      replace (rank + Z.of_nat 0) with rank by lia. ring.
    + destruct (Z.eqb_spec idx id) as [->|Hne].
      * exfalso. apply Hnin. apply nth_error_In in Hn.
        apply (in_map fst) in Hn. exact Hn.
      * rewrite (IH _ _ _ _ _ ND' Hn).
        replace (rank + 1 + Z.of_nat r) with (rank + Z.of_nat (S r)) by lia.
        ring.
Qed.

Lemma rrf_fusion_inv (bm25 : list (Z * Score)) sem k out :
  rrf_fusion bm25 sem k = Some out ->
  exists d1 d2, accumulate k 0 bm25 [] = Some d1
    /\ accumulate k 0 sem d1 = Some d2 /\ out = sorted_desc d2.
Proof.
  unfold rrf_fusion. intros H.
  destruct (accumulate k 0 bm25 []) as [d1|] eqn:E1; [|discriminate].
  destruct (accumulate k 0 sem d1) as [d2|] eqn:E2; [|discriminate].
  injection H as <-. exists d1, d2. split; [reflexivity|]. split; [exact E2 | reflexivity].
Qed.

Lemma rrf_fusion_keys (bm25 : list (Z * Score)) sem k d1 d2 :
  accumulate k 0 bm25 [] = Some d1 -> accumulate k 0 sem d1 = Some d2 ->
  map fst d2 = fold_left add_new (map fst bm25 ++ map fst sem) [].
Proof.
  intros H1 H2.
  rewrite (accumulate_keys_eq _ _ _ _ _ H2), (accumulate_keys_eq _ _ _ _ _ H1).
  rewrite fold_left_app. reflexivity.
Qed.
End FusionFacts.

(** Claim C1 as stated fails: on the scenario of the specification the two
    ids tie at 123/3782 and id 5 is ranked before id 2, so equal scores are
    not ordered by ascending id. *)
Lemma rrf_fusion_tie_not_ascending :
  exists out, rrf_fusion scenario_a scenario_b 60 = Some out
              /\ map fst out = [5; 2]
              /\ ~ ties_by_ascending_id out.
Proof.
  eexists. split; [vm_compute; reflexivity|]. split; [reflexivity|].
  intros H.
  specialize (H 5 (123 # 3782)%Q 2 (123 # 3782)%Q).
  assert (5 < 2) as Habs; [|lia].
  apply H; [|reflexivity].
  exists [], [], []. reflexivity.
Qed.

(** Claim C4: for every pair of lists and every [k], [rrf_fusion] returns
    whenever [k] is not negative, and what it returns holds each id of the
    two lists once, with a fused score equal to the sum over both lists of
    [1 / (k + r + 1)] for the ranks [r] of the id; an id absent from a list
    gets nothing from it, an id standing once in it at rank [r] gets
    exactly [1 / (k + r + 1)]. *)
Theorem rrf_fusion_scores :
  forall (Score : Type) (bm25 sem : list (Z * Score)) (k : Z),
    (0 <= k -> exists out, rrf_fusion bm25 sem k = Some out)
    /\ (forall out, rrf_fusion bm25 sem k = Some out ->
          NoDup (map fst out)
          /\ (forall id, In id (map fst out) <->
                         In id (map fst bm25) \/ In id (map fst sem))
          /\ (forall id s, In (id, s) out ->
                s == rank_sum k 0 bm25 id + rank_sum k 0 sem id))
    /\ (forall (l : list (Z * Score)) id,
          ~ In id (map fst l) -> rank_sum k 0 l id == 0)
    /\ (forall (l : list (Z * Score)) r id s,
          NoDup (map fst l) -> nth_error l r = Some (id, s) ->
          rank_sum k 0 l id == / inject_Z (k + Z.of_nat r + 1)).
Proof.
  intros Score bm25 sem k. split; [|split; [|split]].
  - intros Hk. unfold rrf_fusion.
    destruct (accumulate_total bm25 k 0 [] Hk (Z.le_refl 0)) as [d1 ->].
    destruct (accumulate_total sem k 0 d1 Hk (Z.le_refl 0)) as [d2 ->].
    eexists; reflexivity.
  - intros out H.
    destruct (rrf_fusion_inv _ _ _ _ H) as (d1 & d2 & H1 & H2 & ->).
    pose proof (sorted_desc_perm d2) as P.
    pose proof (rrf_fusion_keys bm25 sem k d1 d2 H1 H2) as K.
    assert (ND : NoDup (map fst d2)).
    { rewrite K. apply nodup_fold_add_new. constructor. }
    split; [|split].
    + eapply Permutation_NoDup; [|exact ND].
      apply Permutation_map, Permutation_sym, P.
    + intros id.
      assert (Hk : In id (map fst d2) <->
                   In id (map fst bm25) \/ In id (map fst sem)).
      { rewrite K, in_fold_add_new, in_app_iff. simpl. tauto. }
      rewrite <- Hk. split.
      * apply Permutation_in, Permutation_map, P.
      * apply Permutation_in, Permutation_sym, Permutation_map, P.
    + intros id s Hin. apply (Permutation_in _ P) in Hin.
      rewrite <- (dict_get_in d2 id s 0 ND Hin).
      rewrite (accumulate_value _ _ _ _ _ id H2).
      rewrite (accumulate_value _ _ _ _ _ id H1). simpl. ring.
  - intros l id Hn. apply rank_sum_absent. assumption.
  - intros l r id s ND Hn.
    rewrite (rank_sum_unique l k 0 r id s ND Hn).
    replace (0 + Z.of_nat r) with (Z.of_nat r) by lia. reflexivity.
Qed.

Lemma rrf_fusion_scores_witness :
  (exists out, rrf_fusion scenario_a scenario_b 60 = Some out)
  /\ rank_sum 60 0 scenario_a 7 == 0
  /\ rank_sum 60 0 scenario_a 2 == 1 # 62.
Proof.
  destruct (rrf_fusion_scores Q scenario_a scenario_b 60)
    as (Htot & _ & Habs & Huniq).
  split; [apply Htot; lia|]. split.
  - apply Habs. simpl. intros [H|[H|[]]]; discriminate.
  - apply (Huniq scenario_a 1%nat 2 (9 # 1)%Q).
    + repeat constructor; simpl; intuition discriminate.
    + reflexivity.
Defined.

(** ** The ranking, whatever the arithmetic of the scores *)

Section RankingFacts.
Context {A : Ranking.Arithmetic} {Score : Type}.

Lemma ranking_keys_dict_set (d : Ranking.dict) key v :
  map fst (Ranking.dict_set d key v) = add_new (map fst d) key.
Proof.
  induction d as [|[k' v'] d IH]; simpl.
  - reflexivity.
  - unfold add_new. simpl. rewrite (Z.eqb_sym key k').
    destruct (Z.eqb_spec k' key) as [->|Hne]; simpl.
    + reflexivity.
    + rewrite IH. unfold add_new.
      destruct (existsb (Z.eqb key) (map fst d)); reflexivity.
Qed.

Lemma ranking_accumulate_keys (l : list (Z * Score)) : forall k rank d d',
  Ranking.accumulate k rank l d = Some d' ->
  map fst d' = fold_left add_new (map fst l) (map fst d).
Proof.
  induction l as [|[idx s] l IH]; intros k rank d d' H; simpl in *.
  - injection H as <-. reflexivity.
  - destruct (Ranking.reciprocal (k + rank + 1)) as [c|]; [|discriminate].
    rewrite (IH _ _ _ _ H), ranking_keys_dict_set. reflexivity.
Qed.

Lemma ranking_inv (bm25 sem : list (Z * Score)) k out :
  Ranking.rrf_fusion bm25 sem k = Some out ->
  exists d2, out = Ranking.sorted_desc d2
    /\ map fst d2 = fold_left add_new (map fst bm25 ++ map fst sem) [].
Proof.
  unfold Ranking.rrf_fusion. intros H.
  destruct (Ranking.accumulate k 0 bm25 []) as [d1|] eqn:E1; [|discriminate].
  destruct (Ranking.accumulate k 0 sem d1) as [d2|] eqn:E2; [|discriminate].
  injection H as <-. exists d2. split; [reflexivity|].
  rewrite (ranking_accumulate_keys _ _ _ _ _ E2).
  rewrite (ranking_accumulate_keys _ _ _ _ _ E1).
  rewrite fold_left_app. reflexivity.
Qed.

Lemma ranking_insert_perm x l :
  Permutation (Ranking.insert_desc x l) (x :: l).
Proof.
  induction l as [|y l IH]; simpl.
  - apply Permutation_refl.
  - destruct (Ranking.less (snd x) (snd y)).
    + eapply Permutation_trans; [apply perm_skip, IH | apply perm_swap].
    + apply Permutation_refl.
Qed.

Lemma ranking_sorted_perm l : Permutation (Ranking.sorted_desc l) l.
Proof.
  induction l as [|x l IH]; simpl.
  - apply Permutation_refl.
  - eapply Permutation_trans; [apply ranking_insert_perm | apply perm_skip, IH].
Qed.

(** An item stands behind another one after an insertion only if it did
    before, or if it is the inserted item and its key is less. *)
Lemma ranking_insert_order a l x y :
  ordered_pair (Ranking.insert_desc a l) x y ->
  (x = a /\ In y l)
  \/ (y = a /\ In x l /\ Ranking.less (snd a) (snd x) = true)
  \/ ordered_pair l x y.
Proof.
  induction l as [|y0 l IH]; simpl; intros H.
  - destruct H as (l1 & l2 & l3 & E). exfalso.
    apply (f_equal (@List.length _)) in E. rewrite length_app in E.
    simpl in E. rewrite length_app in E. simpl in E. lia.
  - destruct (Ranking.less (snd a) (snd y0)) eqn:Hlt.
    + apply ordered_pair_cons in H. destruct H as [[-> Hy] | H].
      * apply (Permutation_in _ (ranking_insert_perm a l)) in Hy.
        destruct Hy as [<- | Hy].
        -- right. left. split; [reflexivity|].
           split; [left; reflexivity | exact Hlt].
        -- right. right. apply ordered_pair_cons. left. split; auto.
      * destruct (IH H) as [[-> Hy] | [(-> & Hx & Hl) | Ho]].
        -- left. split; [reflexivity | right; assumption].
        -- right. left. split; [reflexivity|]. split; [right|]; assumption.
        -- right. right. apply ordered_pair_cons. right. assumption.
    + apply ordered_pair_cons in H. destruct H as [[-> Hy] | H].
      * left. split; [reflexivity | assumption].
      * right. right. assumption.
Qed.

(** The sort moves an item behind another one only if its key is
    less. *)
Lemma ranking_sorted_stable l x y :
  ordered_pair (Ranking.sorted_desc l) x y ->
  Ranking.less (snd y) (snd x) = false -> ordered_pair l x y.
Proof.
  induction l as [|a l IH]; simpl; intros H E.
  - destruct H as (l1 & l2 & l3 & H). destruct l1; discriminate.
  - apply ranking_insert_order in H.
    destruct H as [[-> Hy] | [(-> & Hx & Hl) | Ho]].
    + apply ordered_pair_cons. left. split; [reflexivity|].
      apply (Permutation_in _ (ranking_sorted_perm l)). assumption.
    + congruence.
    + apply ordered_pair_cons. right. apply IH; assumption.
Qed.

Lemma ranking_insert_never_rising a l :
  Ranking.weak_on (fun s => In s (map snd (a :: l))) ->
  Ranking.never_rising l -> Ranking.never_rising (Ranking.insert_desc a l).
Proof.
  induction l as [|y0 l IH]; simpl; intros W Hd x y Ho.
  - destruct Ho as (l1 & l2 & l3 & E). exfalso.
    apply (f_equal (@List.length _)) in E. rewrite length_app in E.
    simpl in E. rewrite length_app in E. simpl in E. lia.
  - assert (Htail : Ranking.never_rising l).
    { intros u v Huv. apply Hd. apply ordered_pair_cons. right. exact Huv. }
    assert (Wtail : Ranking.weak_on (fun s => In s (map snd (a :: l)))).
    { intros u v w Hu Hv Hw. apply W; simpl in *; tauto. }
    destruct (Ranking.less (snd a) (snd y0)) eqn:Hlt.
    + apply ordered_pair_cons in Ho. destruct Ho as [[-> Hy] | Ho].
      * apply (Permutation_in _ (ranking_insert_perm a l)) in Hy.
        destruct Hy as [<- | Hy].
        -- refine (proj1 (W (snd a) (snd y0) (snd a) _ _ _) Hlt);
             simpl; tauto.
        -- apply Hd. apply ordered_pair_cons. left. split; auto.
      * apply (IH Wtail Htail). assumption.
    + apply ordered_pair_cons in Ho. destruct Ho as [[-> Hy] | Ho].
      * destruct Hy as [<- | Hy]; [exact Hlt|].
        destruct (Ranking.less (snd a) (snd y)) eqn:Hay; [|reflexivity].
        exfalso.
        assert (Hin : In (snd y) (map snd l)) by (apply in_map; exact Hy).
        destruct (proj2 (W (snd a) (snd y0) (snd y)
                           ltac:(simpl; tauto) ltac:(simpl; tauto)
                           ltac:(simpl; tauto)) Hay) as [H1 | H2].
        -- congruence.
        -- assert (Ranking.less (snd y0) (snd y) = false) as H3.
           { apply Hd. apply ordered_pair_cons. left. split; auto. }
           congruence.
      * apply Hd. assumption.
Qed.

Lemma ranking_sorted_never_rising l :
  Ranking.weak_on (fun s => In s (map snd l)) ->
  Ranking.never_rising (Ranking.sorted_desc l).
Proof.
  induction l as [|a l IH]; simpl; intros W.
  - intros x y (l1 & l2 & l3 & H). destruct l1; discriminate.
  - apply ranking_insert_never_rising.
    + intros u v w Hu Hv Hw. apply W.
      * destruct Hu as [Hu | Hu]; [left; exact Hu | right].
        apply in_map_iff in Hu. destruct Hu as (p & <- & Hp).
        apply in_map. apply (Permutation_in _ (ranking_sorted_perm l) Hp).
      * destruct Hv as [Hv | Hv]; [left; exact Hv | right].
        apply in_map_iff in Hv. destruct Hv as (p & <- & Hp).
        apply in_map. apply (Permutation_in _ (ranking_sorted_perm l) Hp).
      * destruct Hw as [Hw | Hw]; [left; exact Hw | right].
        apply in_map_iff in Hw. destruct Hw as (p & <- & Hp).
        apply in_map. apply (Permutation_in _ (ranking_sorted_perm l) Hp).
    + apply IH. intros u v w Hu Hv Hw. apply W; right; assumption.
Qed.

Lemma weakly_ordered_spec (l : list Ranking.number) :
  Ranking.weakly_ordered l = true -> Ranking.weak_on (fun s => In s l).
Proof.
  unfold Ranking.weakly_ordered. intros H x y z Hx Hy Hz.
  rewrite forallb_forall in H. specialize (H x Hx).
  rewrite forallb_forall in H. specialize (H y Hy).
  apply andb_true_iff in H. destruct H as [H1 H2].
  rewrite forallb_forall in H2. specialize (H2 z Hz).
  split.
  - intros E. rewrite E in H1. simpl in H1.
    apply negb_true_iff in H1. exact H1.
  - intros E. rewrite E in H2. simpl in H2.
    apply orb_true_iff in H2. exact H2.
Qed.
End RankingFacts.

(** Claim C1, amended: whatever the arithmetic of the scores, when
    [rrf_fusion] returns and the comparisons among the fused scores it
    returns are those of a weak order (for doubles: when none of them is
    not-a-number), no entry of the output is followed by an entry with a
    greater fused score, and of two entries the first of which does not
    have the greater score, hence with scores that the code finds equal,
    the first is the one whose id appears first in the BM25 list followed
    by the semantic list. *)
Theorem rrf_fusion_tie_first_seen :
  forall (A : Ranking.Arithmetic) (Score : Type)
         (bm25 sem : list (Z * Score)) (k : Z) out,
    Ranking.rrf_fusion bm25 sem k = Some out ->
    Ranking.weakly_ordered (map snd out) = true ->
    forall i si j sj,
      ordered_pair out (i, si) (j, sj) ->
      Ranking.less si sj = false
      /\ (Ranking.less sj si = false ->
          first_before (map fst bm25 ++ map fst sem) i j).
Proof.
  intros A Score bm25 sem k out H W i si j sj Ho.
  destruct (ranking_inv _ _ _ _ H) as (d2 & -> & K).
  split.
  - apply (ranking_sorted_never_rising d2) in Ho; [exact Ho|].
    apply weakly_ordered_spec in W.
    intros x y z Hx Hy Hz. apply W.
    + apply in_map_iff in Hx. destruct Hx as (p & <- & Hp).
      apply in_map.
      apply (Permutation_in _ (Permutation_sym (ranking_sorted_perm d2)) Hp).
    + apply in_map_iff in Hy. destruct Hy as (p & <- & Hp).
      apply in_map.
      apply (Permutation_in _ (Permutation_sym (ranking_sorted_perm d2)) Hp).
    + apply in_map_iff in Hz. destruct Hz as (p & <- & Hp).
      apply in_map.
      apply (Permutation_in _ (Permutation_sym (ranking_sorted_perm d2)) Hp).
  - intros E. apply first_seen_order. rewrite <- K.
    apply (ordered_pair_map fst _ (i, si) (j, sj)).
    apply ranking_sorted_stable; assumption.
Qed.

Lemma rrf_fusion_tie_first_seen_witness :
  exists s,
    Ranking.rrf_fusion (A := Ranking.binary64) scenario_a scenario_b 60
    = Some [(5, s); (2, s)]
    /\ PrimFloat.ltb s s = false
    /\ first_before [5; 2; 2; 5] 5 2.
Proof.
  let v := eval vm_compute in
    (Ranking.rrf_fusion (A := Ranking.binary64) scenario_a scenario_b 60) in
  match v with
  | Some [(_, ?s); _] =>
      exists s;
      assert (E : Ranking.rrf_fusion (A := Ranking.binary64)
                    scenario_a scenario_b 60 = Some [(5, s); (2, s)])
        by (vm_compute; reflexivity);
      destruct (rrf_fusion_tie_first_seen Ranking.binary64 Q
                  scenario_a scenario_b 60 _ E
                  ltac:(vm_compute; reflexivity) 5 s 2 s) as [Hle Hfb];
      [ exists [], [], []; reflexivity
      | split; [exact E | split; [exact Hle | apply Hfb; reflexivity]] ]
  end.
Defined.

(** ** The two arithmetics *)

(** On exact rationals the ranking is the one of [Fusion]. *)
Lemma exact_insert_desc x l :
  Ranking.insert_desc (A := Ranking.exact) x l = insert_desc x l.
Proof.
  induction l as [|y l IH]; simpl; [reflexivity|]. rewrite IH. reflexivity.
Qed.

Lemma exact_sorted_desc l :
  Ranking.sorted_desc (A := Ranking.exact) l = sorted_desc l.
Proof.
  induction l as [|x l IH]; simpl; [reflexivity|].
  rewrite IH. apply exact_insert_desc.
Qed.

Lemma exact_dict_get d key default :
  Ranking.dict_get (A := Ranking.exact) d key default = dict_get d key default.
Proof.
  induction d as [|[k' v'] d IH]; simpl; [reflexivity|].
  rewrite IH. reflexivity.
Qed.

Lemma exact_dict_set d key v :
  Ranking.dict_set (A := Ranking.exact) d key v = dict_set d key v.
Proof.
  induction d as [|[k' v'] d IH]; simpl; [reflexivity|].
  rewrite IH. reflexivity.
Qed.

Lemma exact_accumulate {Score} (l : list (Z * Score)) : forall k rank d,
  Ranking.accumulate (A := Ranking.exact) k rank l d = accumulate k rank l d.
Proof.
  induction l as [|[idx s] l IH]; intros k rank d; simpl; [reflexivity|].
  destruct (recip (k + rank + 1)) as [c|]; [|reflexivity].
  rewrite IH, exact_dict_get, exact_dict_set. reflexivity.
Qed.

Lemma exact_rrf_fusion {Score} (bm25 sem : list (Z * Score)) k :
  Ranking.rrf_fusion (A := Ranking.exact) bm25 sem k = rrf_fusion bm25 sem k.
Proof.
  unfold Ranking.rrf_fusion, rrf_fusion. rewrite exact_accumulate.
  change (@nil (Z * @Ranking.number Ranking.exact)) with (@nil (Z * Q)).
  destruct (accumulate k 0 bm25 []) as [d1|]; [|reflexivity].
  rewrite exact_accumulate.
  destruct (accumulate k 0 sem d1) as [d2|]; [|reflexivity].
  rewrite exact_sorted_desc. reflexivity.
Qed.

(** The comparisons of rationals are always those of a weak order. *)
Lemma exact_weakly_ordered (l : list Q) :
  Ranking.weakly_ordered (A := Ranking.exact) l = true.
Proof.
  unfold Ranking.weakly_ordered.
  apply forallb_forall. intros x _. apply forallb_forall. intros y _.
  apply andb_true_iff. split.
  - cbn [Ranking.less Ranking.exact].
    destruct (Qlt_bool x y) eqn:E1; [|reflexivity].
    destruct (Qlt_bool y x) eqn:E2; [|reflexivity].
    apply Qlt_bool_iff in E1. apply Qlt_bool_iff in E2.
    exfalso. exact (Qlt_irrefl _ (Qlt_trans _ _ _ E1 E2)).
  - apply forallb_forall. intros z _. cbn [Ranking.less Ranking.exact].
    destruct (Qlt_bool x z) eqn:E1; [|reflexivity].
    destruct (Qlt_bool x y) eqn:E2; [reflexivity|].
    destruct (Qlt_bool y z) eqn:E3; [reflexivity|].
    apply Qlt_bool_iff in E1. apply Qlt_bool_false in E2.
    apply Qlt_bool_false in E3. exfalso.
    exact (Qlt_irrefl _ (Qlt_le_trans _ _ _ E1 (Qle_trans _ _ _ E3 E2))).
Qed.

(** The comparisons of doubles are those of a weak order as long as none of
    the doubles is not-a-number. *)
Ltac compare_cases :=
  change (PosDef.Pos.compare_cont Eq) with Pos.compare;
  repeat match goal with
         | |- context [(?a ?= ?b)%Z] => destruct (Z.compare_spec a b); cbn
         | |- context [Pos.compare ?a ?b] =>
             destruct (Pos.compare_spec a b); cbn
         end;
  try congruence; try tauto; try (intros _; tauto); subst; lia.

Lemma SFltb_asym x y :
  SpecFloat.SFltb x y = true -> SpecFloat.SFltb y x = false.
Proof.
  unfold SpecFloat.SFltb, SpecFloat.SFcompare.
  destruct x as [sx|sx| |sx mx ex], y as [sy|sy| |sy my ey];
    try destruct sx; try destruct sy; cbn; try congruence; compare_cases.
Qed.

Lemma SFltb_cotrans x y z :
  y <> SpecFloat.S754_nan ->
  SpecFloat.SFltb x z = true ->
  SpecFloat.SFltb x y = true \/ SpecFloat.SFltb y z = true.
Proof.
  unfold SpecFloat.SFltb, SpecFloat.SFcompare.
  intros Hy.
  destruct x as [sx|sx| |sx mx ex], y as [sy|sy| |sy my ey],
           z as [sz|sz| |sz mz ez];
    try destruct sx; try destruct sy; try destruct sz; cbn;
    try congruence; try (intros _; tauto); try tauto; compare_cases.
Qed.

Lemma not_nan_spec (x : PrimFloat.float) :
  PrimFloat.is_nan x = false -> FloatOps.Prim2SF x <> SpecFloat.S754_nan.
Proof.
  unfold PrimFloat.is_nan. rewrite FloatAxioms.eqb_spec. intros H E.
  rewrite E in H. discriminate H.
Qed.

Lemma binary64_weakly_ordered (l : list PrimFloat.float) :
  forallb (fun x => negb (PrimFloat.is_nan x)) l = true ->
  Ranking.weakly_ordered (A := Ranking.binary64) l = true.
Proof.
  intros Hn. rewrite forallb_forall in Hn.
  unfold Ranking.weakly_ordered.
  apply forallb_forall. intros x _. apply forallb_forall. intros y Hy.
  cbn [Ranking.less Ranking.binary64].
  apply andb_true_iff. split.
  - destruct (PrimFloat.ltb x y) eqn:E1; [|reflexivity]. cbn.
    rewrite FloatAxioms.ltb_spec in E1. rewrite FloatAxioms.ltb_spec.
    rewrite (SFltb_asym _ _ E1). reflexivity.
  - apply forallb_forall. intros z _.
    destruct (PrimFloat.ltb x z) eqn:E1; [|reflexivity]. cbn.
    rewrite FloatAxioms.ltb_spec in E1. rewrite !FloatAxioms.ltb_spec.
    apply orb_true_iff. apply SFltb_cotrans; [|exact E1].
    apply not_nan_spec. specialize (Hn y Hy).
    apply negb_true_iff in Hn. exact Hn.
Qed.

(** The rounding of the sums decides the ranking: on [rounding_a] and
    [rounding_b] with [k = 5] the ids 0, 4 and 10 have the same exact score
    and keep the order of their insertion, while in doubles the sum for id
    4 is the greatest and id 4 comes first. *)
Lemma rounding_decides_order :
  option_map (map fst)
    (Ranking.rrf_fusion (A := Ranking.exact)
       Ranking.rounding_a Ranking.rounding_b 5)
  = Some [0; 4; 10; 1; 11; 2; 12; 3; 13; 14; 15; 16; 17; 18]
  /\ option_map (map fst)
       (Ranking.rrf_fusion (A := Ranking.binary64)
          Ranking.rounding_a Ranking.rounding_b 5)
     = Some [4; 0; 10; 1; 11; 2; 12; 3; 13; 14; 15; 16; 17; 18].
Proof. split; vm_compute; reflexivity. Qed.

(** * The chunker *)

(** ** Facts about Python slices *)

Lemma firstn_app_skipn {A} (a b : nat) (m : list A) :
  firstn a m ++ firstn b (skipn a m) = firstn (a + b) m.
Proof.
  revert m. induction a as [|a IH]; intros m; simpl.
  - reflexivity.
  - destruct m as [|x m]; simpl.
    + rewrite firstn_nil. reflexivity.
    + rewrite IH. reflexivity.
Qed.

Lemma len_nonneg (s : str) : 0 <= len s.
Proof. unfold len. lia. Qed.

Lemma slice_in_range (s : str) a b :
  0 <= a -> a <= b -> b <= len s ->
  slice s a b = firstn (Z.to_nat (b - a)) (skipn (Z.to_nat a) s).
Proof.
  intros Ha Hab Hb. unfold slice, clamp.
  destruct (Z.ltb_spec a 0); [lia|]. destruct (Z.ltb_spec b 0); [lia|].
  rewrite !Z.min_l by lia. reflexivity.
Qed.

Lemma slice_all (s : str) : slice s 0 (len s) = s.
Proof.
  rewrite slice_in_range by (pose proof (len_nonneg s); lia).
  simpl. unfold len. rewrite Z.sub_0_r, Nat2Z.id. apply firstn_all.
Qed.

Lemma len_slice (s : str) a b :
  0 <= a -> a <= b -> b <= len s -> len (slice s a b) = b - a.
Proof.
  intros Ha Hab Hb. rewrite slice_in_range by assumption.
  unfold len in *. rewrite length_firstn, length_skipn. lia.
Qed.

Lemma slice_app (s : str) a b c :
  0 <= a -> a <= b -> b <= c -> c <= len s ->
  slice s a b ++ slice s b c = slice s a c.
Proof.
  intros Ha Hab Hbc Hc. rewrite !slice_in_range by lia.
  replace (Z.to_nat b) with (Z.to_nat (b - a) + Z.to_nat a)%nat by lia.
  rewrite <- skipn_skipn, firstn_app_skipn. f_equal. lia.
Qed.

Lemma skipn_slice (s : str) a b k :
  0 <= a -> 0 <= k -> a + k <= b -> b <= len s ->
  skipn (Z.to_nat k) (slice s a b) = slice s (a + k) b.
Proof.
  intros Ha Hk Hab Hb.
  rewrite <- (slice_app s a (a + k) b) by lia.
  rewrite skipn_app.
  assert (L : List.length (slice s a (a + k)) = Z.to_nat k).
  { pose proof (len_slice s a (a + k) ltac:(lia) ltac:(lia) ltac:(lia)) as L.
    unfold len in L. lia. }
  rewrite L, Nat.sub_diag. simpl.
  rewrite <- L, skipn_all. reflexivity.
Qed.

Lemma slice_to_slice (s : str) a b k :
  0 <= a -> a <= b -> b <= len s -> 0 <= k -> k <= b - a ->
  slice_to (slice s a b) k = slice s a (a + k).
Proof.
  intros Ha Hab Hb Hk Hkb. unfold slice_to.
  rewrite (slice_in_range (slice s a b) 0 k)
    by (rewrite ?len_slice by lia; lia).
  rewrite !slice_in_range by lia. simpl.
  rewrite firstn_firstn. f_equal. lia.
Qed.

Lemma slice_from_eq (s : str) a : slice_from s a = slice s a (len s).
Proof. reflexivity. Qed.

Lemma slice_nonempty (s : str) a b :
  0 <= a -> a < b -> b <= len s -> is_empty (slice s a b) = false.
Proof.
  intros Ha Hab Hb. pose proof (len_slice s a b Ha ltac:(lia) Hb) as L.
  destruct (slice s a b); [unfold len in L; simpl in L; lia | reflexivity].
Qed.

Lemma Forall_firstn {A} (P : A -> Prop) n (l : list A) :
  Forall P l -> Forall P (firstn n l).
Proof.
  intros H. revert n. induction H as [|x l Hx Hl IH]; intros [|n]; simpl;
    constructor; auto.
Qed.

Lemma Forall_skipn {A} (P : A -> Prop) n (l : list A) :
  Forall P l -> Forall P (skipn n l).
Proof.
  intros H. revert n. induction H as [|x l Hx Hl IH]; intros [|n]; simpl;
    try constructor; auto.
Qed.

Lemma slice_Forall (P : ascii -> Prop) (s : str) a b :
  Forall P s -> Forall P (slice s a b).
Proof.
  intros H. unfold slice. apply Forall_firstn, Forall_skipn. exact H.
Qed.

(** ** Stripping *)

Lemma lstrip_no_space s : no_space s -> lstrip s = s.
Proof.
  intros H. destruct H as [|c s Hc Hs]; simpl; [reflexivity|].
  rewrite Hc. reflexivity.
Qed.

Lemma strip_no_space s : no_space s -> strip s = s.
Proof.
  intros H. unfold strip, rstrip.
  rewrite (lstrip_no_space (rev s)) by (apply Forall_rev; exact H).
  rewrite rev_involutive. apply lstrip_no_space. exact H.
Qed.

(** ** [rfind] *)

Lemma rfind_from_bounds s c : forall i found,
  -1 <= found -> found < i -> 0 <= i ->
  -1 <= rfind_from s c i found < i + len s.
Proof.
  induction s as [|x s IH]; intros i found H1 H2 H3; simpl.
  - unfold len; simpl. lia.
  - replace (i + len (x :: s)) with ((i + 1) + len s)
      by (unfold len; simpl List.length; lia).
    apply IH; destruct (char_eqb x c); lia.
Qed.

Lemma rfind_bounds s c : -1 <= rfind s c < len s.
Proof.
  unfold rfind. pose proof (rfind_from_bounds s c 0 (-1)). lia.
Qed.

Lemma remove_overlap_snoc ov cs c :
  cs <> [] ->
  remove_overlap ov (cs ++ [c]) = remove_overlap ov cs ++ skipn (Z.to_nat ov) c.
Proof.
  destruct cs as [|c0 cs]; [congruence|]. intros _. simpl.
  rewrite map_app, concat_app. simpl. rewrite app_nil_r, app_assoc.
  reflexivity.
Qed.

Lemma filter_nonempty cs :
  nonempty_chunks cs -> filter (fun c => negb (is_empty c)) cs = cs.
Proof.
  induction 1 as [|c cs Hc Hcs IH]; simpl; [reflexivity|].
  rewrite Hc. simpl. rewrite IH. reflexivity.
Qed.

Lemma str_eqb_true a : forall b, str_eqb a b = true -> a = b.
Proof.
  induction a as [|x a IH]; intros [|y b] H; simpl in H;
    try discriminate; [reflexivity|].
  apply andb_true_iff in H. destruct H as [Hc Hs].
  apply Ascii.eqb_eq in Hc. subst y. rewrite (IH b Hs). reflexivity.
Qed.

Lemma str_eqb_refl a : str_eqb a a = true.
Proof.
  induction a as [|x a IH]; simpl; [reflexivity|].
  unfold char_eqb. rewrite Ascii.eqb_refl. exact IH.
Qed.

Section Coverage.
Variables (text : str) (size overlap : Z).
Hypothesis overlap_nonneg : 0 <= overlap.
Hypothesis overlap_lt_size : overlap < size.
Hypothesis overlap_small : overlap <= size / 2 + 1.

Let n := len text.

Lemma window_spec s :
  0 <= s -> s + size <= n ->
  exists e, window text size s = (slice text s e, e)
            /\ s + overlap < e /\ e <= s + size.
Proof.
  intros Hs Hse. unfold window, text_length. fold n.
  destruct (Z.ltb_spec (s + size) n) as [Hlt|Hge].
  - set (chunk := slice text s (s + size)).
    set (lp := Z.max (Z.max (rfind chunk ".") (rfind chunk "!"))
                 (rfind chunk "?")).
    assert (Hlen : len chunk = size).
    { unfold chunk. rewrite len_slice by (fold n; lia). lia. }
    assert (Hlp : -1 <= lp < size).
    { pose proof (rfind_bounds chunk "."). pose proof (rfind_bounds chunk "!").
      pose proof (rfind_bounds chunk "?"). unfold lp. lia. }
    destruct (Z.gtb_spec lp (size / 2)) as [Hgt|Hle].
    + exists (s + lp + 1). split; [|lia].
      unfold chunk. rewrite slice_to_slice by (fold n; lia).
      f_equal. f_equal. lia.
    + exists (s + size). split; [reflexivity | lia].
  - exists (s + size). split; [reflexivity | lia].
Qed.

Lemma loop_covers fuel : forall s cs,
  loop_inv text size overlap s cs -> (Z.to_nat (n - s) < fuel)%nat ->
  Shapes.cuts_untrimmed text size overlap fuel s = true ->
  exists cs', loop text size overlap fuel s cs = Some cs'
              /\ remove_overlap overlap cs' = text
              /\ nonempty_chunks cs'.
Proof.
  induction fuel as [|fuel IH]; intros s cs Hi Hfuel Hcut; [lia|].
  unfold loop_inv in Hi. fold n in Hi. destruct Hi as (Hs & Hinv).
  simpl. simpl in Hcut. unfold text_length in *. fold n. fold n in Hcut.
  destruct (Z.ltb_spec s n) as [Hsn|Hsn].
  - (* one more iteration *)
    assert (Hse : s + size <= n) by (destruct Hinv as [H|H]; lia).
    destruct (window_spec s Hs Hse) as (e & Hw & He1 & He2).
    unfold body. rewrite Hw. rewrite Hw in Hcut.
    cbv beta iota zeta in Hcut. fold n in Hcut.
    unfold text_length. fold n.
    apply andb_true_iff in Hcut. destruct Hcut as [Hc Hcut].
    apply str_eqb_true in Hc. rewrite Hc.
    assert (Hne : is_empty (slice text s e) = false)
      by (apply slice_nonempty; fold n; lia).
    assert (Hrec : remove_overlap overlap (cs ++ [slice text s e])
                   = slice text 0 e).
    { destruct Hinv as [(-> & -> & _) | (Hcs & Hso & _ & Hr & _)].
      - simpl. rewrite app_nil_r. reflexivity.
      - rewrite remove_overlap_snoc by assumption.
        rewrite Hr, skipn_slice by (fold n; lia).
        apply slice_app; fold n; lia. }
    assert (Hall : nonempty_chunks (cs ++ [slice text s e])).
    { apply Forall_app. split.
      - destruct Hinv as [(-> & _) | (_ & _ & _ & _ & H)];
          [constructor | exact H].
      - constructor; [exact Hne | constructor]. }
    assert (Hnil : cs ++ [slice text s e] <> [])
      by (intros E; apply app_eq_nil in E; destruct E; discriminate).
    destruct ((e - overlap + size >=? n) && (e - overlap <? n)) eqn:Hbr.
    + (* the final remainder *)
      apply andb_true_iff in Hbr. destruct Hbr as [Hge Hlt].
      apply Z.ltb_lt in Hlt.
      apply str_eqb_true in Hcut. rewrite Hcut.
      rewrite slice_from_eq. fold n.
      eexists. split; [reflexivity|]. split.
      * rewrite remove_overlap_snoc by assumption.
        rewrite Hrec, skipn_slice by (fold n; lia).
        replace (e - overlap + overlap) with e by lia.
        rewrite slice_app by (fold n; lia). apply slice_all.
      * apply Forall_app. split; [exact Hall|].
        constructor; [|constructor].
        apply slice_nonempty; fold n; lia.
    + apply IH; [|lia|exact Hcut].
      unfold loop_inv. fold n. split; [lia|]. right.
      split; [exact Hnil|]. split; [lia|]. split.
      * apply andb_false_iff in Hbr.
        destruct Hbr as [H|H]; [left | right].
        -- destruct (Z.geb_spec (e - overlap + size) n); [discriminate|lia].
        -- apply Z.ltb_ge in H. lia.
      * split; [|exact Hall].
        replace (e - overlap + overlap) with e by lia. exact Hrec.
  - (* the loop test fails *)
    destruct Hinv as [(_ & -> & Hsz) | (Hcs & Hso & _ & Hr & Hall)]; [lia|].
    exists cs. split; [reflexivity|]. split; [|exact Hall].
    rewrite Hr. replace (s + overlap) with n by lia. apply slice_all.
Qed.
End Coverage.

Lemma loop_fuel_mono text size overlap fuel : forall s cs r,
  loop text size overlap fuel s cs = Some r ->
  loop text size overlap (S fuel) s cs = Some r.
Proof.
  induction fuel as [|fuel IH]; intros s cs r H.
  - simpl in *. destruct (s <? text_length text); [discriminate | exact H].
  - simpl in H. change (loop text size overlap (S (S fuel)) s cs)
      with (if s <? text_length text then
              match body text size overlap s cs with
              | Break chunks' => Some chunks'
              | Continue start' chunks' =>
                  loop text size overlap (S fuel) start' chunks'
              end
            else Some cs).
    destruct (s <? text_length text); [|exact H].
    destruct (body text size overlap s cs) as [s' cs'|cs']; [|exact H].
    apply IH. exact H.
Qed.

Lemma loop_fuel_le text size overlap fuel fuel' s cs r :
  (fuel <= fuel')%nat ->
  loop text size overlap fuel s cs = Some r ->
  loop text size overlap fuel' s cs = Some r.
Proof.
  induction 1 as [|m Hle IH]; intros H; [exact H|].
  apply loop_fuel_mono, IH, H.
Qed.

(** Claim C8 as stated fails: [chunk_text("a b", 2, 0)] is [["a", "b"]];
    the space at the end of the first window is stripped, and the chunks
    no longer rebuild the text. *)
Lemma chunk_text_drops_boundary_space :
  chunk_text (lit "a b") 2 0 3 = Some [lit "a"; lit "b"]
  /\ remove_overlap 0 [lit "a"; lit "b"] <> lit "a b"
  /\ ~ coverage_claim.
Proof.
  split; [reflexivity|]. split; [discriminate|].
  intros H.
  specialize (H (lit "a b") 2 0 3%nat [lit "a"; lit "b"]
                ltac:(lia) ltac:(lia) ltac:(vm_compute; discriminate)
                eq_refl).
  discriminate H.
Qed.

(** A text without spaces has no cut that [strip] changes. *)
Lemma no_space_cuts_untrimmed text size overlap fuel : forall s,
  no_space text -> Shapes.cuts_untrimmed text size overlap fuel s = true.
Proof.
  induction fuel as [|fuel IH]; intros s Hns; simpl.
  - destruct (s <? text_length text); reflexivity.
  - destruct (s <? text_length text); [|reflexivity].
    assert (Hw : no_space (fst (window text size s))).
    { unfold window.
      destruct (s + size <? text_length text); [|apply slice_Forall; exact Hns].
      match goal with
      | |- context [if ?c then _ else _] => destruct c
      end; cbn [fst].
      - unfold slice_to. apply slice_Forall, slice_Forall. exact Hns.
      - apply slice_Forall. exact Hns. }
    destruct (window text size s) as [chunk e]. cbn [fst] in Hw.
    rewrite (strip_no_space _ Hw), str_eqb_refl. cbn [andb].
    destruct ((e - overlap + size >=? text_length text)
              && (e - overlap <? text_length text)).
    + assert (Hr : no_space (slice_from text (e - overlap)))
        by (unfold slice_from; apply slice_Forall; exact Hns).
      rewrite (strip_no_space _ Hr). apply str_eqb_refl.
    + apply IH. exact Hns.
Qed.

(** Claim C8, amended: for a text of length at least [size], with
    [0 <= overlap < size] and [overlap <= size // 2 + 1], in which no chunk
    that the loop cuts begins or ends with a space, so that [strip] changes
    none of them, [chunk_text] returns, and concatenating the first chunk
    with every later chunk less its first [overlap] characters gives the
    text back. *)
Theorem chunk_text_covers_untrimmed_cuts :
  forall (text : str) (size overlap : Z),
    0 <= overlap -> overlap < size -> overlap <= size / 2 + 1 ->
    size <= len text ->
    Shapes.cuts_untrimmed text size overlap (S (List.length text)) 0 = true ->
    exists chunks,
      (forall fuel, (List.length text < fuel)%nat ->
                    chunk_text text size overlap fuel = Some chunks)
      /\ remove_overlap overlap chunks = text.
Proof.
  intros text size overlap H0 H1 H2 H3 Hcut.
  destruct (loop_covers text size overlap H0 H1 H2
              (S (List.length text)) 0 [])
    as (cs & Hl & Hr & Hne).
  - unfold loop_inv. split; [lia|]. left. auto.
  - unfold len. lia.
  - exact Hcut.
  - exists cs. split; [|exact Hr].
    intros fuel Hf. unfold chunk_text.
    destruct text as [|c text]; [unfold len in H3; simpl in H3; lia|].
    simpl is_empty. cbv iota.
    rewrite (loop_fuel_le _ _ _ _ fuel _ _ _ Hf Hl).
    rewrite (filter_nonempty _ Hne). reflexivity.
Qed.

Lemma chunk_text_covers_untrimmed_cuts_witness :
  exists chunks,
    (forall fuel, (8 < fuel)%nat ->
        chunk_text (lit "A. B. C.") 4 1 fuel = Some chunks)
    /\ remove_overlap 1 chunks = lit "A. B. C.".
Proof.
  apply (chunk_text_covers_untrimmed_cuts (lit "A. B. C.") 4 1).
  - lia.
  - lia.
  - vm_compute. discriminate.
  - vm_compute. discriminate.
  - vm_compute. reflexivity.
Defined.

(** Claim C10 fails on the code: with [size = 5] and [overlap = 4] a snap
    to the full stop at index 3 of ["aaa.aaa"] sets [end = 4] and
    [start = end - overlap = 0] again; the iteration neither advances
    [start] nor reaches the final-remainder branch, and no amount of fuel
    lets [chunk_text] return. *)
Theorem chunk_text_can_stall :
  0 <= 4 < 5
  /\ (forall chunks,
        body (lit "aaa.aaa") 5 4 0 chunks
        = Continue 0 (chunks ++ [lit "aaa."]))
  /\ (forall fuel, chunk_text (lit "aaa.aaa") 5 4 fuel = None).
Proof.
  split; [lia|].
  assert (Hb : forall chunks,
             body (lit "aaa.aaa") 5 4 0 chunks
             = Continue 0 (chunks ++ [lit "aaa."])) by reflexivity.
  split; [exact Hb|].
  assert (Hl : forall fuel chunks,
             loop (lit "aaa.aaa") 5 4 fuel 0 chunks = None).
  { induction fuel as [|fuel IH]; intros chunks.
    - reflexivity.
    - change (loop (lit "aaa.aaa") 5 4 (S fuel) 0 chunks)
        with (match body (lit "aaa.aaa") 5 4 0 chunks with
              | Break chunks' => Some chunks'
              | Continue start' chunks' =>
                  loop (lit "aaa.aaa") 5 4 fuel start' chunks'
              end).
      rewrite Hb. apply IH. }
  intros fuel. unfold chunk_text. simpl is_empty. cbv iota.
  rewrite Hl. reflexivity.
Qed.

(** * The citation auditor *)

(** ** Character classes *)

Ltac by_cases_on_char c :=
  destruct c as [[] [] [] [] [] [] [] []]; vm_compute; intuition congruence.

Lemma digit_not_space c : is_digit c = true -> is_space c = false.
Proof. by_cases_on_char c. Qed.

Lemma digit_not_label_start c :
  is_digit c = true -> char_eqb (lower_char c) "k" = false.
Proof. by_cases_on_char c. Qed.

Lemma space_not_label_start c :
  is_space c = true -> char_eqb (lower_char c) "k" = false.
Proof. by_cases_on_char c. Qed.

Lemma char_eqb_eq a b : char_eqb a b = true <-> a = b.
Proof. apply Ascii.eqb_eq. Qed.

(** ** The pieces of the pattern *)

Lemma lstrip_split s :
  exists ws, s = ws ++ lstrip s /\ Forall (fun c => is_space c = true) ws.
Proof.
  induction s as [|c s (ws & E & Hws)]; simpl.
  - exists []. split; [reflexivity | constructor].
  - destruct (is_space c) eqn:Hc.
    + exists (c :: ws). split; [simpl; congruence | constructor; assumption].
    + exists []. split; [reflexivity | constructor].
Qed.

Lemma lstrip_spaces ws s :
  Forall (fun c => is_space c = true) ws -> lstrip (ws ++ s) = lstrip s.
Proof.
  induction 1 as [|c ws Hc Hws IH]; simpl; [reflexivity|].
  rewrite Hc. exact IH.
Qed.

Lemma span_digits_split s ds r :
  span_digits s = (ds, r) ->
  s = ds ++ r /\ Forall (fun c => is_digit c = true) ds.
Proof.
  revert ds r. induction s as [|c s IH]; simpl; intros ds r H.
  - injection H as <- <-. split; [reflexivity | constructor].
  - destruct (is_digit c) eqn:Hc.
    + destruct (span_digits s) as [ds' r'] eqn:E.
      injection H as <- <-. destruct (IH _ _ eq_refl) as [-> Hd].
      split; [reflexivity | constructor; assumption].
    + injection H as <- <-. split; [reflexivity | constructor].
Qed.

Lemma span_digits_run ds c s :
  Forall (fun c => is_digit c = true) ds -> is_digit c = false ->
  span_digits (ds ++ c :: s) = (ds, c :: s).
Proof.
  intros Hd Hc. induction Hd as [|d ds Hd Hds IH]; simpl.
  - rewrite Hc. reflexivity.
  - rewrite Hd, IH. reflexivity.
Qed.

Lemma match_label_split pat : forall s r,
  match_label pat s = Some r -> exists lab, s = lab ++ r /\ lower lab = pat.
Proof.
  induction pat as [|p pat IH]; simpl; intros s r H.
  - injection H as <-. exists []. split; reflexivity.
  - destruct s as [|c s]; [discriminate|].
    destruct (char_eqb (lower_char c) p) eqn:E; [|discriminate].
    apply char_eqb_eq in E. destruct (IH _ _ H) as (lab & -> & <-).
    exists (c :: lab). split; [reflexivity | simpl; congruence].
Qed.

Lemma match_label_run lab r : match_label (lower lab) (lab ++ r) = Some r.
Proof.
  induction lab as [|c lab IH]; simpl; [reflexivity|].
  unfold char_eqb. rewrite Ascii.eqb_refl. exact IH.
Qed.

Lemma match_tail_split s ds rest :
  match_tail s = Some (ds, rest) ->
  exists ws, s = ws ++ ds ++ "]"%char :: rest
             /\ Forall (fun c => is_space c = true) ws
             /\ Forall (fun c => is_digit c = true) ds /\ ds <> [].
Proof.
  unfold match_tail. intros H.
  destruct (span_digits (lstrip s)) as [ds' r] eqn:E.
  destruct ds' as [|d ds']; [discriminate|].
  destruct r as [|c r]; [discriminate|].
  destruct (char_eqb c "]") eqn:Hc; [|discriminate].
  apply char_eqb_eq in Hc. subst c. injection H as <- <-.
  destruct (span_digits_split _ _ _ E) as [E' Hd].
  destruct (lstrip_split s) as (ws & Es & Hws).
  exists ws. split; [|split; [exact Hws | split; [exact Hd | discriminate]]].
  rewrite Es at 1. rewrite E'. reflexivity.
Qed.

Lemma match_tail_run ws ds rest :
  Forall (fun c => is_space c = true) ws ->
  Forall (fun c => is_digit c = true) ds -> ds <> [] ->
  match_tail (ws ++ ds ++ "]"%char :: rest) = Some (ds, rest).
Proof.
  intros Hws Hds Hne. unfold match_tail.
  rewrite (lstrip_spaces _ _ Hws).
  destruct ds as [|d ds]; [congruence|].
  inversion Hds as [|? ? Hd Hds']; subst.
  simpl app. simpl lstrip. rewrite (digit_not_space _ Hd).
  change (d :: ds ++ "]"%char :: rest) with ((d :: ds) ++ "]"%char :: rest).
  rewrite (span_digits_run (d :: ds) "]" rest Hds eq_refl).
  reflexivity.
Qed.

(** ** One match *)

Lemma match_at_cons c s1 :
  match_at (c :: s1) =
  if char_eqb c "[" then
    match match_label label s1 with
    | Some s2 =>
        match match_tail s2 with
        | Some r => Some r
        | None => match_tail s1
        end
    | None => match_tail s1
    end
  else None.
Proof. reflexivity. Qed.

Lemma match_at_marker s ds rest :
  match_at s = Some (ds, rest) -> exists m, s = m ++ rest /\ Marker m ds.
Proof.
  destruct s as [|c s1]; [discriminate|]. rewrite match_at_cons.
  destruct (char_eqb c "[") eqn:Hc; [|discriminate].
  apply char_eqb_eq in Hc. subst c.
  assert (Hplain : match_tail s1 = Some (ds, rest) ->
                   exists m, "["%char :: s1 = m ++ rest /\ Marker m ds).
  { intros H. destruct (match_tail_split _ _ _ H) as (ws & -> & Hws & Hds & Hne).
    exists ("["%char :: ws ++ ds ++ ["]"%char]). split.
    - simpl. rewrite <- !app_assoc. reflexivity.
    - apply marker_plain; assumption. }
  destruct (match_label label s1) as [s2|] eqn:El; [|exact Hplain].
  destruct (match_tail s2) as [[ds' rest']|] eqn:Et; [|exact Hplain].
  intros H. injection H as -> ->.
  destruct (match_label_split _ _ _ El) as (lab & -> & Hlab).
  destruct (match_tail_split _ _ _ Et) as (ws & -> & Hws & Hds & Hne).
  exists ("["%char :: lab ++ ws ++ ds ++ ["]"%char]). split.
  - simpl. rewrite <- !app_assoc. reflexivity.
  - apply marker_labelled; assumption.
Qed.

Lemma marker_match_at m ds post :
  Marker m ds -> match_at (m ++ post) = Some (ds, post).
Proof.
  intros [ws ds' Hws Hds Hne | lab ws ds' Hlab Hws Hds Hne].
  - rewrite <- app_comm_cons, match_at_cons, <- !app_assoc.
    cbn [char_eqb Ascii.eqb Bool.eqb app].
    assert (El : match_label label (ws ++ ds' ++ "]"%char :: post) = None).
    { destruct ws as [|w ws]; simpl.
      - destruct ds' as [|d ds']; [congruence|]. simpl.
        inversion Hds; subst. rewrite digit_not_label_start by assumption.
        reflexivity.
      - inversion Hws; subst. rewrite space_not_label_start by assumption.
        reflexivity. }
    rewrite El. apply match_tail_run; assumption.
  - rewrite <- app_comm_cons, match_at_cons, <- !app_assoc.
    cbn [char_eqb Ascii.eqb Bool.eqb app].
    rewrite <- Hlab, match_label_run.
    rewrite match_tail_run by assumption. reflexivity.
Qed.

Lemma match_tail_shorter s ds rest :
  match_tail s = Some (ds, rest) -> (List.length rest < List.length s)%nat.
Proof.
  intros H. destruct (match_tail_split _ _ _ H) as (ws & -> & _).
  rewrite !length_app. simpl. lia.
Qed.

Lemma match_at_shorter s ds rest :
  match_at s = Some (ds, rest) -> (List.length rest < List.length s)%nat.
Proof.
  intros H. destruct (match_at_marker _ _ _ H) as (m & -> & Hm).
  rewrite length_app. destruct Hm; simpl; lia.
Qed.

(** ** [re.findall] *)

Lemma findall_fuel fuel1 : forall fuel2 s,
  (List.length s <= fuel1)%nat -> (List.length s <= fuel2)%nat ->
  findall fuel1 s = findall fuel2 s.
Proof.
  induction fuel1 as [|fuel1 IH]; intros fuel2 s H1 H2.
  - destruct s; [|simpl in H1; lia]. destruct fuel2; reflexivity.
  - destruct s as [|c s]; [destruct fuel2; reflexivity|].
    destruct fuel2 as [|fuel2]; [simpl in H2; lia|].
    cbn [findall]. simpl in H1, H2.
    destruct (match_at (c :: s)) as [[ds rest]|] eqn:E.
    + apply match_at_shorter in E. simpl in E.
      f_equal. apply IH; lia.
    + apply IH; lia.
Qed.

Lemma re_findall_nil : re_findall [] = [].
Proof. reflexivity. Qed.

Lemma re_findall_cons c s :
  re_findall (c :: s) =
  match match_at (c :: s) with
  | Some (ds, rest) => ds :: re_findall rest
  | None => re_findall s
  end.
Proof.
  unfold re_findall. cbn [List.length findall].
  destruct (match_at (c :: s)) as [[ds rest]|] eqn:E.
  - apply match_at_shorter in E. simpl in E.
    f_equal. apply findall_fuel; lia.
  - reflexivity.
Qed.

(** ** An opening bracket ends every attempt before it *)

Section Barrier.
Variable y : str.
Let x : str := "["%char :: y.

Lemma lstrip_barrier s : lstrip (s ++ x) = lstrip s ++ x.
Proof.
  induction s as [|c s IH]; simpl; [reflexivity|].
  destruct (is_space c); [exact IH | reflexivity].
Qed.

Lemma span_digits_barrier s :
  span_digits (s ++ x) = (fst (span_digits s), snd (span_digits s) ++ x).
Proof.
  induction s as [|c s IH]; simpl; [reflexivity|].
  destruct (is_digit c); [|reflexivity].
  rewrite IH. destruct (span_digits s). reflexivity.
Qed.

Lemma match_tail_barrier s : match_tail (s ++ x) = extend x (match_tail s).
Proof.
  unfold match_tail. rewrite lstrip_barrier, span_digits_barrier.
  destruct (span_digits (lstrip s)) as [ds r]. simpl fst. simpl snd.
  destruct ds as [|d ds]; [reflexivity|].
  destruct r as [|c r]; simpl; [reflexivity|].
  destruct (char_eqb c "]"); reflexivity.
Qed.

Lemma match_label_barrier pat : forall s,
  Forall (fun p => char_eqb "[" p = false) pat ->
  match_label pat (s ++ x) =
  match match_label pat s with Some r => Some (r ++ x) | None => None end.
Proof.
  induction pat as [|p pat IH]; intros s Hp; [reflexivity|].
  inversion Hp as [|? ? Hp1 Hp2]; subst.
  destruct s as [|c s]; cbn [app match_label]; unfold x.
  - change (lower_char "[") with "["%char. rewrite Hp1. reflexivity.
  - fold x. destruct (char_eqb (lower_char c) p); [apply IH; exact Hp2 | reflexivity].
Qed.

Lemma match_at_barrier c s :
  match_at ((c :: s) ++ x) = extend x (match_at (c :: s)).
Proof.
  rewrite <- app_comm_cons, !match_at_cons.
  destruct (char_eqb c "["); [|reflexivity].
  rewrite match_label_barrier by (repeat constructor).
  rewrite (match_tail_barrier s).
  destruct (match_label label s) as [s2|]; [|reflexivity].
  rewrite (match_tail_barrier s2).
  destruct (match_tail s2) as [[ds rest]|]; reflexivity.
Qed.

Lemma re_findall_barrier_aux n : forall s,
  (List.length s <= n)%nat ->
  re_findall (s ++ x) = re_findall s ++ re_findall x.
Proof.
  induction n as [|n IH]; intros s Hn.
  - destruct s; [reflexivity | simpl in Hn; lia].
  - destruct s as [|c s]; [reflexivity|].
    simpl in Hn. rewrite (re_findall_cons c s).
    change ((c :: s) ++ x) with (c :: (s ++ x)).
    rewrite re_findall_cons.
    change (c :: (s ++ x)) with ((c :: s) ++ x).
    rewrite match_at_barrier.
    destruct (match_at (c :: s)) as [[ds rest]|] eqn:E; simpl extend.
    + apply match_at_shorter in E. simpl in E.
      cbv iota. rewrite (IH rest) by lia. reflexivity.
    + apply IH. lia.
Qed.

Lemma re_findall_barrier s :
  re_findall (s ++ x) = re_findall s ++ re_findall x.
Proof. apply (re_findall_barrier_aux (List.length s)). lia. Qed.
End Barrier.

Lemma marker_starts m ds : Marker m ds -> exists y, m = "["%char :: y.
Proof. intros [ws ds' _ _ _ | lab ws ds' _ _ _ _]; eexists; reflexivity. Qed.

(** A marker anywhere in the text is found, and the text before it and
    after it is searched as if it stood alone. *)
Lemma re_findall_marker pre m post ds :
  Marker m ds ->
  re_findall (pre ++ m ++ post) = re_findall pre ++ ds :: re_findall post.
Proof.
  intros Hm. destruct (marker_starts _ _ Hm) as (y & E).
  pose proof (marker_match_at m ds post Hm) as Hat.
  rewrite E in *. rewrite <- app_comm_cons in *.
  rewrite re_findall_barrier. f_equal.
  rewrite re_findall_cons, Hat. reflexivity.
Qed.

(** Everything found is the number of a marker of the text. *)
Lemma re_findall_sound_aux n : forall s ds,
  (List.length s <= n)%nat -> In ds (re_findall s) ->
  exists pre m post, s = pre ++ m ++ post /\ Marker m ds.
Proof.
  induction n as [|n IH]; intros s ds Hn Hin.
  - destruct s; [destruct Hin | simpl in Hn; lia].
  - destruct s as [|c s]; [destruct Hin|].
    simpl in Hn. rewrite re_findall_cons in Hin.
    destruct (match_at (c :: s)) as [[ds' rest]|] eqn:E.
    + destruct (match_at_marker _ _ _ E) as (m & Es & Hm).
      destruct Hin as [<- | Hin].
      * exists [], m, rest. split; [exact Es | exact Hm].
      * apply match_at_shorter in E. simpl in E.
        destruct (IH rest ds ltac:(lia) Hin) as (pre & m' & post & -> & Hm').
        exists (m ++ pre), m', post. split; [|exact Hm'].
        rewrite Es, <- app_assoc. reflexivity.
    + destruct (IH s ds ltac:(lia) Hin) as (pre & m' & post & -> & Hm').
      exists (c :: pre), m', post. split; [reflexivity | exact Hm'].
Qed.

Lemma re_findall_sound s ds :
  In ds (re_findall s) ->
  exists pre m post, s = pre ++ m ++ post /\ Marker m ds.
Proof. apply (re_findall_sound_aux (List.length s)). lia. Qed.

(** ** De-duplication *)

Lemma mem_in x l : mem x l = true <-> In x l.
Proof. apply existsb_eqb_in. Qed.

Lemma record_matches ms : forall ids seen,
  (forall x, In x seen <-> In x ids) ->
  fst (fold_left record_match ms (ids, seen))
  = fold_left add_new (map int_of_digits ms) ids.
Proof.
  induction ms as [|m ms IH]; intros ids seen Hs; simpl; [reflexivity|].
  unfold add_new. fold (mem (int_of_digits m) ids).
  destruct (mem (int_of_digits m) seen) eqn:E.
  - assert (E' : mem (int_of_digits m) ids = true)
      by (apply mem_in, Hs, mem_in, E).
    rewrite E'. apply IH. exact Hs.
  - assert (E' : mem (int_of_digits m) ids = false).
    { destruct (mem (int_of_digits m) ids) eqn:E'; [|reflexivity].
      apply mem_in, Hs, mem_in in E'. congruence. }
    rewrite E'. apply IH. intros x. simpl. rewrite in_app_iff, Hs. simpl.
    tauto.
Qed.

Lemma extract_citations_first_seen answer :
  extract_citations answer
  = fold_left add_new (map int_of_digits (re_findall answer)) [].
Proof. unfold extract_citations. apply record_matches. tauto. Qed.

Lemma out_of_range_iff c num_sources :
  (c <? 1) || (c >? num_sources) = true <-> c < 1 \/ num_sources < c.
Proof.
  rewrite orb_true_iff, Z.ltb_lt, Z.gtb_ltb, Z.ltb_lt. tauto.
Qed.

Lemma filter_nil_iff {A} (p : A -> bool) l :
  filter p l = [] <-> Forall (fun x => p x = false) l.
Proof.
  induction l as [|x l IH]; simpl.
  - split; [constructor | reflexivity].
  - destruct (p x) eqn:E.
    + split; [discriminate|]. intros H. inversion H; congruence.
    + rewrite IH. split.
      * intros H. constructor; assumption.
      * intros H. inversion H; assumption.
Qed.



(** Claim C2: for every answer and every [num_sources],
    [validate_citations] reports the extracted ids, is valid exactly when
    there is at least one id and every id lies in [1..num_sources], and
    [invalid_ids] holds exactly the ids out of that range. *)
Theorem validate_citations_range :
  forall (answer : str) (num_sources : Z),
    let r := validate_citations answer num_sources in
    let ids := extract_citations answer in
    citation_ids r = ids
    /\ (has_citations r = true <-> ids <> [])
    /\ (is_valid r = true <->
        ids <> [] /\ Forall (fun c => 1 <= c <= num_sources) ids)
    /\ (forall c, In c (invalid_ids r) <->
                  In c ids /\ (c < 1 \/ num_sources < c)).
Proof.
  intros answer num_sources r ids. subst r. unfold validate_citations.
  fold ids. destruct ids as [|c0 ids'] eqn:Eids.
  - simpl. split; [reflexivity|]. split; [split; [discriminate|congruence]|].
    split; [split; [discriminate | intros [H _]; congruence] | tauto].
  - assert (Hinv : forall c,
               In c (filter (fun cid => (cid <? 1) || (cid >? num_sources))
                            (c0 :: ids'))
               <-> In c (c0 :: ids') /\ (c < 1 \/ num_sources < c)).
    { intros c. rewrite filter_In, out_of_range_iff. tauto. }
    destruct (filter (fun cid => (cid <? 1) || (cid >? num_sources))
                (c0 :: ids')) as [|b bad] eqn:Ef.
    + cbn [citation_ids has_citations is_valid invalid_ids].
      split; [reflexivity|]. split; [split; [discriminate | reflexivity]|].
      split; [|exact Hinv].
      split; [|reflexivity]. intros _. split; [discriminate|].
      apply Forall_forall. intros c Hc.
      destruct (Z_lt_ge_dec c 1) as [H1|H1];
        [exfalso; apply (proj2 (Hinv c)); auto |].
      destruct (Z_lt_ge_dec num_sources c) as [H2|H2];
        [exfalso; apply (proj2 (Hinv c)); auto | lia].
    + cbn [citation_ids has_citations is_valid invalid_ids].
      split; [reflexivity|]. split; [split; [discriminate | reflexivity]|].
      split; [|exact Hinv].
      split; [discriminate|]. intros [_ Hall]. exfalso.
      destruct (proj1 (Hinv b) (or_introl eq_refl)) as [Hb Hout].
      rewrite Forall_forall in Hall. specialize (Hall b Hb). lia.
Qed.

Lemma validate_citations_range_witness :
  extract_citations (lit "claim [1] claim [4]") = [1; 4]
  /\ is_valid (validate_citations (lit "claim [1] claim [4]") 3) = false
  /\ In 4 (invalid_ids (validate_citations (lit "claim [1] claim [4]") 3))
  /\ is_valid (validate_citations (lit "claim [1] claim [3]") 3) = true.
Proof.
  split; [reflexivity|]. split; [reflexivity|]. split.
  - pose proof (validate_citations_range (lit "claim [1] claim [4]") 3) as H.
    cbv zeta in H. destruct H as (_ & _ & _ & Hinv). apply Hinv.
    change (extract_citations (lit "claim [1] claim [4]")) with [1; 4].
    split; [right; left; reflexivity | right; lia].
  - pose proof (validate_citations_range (lit "claim [1] claim [3]") 3) as H.
    cbv zeta in H. destruct H as (_ & _ & Hvalid & _). apply Hvalid.
    change (extract_citations (lit "claim [1] claim [3]")) with [1; 3].
    split; [discriminate|].
    constructor; [lia|]. constructor; [lia|]. constructor.
Defined.

(** * Grounding *)

Lemma count_sentence_step source_chunks grounded sentence :
  count_sentence source_chunks grounded sentence
  = grounded + (if counts source_chunks sentence then 1 else 0).
Proof.
  unfold count_sentence, counts, eligible.
  destruct (len (content_words sentence) <? 3); simpl; [lia|].
  destruct (grounded_in (content_words sentence) source_chunks); lia.
Qed.

Lemma fold_count_sentence source_chunks sentences : forall grounded,
  fold_left (count_sentence source_chunks) sentences grounded
  = grounded + len (filter (counts source_chunks) sentences).
Proof.
  induction sentences as [|s l IH]; intros g; simpl.
  - unfold len. simpl. lia.
  - rewrite IH, count_sentence_step.
    destruct (counts source_chunks s); unfold len; simpl List.length; lia.
Qed.

Lemma len_filter_le {A} (p : A -> bool) l : len (filter p l) <= len l.
Proof.
  unfold len. pose proof (filter_length_le p l). lia.
Qed.

Lemma len_filter_and_le {A} (p q : A -> bool) l :
  len (filter (fun x => p x && q x) l) <= len (filter p l).
Proof.
  unfold len. induction l as [|x l IH]; simpl; [lia|].
  destruct (p x), (q x); simpl; lia.
Qed.

Lemma ratio_threshold g t :
  0 < t ->
  Qle_bool (65 # 100) (inject_Z g / inject_Z t) = true
  <-> 13 * t <= 20 * g.
Proof.
  intros Ht. rewrite Qle_bool_iff.
  destruct t as [|p|p]; try lia.
  unfold Qle, Qdiv, Qmult, Qinv, inject_Z. cbn [Qnum Qden]. lia.
Qed.

(** Claim C3 as stated fails: of the two sentences of the scenario one is
    too short to be eligible and the other is grounded; the code divides by
    both and finds 1/2, not well grounded, where the ratio over eligible
    sentences is 1. *)
Lemma grounding_ratio_counts_short_sentences :
  let r := verify_answer_grounding scenario_answer scenario_sources in
  sentences_of scenario_answer
    = [lit "Aspirin reduces fever quickly"; lit "Ok then"]
  /\ filter eligible (sentences_of scenario_answer)
     = [lit "Aspirin reduces fever quickly"]
  /\ grounded_sentences r = 1
  /\ grounding_ratio r = (1 # 2)%Q
  /\ is_well_grounded r = false
  /\ ratio_over_eligible scenario_answer scenario_sources == 1
  /\ ~ grounding_ratio r
       == ratio_over_eligible scenario_answer scenario_sources.
Proof.
  vm_compute. repeat split; try reflexivity; discriminate.
Qed.

(** Claim C3, amended: the denominator of the grounding ratio is the number
    of all non-blank sentences, short ones included; the numerator counts
    the sentences with at least three content words that some source chunk
    grounds; the ratio is 0 when there is no sentence; and
    [is_well_grounded] holds exactly when the ratio is at least 0.65, that
    is when [13 * total <= 20 * grounded] with [total > 0]. *)
Theorem verify_answer_grounding_ratio :
  forall (answer : str) (source_chunks : list str),
    let r := verify_answer_grounding answer source_chunks in
    let sentences := sentences_of answer in
    total_sentences r = len sentences
    /\ grounded_sentences r
       = len (filter (fun s => eligible s
                               && grounded_in (content_words s) source_chunks)
                     sentences)
    /\ grounded_sentences r <= len (filter eligible sentences)
    /\ len (filter eligible sentences) <= total_sentences r
    /\ grounding_ratio r
       == (if 0 <? total_sentences r
           then inject_Z (grounded_sentences r) / inject_Z (total_sentences r)
           else 0)
    /\ (is_well_grounded r = true <-> (65 # 100 <= grounding_ratio r)%Q)
    /\ (is_well_grounded r = true <->
        0 < total_sentences r
        /\ 13 * total_sentences r <= 20 * grounded_sentences r).
Proof.
  intros answer source_chunks r sentences. subst r.
  unfold verify_answer_grounding. fold sentences.
  cbn [total_sentences grounded_sentences grounding_ratio is_well_grounded].
  rewrite fold_count_sentence. rewrite Z.add_0_l.
  split; [reflexivity|]. split; [reflexivity|].
  split; [apply len_filter_and_le|]. split; [apply len_filter_le|].
  split; [reflexivity|]. split; [apply Qle_bool_iff|].
  destruct (Z.ltb_spec 0 (len sentences)) as [Ht|Ht].
  - rewrite (ratio_threshold _ _ Ht). tauto.
  - split; [discriminate | lia].
Qed.

Lemma verify_answer_grounding_ratio_witness :
  is_well_grounded
    (verify_answer_grounding (lit "Aspirin reduces fever quickly.")
                             scenario_sources) = true.
Proof.
  apply (verify_answer_grounding_ratio
           (lit "Aspirin reduces fever quickly.") scenario_sources).
  vm_compute. split; [reflexivity | discriminate].
Defined.

(** * Retrieval *)

(** ** Python slices from the front *)

Lemma slice_to_firstn {A} (s : list A) stop :
  0 <= stop -> slice_to s stop = firstn (Z.to_nat stop) s.
Proof.
  intros H. unfold slice_to, slice, clamp.
  destruct (Z.ltb_spec 0 0); [lia|]. destruct (Z.ltb_spec stop 0); [lia|].
  unfold len. rewrite (Z.min_l 0) by lia. simpl skipn. rewrite Z.sub_0_r.
  destruct (Z.le_gt_cases stop (Z.of_nat (List.length s))) as [Hle|Hgt].
  - rewrite Z.min_l by lia. reflexivity.
  - rewrite Z.min_r by lia. rewrite Nat2Z.id.
    rewrite firstn_all, firstn_all2 by lia. reflexivity.
Qed.

Lemma len_slice_to {A} (s : list A) stop :
  0 <= stop -> len (slice_to s stop) = Z.min stop (len s).
Proof.
  intros H. rewrite slice_to_firstn by exact H.
  unfold len. rewrite length_firstn. lia.
Qed.

Lemma firstn_incl {A} n (l : list A) : incl (firstn n l) l.
Proof.
  intros x Hx. rewrite <- (firstn_skipn n l). apply in_or_app. auto.
Qed.

Lemma firstn_nodup {A} n (l : list A) : NoDup l -> NoDup (firstn n l).
Proof.
  intros H. rewrite <- (firstn_skipn n l) in H.
  apply NoDup_app_remove_r in H. exact H.
Qed.

(** Claim C5 as stated fails: with chunks and embeddings present and no
    BM25 index, [hybrid_search] returns the empty list. *)
Lemma hybrid_search_empty_without_bm25 :
  hybrid_search rag_without_bm25 (lit "aspirin") 5 = Ok []
  /\ ~ missing_signal_claim.
Proof.
  split; [reflexivity|].
  intros H. apply (H rag_without_bm25 (lit "aspirin") 5).
  - discriminate.
  - lia.
  - left. split; [discriminate | reflexivity].
  - reflexivity.
Qed.

(** Claim C5, amended: when the chunk sequence is empty or either sub-index
    is unavailable, [hybrid_search] returns the empty result. *)
Theorem hybrid_search_needs_both_indexes :
  forall (C : Collaborators) (self : rag) (query : str) (top_k : Z),
    chunks self = [] \/ embeddings self = None \/ bm25 self = None ->
    hybrid_search self query top_k = Ok [].
Proof.
  intros C self query top_k H. unfold hybrid_search.
  destruct (chunks self) as [|c cs]; [reflexivity|].
  destruct (embeddings self) as [E|]; [|reflexivity].
  destruct (bm25 self) as [B|]; [|reflexivity].
  destruct H as [H | [H | H]]; discriminate.
Qed.

Lemma hybrid_search_needs_both_indexes_witness :
  hybrid_search rag_without_bm25 (lit "aspirin") 5 = Ok [].
Proof.
  apply (hybrid_search_needs_both_indexes
           simple_collaborators rag_without_bm25 (lit "aspirin") 5).
  right. right. reflexivity.
Defined.

(** ** Zero norms *)

Section ZeroNorm.
Context {C : Collaborators}.

Lemma cosine_similarity_zero_norm a b :
  List.length a = List.length b -> norm a == 0 \/ norm b == 0 ->
  cosine_similarity a b = Ok (Num 0).
Proof.
  intros Hl Hz. unfold cosine_similarity.
  rewrite Hl, Nat.eqb_refl. simpl negb. cbv iota.
  assert (E : Qeq_bool (norm a) 0 || Qeq_bool (norm b) 0 = true).
  { apply orb_true_iff. destruct Hz as [Hz|Hz]; [left|right];
      apply Qeq_bool_iff; exact Hz. }
  rewrite E. reflexivity.
Qed.

Lemma norm_zero_vector : norm [0; 0]%Q == 0.
Proof. unfold norm. apply sqrt_0. reflexivity. Qed.

Lemma np_div_zero_zero a b : a == 0 -> b == 0 -> np_div a b = NaN.
Proof.
  intros Ha Hb. unfold np_div.
  apply Qeq_bool_iff in Ha, Hb. rewrite Ha, Hb. reflexivity.
Qed.
End ZeroNorm.

(** Claim C6 fails on the code: [cosine_similarity] guards the zero norm and
    returns 0.0, but the batch computation of [hybrid_search] divides
    without a guard, and a zero row of the embedding matrix gives
    not-a-number. *)
Theorem batch_similarity_zero_norm_is_nan :
  forall (C : Collaborators),
    cosine_similarity [0; 0]%Q [1; 0]%Q = Ok (Num 0)
    /\ similarities [[0; 0]%Q] [1; 0]%Q = Ok [NaN].
Proof.
  intros C. split.
  - apply cosine_similarity_zero_norm; [reflexivity|].
    left. apply norm_zero_vector.
  - unfold similarities. cbn [mat_vec bind List.length Nat.eqb negb].
    cbn [combine map fst snd]. f_equal. f_equal.
    apply np_div_zero_zero; [reflexivity|].
    rewrite norm_zero_vector. ring.
Qed.

(** ** The keys of a fusion *)

Lemma rrf_fusion_default {Score} (a b : list (Z * Score)) :
  exists fused,
    Fusion.rrf_fusion a b Fusion.default_k = Some fused
    /\ NoDup (map fst fused)
    /\ forall id, In id (map fst fused) <-> In id (map fst a) \/ In id (map fst b).
Proof.
  unfold Fusion.rrf_fusion.
  destruct (accumulate_total a Fusion.default_k 0 [] ltac:(discriminate)
              (Z.le_refl 0)) as [d1 H1].
  destruct (accumulate_total b Fusion.default_k 0 d1 ltac:(discriminate)
              (Z.le_refl 0)) as [d2 H2].
  rewrite H1, H2. eexists. split; [reflexivity|].
  pose proof (rrf_fusion_keys a b _ d1 d2 H1 H2) as K.
  pose proof (Permutation_map fst (sorted_desc_perm d2)) as P.
  split.
  - eapply Permutation_NoDup; [apply Permutation_sym, P|].
    rewrite K. apply nodup_fold_add_new. constructor.
  - intros id. split.
    + intros Hin. apply (Permutation_in _ P) in Hin.
      rewrite K, in_fold_add_new, in_app_iff in Hin. simpl in Hin. tauto.
    + intros Hin. apply (Permutation_in _ (Permutation_sym P)).
      rewrite K, in_fold_add_new, in_app_iff. tauto.
Qed.

Section Candidates.
Context {C : Collaborators}.

Lemma top_indices_nodup scores top_k :
  0 <= top_k -> NoDup (top_indices scores top_k).
Proof.
  intros H. unfold top_indices. rewrite slice_to_firstn by lia.
  apply firstn_nodup.
  eapply Permutation_NoDup;
    [apply Permutation_sym;
     eapply Permutation_trans;
     [apply Permutation_sym, Permutation_rev | apply argsort_perm]|].
  apply seq_NoDup.
Qed.

Lemma top_indices_range scores top_k i :
  0 <= top_k -> In i (top_indices scores top_k) ->
  (i < List.length scores)%nat.
Proof.
  intros H Hin. unfold top_indices in Hin.
  rewrite slice_to_firstn in Hin by lia. apply firstn_incl in Hin.
  apply in_rev in Hin. apply (Permutation_in _ (argsort_perm scores)) in Hin.
  apply in_seq in Hin. lia.
Qed.

Lemma top_indices_length scores top_k :
  0 <= top_k ->
  len (top_indices scores top_k) = Z.min (top_k * 2) (len scores).
Proof.
  intros H. unfold top_indices. rewrite len_slice_to by lia.
  unfold len. rewrite length_rev.
  rewrite (Permutation_length (argsort_perm scores)), length_seq.
  reflexivity.
Qed.

Lemma top_indices_all scores top_k i :
  len scores <= top_k * 2 -> (i < List.length scores)%nat ->
  In i (top_indices scores top_k).
Proof.
  intros H Hi. unfold top_indices.
  rewrite slice_to_firstn by (unfold len in H; lia).
  rewrite firstn_all2.
  - apply in_rev. rewrite rev_involutive.
    apply (Permutation_in _ (Permutation_sym (argsort_perm scores))).
    apply in_seq. lia.
  - rewrite length_rev, (Permutation_length (argsort_perm scores)),
      length_seq. unfold len in H. lia.
Qed.

Lemma keys_with_scores scores idxs :
  map fst (with_scores scores idxs) = map Z.of_nat idxs.
Proof. unfold with_scores. rewrite map_map. reflexivity. Qed.

Lemma mat_vec_length E v :
  Forall (fun row => List.length row = List.length v) E ->
  exists ds, mat_vec E v = Ok ds /\ List.length ds = List.length E.
Proof.
  induction 1 as [|row E Hrow HE (ds & Hds & Hlen)]; simpl.
  - exists []. split; reflexivity.
  - rewrite Hrow, Nat.eqb_refl, Hds. simpl.
    eexists. split; [reflexivity|]. simpl. congruence.
Qed.

Lemma similarities_length E v :
  Forall (fun row => List.length row = List.length v) E ->
  exists sims, similarities E v = Ok sims
               /\ List.length sims = List.length E.
Proof.
  intros H. destruct (mat_vec_length E v H) as (ds & Hds & Hlen).
  unfold similarities. rewrite Hds. simpl.
  eexists. split; [reflexivity|].
  rewrite length_map, length_combine. lia.
Qed.

(** Looking the fused ids up in the chunks. *)
Lemma resolve_in_range chunks fused :
  Forall (fun p => 0 <= fst p < len chunks) fused ->
  exists results,
    resolve chunks fused = Ok results
    /\ map fst results = map fst fused
    /\ Forall (fun r => index chunks (fst r) = Some (snd r)) results.
Proof.
  induction 1 as [|[idx s] fused Hidx Hall (rs & Hrs & Hfst & Hok)]; simpl.
  - exists []. repeat split; constructor.
  - simpl in Hidx.
    destruct (index chunks idx) as [c|] eqn:E.
    + rewrite Hrs. simpl. exists ((idx, c) :: rs).
      split; [reflexivity|]. split; [simpl; congruence|].
      constructor; [exact E | exact Hok].
    + exfalso. unfold index in E.
      destruct (Z.ltb_spec idx 0); [lia|].
      destruct (Z.ltb_spec idx 0); [lia|].
      apply nth_error_None in E. unfold len in Hidx. lia.
Qed.
End Candidates.

Lemma nodup_map_of_nat l : NoDup l -> NoDup (map Z.of_nat l).
Proof. apply Injective_map_NoDup. intros x y. apply Nat2Z.inj. Qed.

(** Claim C7: with both sub-indexes present and aligned with the chunks and
    [0 <= top_k], [hybrid_search] returns [min(top_k, number of chunks)]
    pairs, hence at most [top_k]; each pair is a chunk position with the
    chunk at that position, no position twice; and when there are no more
    chunks than [top_k] every chunk position is returned once. *)
Theorem hybrid_search_returns_top_k :
  forall (C : Collaborators) (self : rag) (query : str) (top_k : Z)
         (E : list (list Q)) (B : bm25_index),
    embeddings self = Some E -> bm25 self = Some B ->
    List.length E = List.length (chunks self) ->
    Forall (fun row =>
              List.length row = List.length (encode (lit "query: " ++ query)))
           E ->
    List.length (get_scores B (Grounding.split (lower query)))
    = List.length (chunks self) ->
    0 <= top_k ->
    exists results,
      hybrid_search self query top_k = Ok results
      /\ len results = Z.min top_k (len (chunks self))
      /\ len results <= top_k
      /\ NoDup (map fst results)
      /\ Forall (fun r => index (chunks self) (fst r) = Some (snd r)) results
      /\ (len (chunks self) <= top_k ->
          len results = len (chunks self)
          /\ forall i, 0 <= i < len (chunks self) -> In i (map fst results)).
Proof.
  intros C self query top_k E B HE HB HlenE Hrows Hbm Hk.
  unfold hybrid_search. rewrite HE, HB.
  destruct (chunks self) as [|c cs] eqn:Hchunks.
  { exists []. split; [reflexivity|]. unfold len. simpl.
    split; [lia|]. split; [lia|]. split; [constructor|].
    split; [constructor|]. intros _. split; [reflexivity | lia]. }
  rewrite <- Hchunks in *. clear c cs Hchunks.
  set (bm := get_scores B (Grounding.split (lower query))) in *.
  destruct (similarities_length E _ Hrows) as (sims & Hsims & Hlsims).
  rewrite Hsims. cbn [bind].
  set (a := with_scores bm (top_indices bm top_k)).
  set (b := with_scores sims (top_indices sims top_k)).
  destruct (rrf_fusion_default a b) as (fused & Hf & Hnd & Hkeys).
  rewrite Hf.
  set (n := List.length (chunks self)) in *.
  (* every fused id is the position of a chunk *)
  assert (Hrange : forall id, In id (map fst fused) -> 0 <= id < Z.of_nat n).
  { intros id Hin. apply Hkeys in Hin. unfold a, b in Hin.
    rewrite !keys_with_scores, !in_map_iff in Hin.
    destruct Hin as [(i & <- & Hi) | (i & <- & Hi)];
      apply top_indices_range in Hi; lia. }
  (* the fusion holds every lexical candidate, and no id twice *)
  assert (Hlow : Z.min (top_k * 2) (Z.of_nat n)
                 <= Z.of_nat (List.length fused)).
  { pose proof (top_indices_length bm top_k Hk) as L. unfold len in L.
    rewrite Hbm in L.
    assert (H : (List.length (map Z.of_nat (top_indices bm top_k))
                 <= List.length (map fst fused))%nat).
    { apply NoDup_incl_length.
      - apply nodup_map_of_nat, top_indices_nodup, Hk.
      - intros id Hin. apply Hkeys. left. unfold a.
        rewrite keys_with_scores. exact Hin. }
    rewrite !length_map in H. lia. }
  assert (Hup : (List.length fused <= n)%nat).
  { assert (H : (List.length (map fst fused)
                 <= List.length (map Z.of_nat (seq 0 n)))%nat).
    { apply NoDup_incl_length; [exact Hnd|].
      intros id Hin. apply Hrange in Hin. apply in_map_iff.
      exists (Z.to_nat id). split; [lia | apply in_seq; lia]. }
    rewrite !length_map, length_seq in H. exact H. }
  rewrite slice_to_firstn by exact Hk.
  destruct (resolve_in_range (chunks self)
              (firstn (Z.to_nat top_k) fused))
    as (results & Hres & Hfst & Hok).
  { apply Forall_forall. intros p Hp. apply firstn_incl in Hp.
    apply Hrange. apply in_map. exact Hp. }
  exists results. split; [exact Hres|].
  assert (Hlen : len results
                 = Z.min top_k (Z.of_nat (List.length fused))).
  { unfold len. rewrite <- (length_map fst results), Hfst, length_map,
      length_firstn. lia. }
  unfold len in *. fold n.
  split; [lia|]. split; [lia|]. split.
  { rewrite Hfst, <- firstn_map. apply firstn_nodup. exact Hnd. }
  split; [exact Hok|].
  intros Hn. split; [lia|].
  intros i Hi. rewrite Hfst, firstn_all2 by lia.
  apply Hkeys. left. unfold a. rewrite keys_with_scores.
  apply in_map_iff. exists (Z.to_nat i). split; [lia|].
  apply top_indices_all; unfold len; rewrite Hbm; fold n; lia.
Qed.

Lemma hybrid_search_returns_top_k_witness :
  exists results,
    hybrid_search rag_of_three (lit "fever") 5 = Ok results
    /\ len results = Z.min 5 3
    /\ len results <= 5
    /\ NoDup (map fst results)
    /\ Forall (fun r => index (chunks rag_of_three) (fst r) = Some (snd r))
              results
    /\ (3 <= 5 ->
        len results = 3
        /\ forall i, 0 <= i < 3 -> In i (map fst results)).
Proof.
  apply (hybrid_search_returns_top_k simple_collaborators rag_of_three
           (lit "fever") 5 _ _ eq_refl eq_refl).
  - reflexivity.
  - repeat constructor.
  - reflexivity.
  - lia.
Defined.

(** * Further properties of the code *)

Import Shapes Ingest Prompt Sources Pipeline.

(** * More on reciprocal rank fusion *)

Section FusionMore.
Context {Score : Type}.
Implicit Types (l a b : list (Z * Score)).

(** Whether a loop raises depends on [k] and on the length of its list
    only: it raises when one of its ranks [r] makes [k + r + 1] zero. *)
Lemma accumulate_none l : forall k rank d,
  accumulate k rank l d = None <->
  exists i, 0 <= i < len l /\ k + rank + i + 1 = 0.
Proof.
  induction l as [|[idx s] l IH]; intros k rank d; simpl.
  - split; [discriminate|]. intros (i & Hi & _). unfold len in Hi.
    simpl in Hi. lia.
  - unfold recip. destruct (Z.eqb_spec (k + rank + 1) 0) as [E|E].
    + split; [|reflexivity]. intros _. exists 0. unfold len. simpl.
      split; lia.
    + rewrite IH. unfold len. simpl List.length. split.
      * intros (i & Hi & Hz). exists (i + 1). split; lia.
      * intros (i & Hi & Hz). exists (i - 1). split; lia.
Qed.

Lemma rrf_fusion_score a b k out id s :
  rrf_fusion a b k = Some out -> In (id, s) out ->
  s == rank_sum k 0 a id + rank_sum k 0 b id.
Proof.
  intros H Hin.
  destruct (rrf_fusion_inv _ _ _ _ H) as (d1 & d2 & H1 & H2 & ->).
  apply (Permutation_in _ (sorted_desc_perm d2)) in Hin.
  assert (ND : NoDup (map fst d2)).
  { rewrite (rrf_fusion_keys a b k d1 d2 H1 H2).
    apply nodup_fold_add_new. constructor. }
  rewrite <- (dict_get_in d2 id s 0 ND Hin).
  rewrite (accumulate_value _ _ _ _ _ id H2).
  rewrite (accumulate_value _ _ _ _ _ id H1). simpl. ring.
Qed.

Lemma rrf_fusion_ids a b k out id :
  rrf_fusion a b k = Some out ->
  In id (map fst out) <-> In id (map fst a) \/ In id (map fst b).
Proof.
  intros H.
  destruct (rrf_fusion_inv _ _ _ _ H) as (d1 & d2 & H1 & H2 & ->).
  pose proof (Permutation_map fst (sorted_desc_perm d2)) as P.
  assert (Hk : In id (map fst d2) <->
               In id (map fst a) \/ In id (map fst b)).
  { rewrite (rrf_fusion_keys a b k d1 d2 H1 H2), in_fold_add_new,
      in_app_iff. simpl. tauto. }
  rewrite <- Hk. split.
  - apply Permutation_in, P.
  - apply Permutation_in, Permutation_sym, P.
Qed.

Lemma rrf_fusion_none a b k :
  rrf_fusion a b k = None <->
  (0 <= - k - 1 < len a) \/ (0 <= - k - 1 < len b).
Proof.
  unfold rrf_fusion.
  destruct (accumulate k 0 a []) as [d1|] eqn:E1.
  - assert (Ha : ~ (0 <= - k - 1 < len a)).
    { intros Hr.
      assert (N : accumulate k 0 a [] = None)
        by (apply accumulate_none; exists (- k - 1); lia).
      congruence. }
    destruct (accumulate k 0 b d1) as [d2|] eqn:E2.
    + split; [discriminate|]. intros [Hr|Hr]; [tauto|]. exfalso.
      assert (N : accumulate k 0 b d1 = None)
        by (apply accumulate_none; exists (- k - 1); lia).
      congruence.
    + split; [|reflexivity]. intros _. right.
      apply accumulate_none in E2. destruct E2 as (i & Hi & Hz). lia.
  - split; [|reflexivity]. intros _. left.
    apply accumulate_none in E1. destruct E1 as (i & Hi & Hz). lia.
Qed.
End FusionMore.

(** X1: [rrf_fusion] raises (a division by zero) exactly when [k + rank + 1] is 0
    for a rank of one of the two lists, that is when [-k - 1] is a position
    of the BM25 list or of the semantic list; for every other [k], negative
    ones included, it returns. *)
Theorem rrf_fusion_raises_on_zero_denominator :
  forall (Score : Type) (a b : list (Z * Score)) (k : Z),
    rrf_fusion a b k = None <->
    (0 <= - k - 1 < len a) \/ (0 <= - k - 1 < len b).
Proof. intros Score a b k. apply rrf_fusion_none. Qed.

(** X2: When neither list holds an id twice, exchanging the two ranked lists
    does not change what [rrf_fusion] computes up to order: when it returns
    on [(a, b)] it returns on [(b, a)], with the same ids, the same number
    of entries and the same fused score for every id. *)
Theorem rrf_fusion_swap :
  forall (Score : Type) (a b : list (Z * Score)) (k : Z) out,
    NoDup (map fst a) -> NoDup (map fst b) ->
    rrf_fusion a b k = Some out ->
    exists out',
      rrf_fusion b a k = Some out'
      /\ (forall id, In id (map fst out) <-> In id (map fst out'))
      /\ (forall id s s', In (id, s) out -> In (id, s') out' -> s == s')
      /\ List.length out = List.length out'.
Proof.
  intros Score a b k out _ _ H.
  destruct (rrf_fusion b a k) as [out'|] eqn:H'.
  - exists out'. split; [reflexivity|]. split; [|split].
    + intros id. rewrite (rrf_fusion_ids a b k out id H),
        (rrf_fusion_ids b a k out' id H'). tauto.
    + intros id s s' Hs Hs'.
      rewrite (rrf_fusion_score a b k out id s H Hs),
        (rrf_fusion_score b a k out' id s' H' Hs'). ring.
    + rewrite <- (length_map fst out), <- (length_map fst out').
      apply Nat.le_antisymm; apply NoDup_incl_length.
      * destruct (rrf_fusion_inv _ _ _ _ H) as (d1 & d2 & H1 & H2 & ->).
        eapply Permutation_NoDup;
          [apply Permutation_sym, Permutation_map, sorted_desc_perm|].
        rewrite (rrf_fusion_keys a b k d1 d2 H1 H2).
        apply nodup_fold_add_new. constructor.
      * intros id. rewrite (rrf_fusion_ids a b k out id H),
          (rrf_fusion_ids b a k out' id H'). tauto.
      * destruct (rrf_fusion_inv _ _ _ _ H') as (d1 & d2 & H1 & H2 & ->).
        eapply Permutation_NoDup;
          [apply Permutation_sym, Permutation_map, sorted_desc_perm|].
        rewrite (rrf_fusion_keys b a k d1 d2 H1 H2).
        apply nodup_fold_add_new. constructor.
      * intros id. rewrite (rrf_fusion_ids a b k out id H),
          (rrf_fusion_ids b a k out' id H'). tauto.
  - exfalso. apply rrf_fusion_none in H'.
    assert (N : rrf_fusion a b k = None) by (apply rrf_fusion_none; tauto).
    congruence.
Qed.

Lemma rrf_fusion_swap_witness :
  exists out',
    rrf_fusion scenario_b scenario_a 60 = Some out'
    /\ (forall id, In id (map fst [(5, (123 # 3782)%Q); (2, (123 # 3782)%Q)])
                   <-> In id (map fst out'))
    /\ (forall id s s',
           In (id, s) [(5, (123 # 3782)%Q); (2, (123 # 3782)%Q)] ->
           In (id, s') out' -> s == s')
    /\ List.length [(5, (123 # 3782)%Q); (2, (123 # 3782)%Q)]
       = List.length out'.
Proof.
  apply (rrf_fusion_swap Q scenario_a scenario_b 60).
  - repeat constructor; simpl; intuition discriminate.
  - repeat constructor; simpl; intuition discriminate.
  - reflexivity.
Defined.

(** ** The id that heads both lists *)

Lemma recip_pos n : 0 < n -> (0 < / inject_Z n)%Q.
Proof.
  intros H. destruct n as [|p|p]; try lia. reflexivity.
Qed.

Lemma recip_antitone m n : 0 < m -> m <= n -> (/ inject_Z n <= / inject_Z m)%Q.
Proof.
  intros Hm Hmn. destruct m as [|p|p]; try lia. destruct n as [|q|q]; try lia.
  unfold Qle, Qinv, inject_Z. cbn [Qnum Qden]. lia.
Qed.

Lemma recip_strict m n : 0 < m -> m < n -> (/ inject_Z n < / inject_Z m)%Q.
Proof.
  intros Hm Hmn. destruct m as [|p|p]; try lia. destruct n as [|q|q]; try lia.
  unfold Qlt, Qinv, inject_Z. cbn [Qnum Qden]. lia.
Qed.

Section HeadOfBoth.
Context {Score : Type}.
Implicit Types (l a b : list (Z * Score)).

(** An id that stands at most once in a list gets from it at most what
    the first rank gives. *)
Lemma rank_sum_bounds l : forall k rank id,
  0 <= k -> 0 <= rank -> NoDup (map fst l) ->
  (0 <= rank_sum k rank l id <= / inject_Z (k + rank + 1))%Q.
Proof.
  induction l as [|[idx s] l IH]; intros k rank id Hk Hr ND; simpl.
  - split; [apply Qle_refl | apply Qlt_le_weak, recip_pos; lia].
  - inversion ND as [|? ? Hnin ND']; subst.
    destruct (Z.eqb_spec idx id) as [->|Hne].
    + rewrite rank_sum_absent by exact Hnin. rewrite Qplus_0_r.
      split; [apply Qlt_le_weak, recip_pos; lia | apply Qle_refl].
    + rewrite Qplus_0_l. destruct (IH k (rank + 1) id Hk ltac:(lia) ND')
        as [H0 H1].
      split; [exact H0|]. eapply Qle_trans; [exact H1|].
      apply recip_antitone; lia.
Qed.
End HeadOfBoth.

(** X3: When both lists hold no id twice and start with the same id, and
    [0 <= k], that id is the first entry of the output of [rrf_fusion],
    with the score [2 / (k + 1)]. *)
Theorem rrf_fusion_common_head_first :
  forall (Score : Type) (i : Z) (sa sb : Score) (a b : list (Z * Score))
         (k : Z),
    0 <= k ->
    NoDup (map fst ((i, sa) :: a)) -> NoDup (map fst ((i, sb) :: b)) ->
    exists s rest,
      rrf_fusion ((i, sa) :: a) ((i, sb) :: b) k = Some ((i, s) :: rest)
      /\ s == / inject_Z (k + 1) + / inject_Z (k + 1).
Proof.
  intros Score i sa sb a b k Hk NDa NDb.
  destruct (rrf_fusion ((i, sa) :: a) ((i, sb) :: b) k) as [out|] eqn:H.
  2:{ apply rrf_fusion_none in H. lia. }
  assert (Hscore : forall id s, In (id, s) out ->
            s == rank_sum k 0 ((i, sa) :: a) id
                 + rank_sum k 0 ((i, sb) :: b) id)
    by (intros id s; apply rrf_fusion_score; exact H).
  assert (Hi : forall s, In (i, s) out ->
                         s == / inject_Z (k + 1) + / inject_Z (k + 1)).
  { intros s Hs. rewrite (Hscore i s Hs). simpl. rewrite Z.eqb_refl.
    inversion NDa; inversion NDb; subst.
    rewrite !rank_sum_absent by assumption.
    replace (k + 0 + 1) with (k + 1) by lia. ring. }
  assert (Hother : forall j s, j <> i -> In (j, s) out ->
                     (s < / inject_Z (k + 1) + / inject_Z (k + 1))%Q).
  { intros j s Hj Hs. rewrite (Hscore j s Hs). simpl.
    destruct (Z.eqb_spec i j) as [->|_]; [congruence|].
    inversion NDa; inversion NDb; subst.
    destruct (rank_sum_bounds a k (0 + 1) j Hk ltac:(lia) ltac:(assumption))
      as [_ Ha].
    destruct (rank_sum_bounds b k (0 + 1) j Hk ltac:(lia) ltac:(assumption))
      as [_ Hb].
    rewrite !Qplus_0_l.
    eapply Qle_lt_trans; [apply Qplus_le_compat; [exact Ha | exact Hb]|].
    assert (L : (/ inject_Z (k + (0 + 1) + 1) < / inject_Z (k + 1))%Q)
      by (apply recip_strict; lia).
    apply Qplus_lt_le_compat; [exact L | apply Qlt_le_weak, L]. }
  assert (Hin : In i (map fst out)).
  { apply (rrf_fusion_ids _ _ _ _ i H). left. left. reflexivity. }
  apply in_map_iff in Hin. destruct Hin as ([i' si] & Ei & Hsi).
  simpl in Ei. subst i'.
  destruct (rrf_fusion_inv _ _ _ _ H) as (d1 & d2 & _ & _ & Eout).
  pose proof (sorted_desc_descending d2) as Hdesc. rewrite <- Eout in Hdesc.
  destruct out as [|[j sj] rest]; [destruct Hsi|].
  destruct (Z.eq_dec j i) as [->|Hne].
  - exists sj, rest. split; [reflexivity|]. apply Hi. left. reflexivity.
  - exfalso. destruct Hsi as [E|Hsi]; [congruence|].
    assert (Hle : (si <= sj)%Q).
    { apply (Hdesc (j, sj) (i, si)). apply ordered_pair_cons. left.
      split; [reflexivity | exact Hsi]. }
    pose proof (Hother j sj Hne (or_introl eq_refl)) as Hlt.
    rewrite <- (Hi si (or_intror Hsi)) in Hlt.
    exact (Qlt_not_le _ _ Hlt Hle).
Qed.

Lemma rrf_fusion_common_head_first_witness :
  exists s rest,
    rrf_fusion [(7, tt); (2, tt); (5, tt)] [(7, tt); (5, tt); (9, tt)] 60
    = Some ((7, s) :: rest)
    /\ s == / inject_Z (60 + 1) + / inject_Z (60 + 1).
Proof.
  apply (rrf_fusion_common_head_first unit 7 tt tt
           [(2, tt); (5, tt)] [(5, tt); (9, tt)] 60).
  - lia.
  - repeat constructor; simpl; intuition discriminate.
  - repeat constructor; simpl; intuition discriminate.
Defined.

(** * More on the chunker *)

(** ** Lengths of slices *)

Lemma len_slice_le_span {A} (s : list A) a b :
  a <= b -> len (slice s a b) <= b - a.
Proof.
  intros H. unfold slice, clamp, len.
  rewrite length_firstn, length_skipn.
  destruct (Z.ltb_spec a 0), (Z.ltb_spec b 0); lia.
Qed.

Lemma len_slice_le {A} (s : list A) a b : len (slice s a b) <= len s.
Proof.
  unfold slice, len. rewrite length_firstn, length_skipn. lia.
Qed.

Lemma len_slice_from_le {A} (s : list A) a :
  len (slice_from s a) <= Z.max 0 (len s - a).
Proof.
  unfold slice_from, slice, clamp, len.
  rewrite length_firstn, length_skipn.
  destruct (Z.ltb_spec a 0), (Z.ltb_spec (Z.of_nat (List.length s)) 0); lia.
Qed.

(** ** Stripped texts *)

Lemma lstrip_headed s : headed (lstrip s).
Proof.
  induction s as [|c s IH]; simpl; [exact I|].
  destruct (is_space c) eqn:E; [exact IH | exact E].
Qed.

Lemma headed_lstrip s : headed s -> lstrip s = s.
Proof. destruct s as [|c s]; simpl; [reflexivity|]. intros ->. reflexivity. Qed.

Lemma headed_prefix (a b : str) : a <> [] -> headed (a ++ b) -> headed a.
Proof. destruct a; [congruence | intros _ H; exact H]. Qed.

Lemma len_lstrip_le s : len (lstrip s) <= len s.
Proof.
  unfold len. induction s as [|c s IH]; simpl; [lia|].
  destruct (is_space c); simpl; lia.
Qed.

Lemma len_strip_le s : len (strip s) <= len s.
Proof.
  unfold strip, rstrip. pose proof (len_lstrip_le (rev (lstrip (rev s)))).
  pose proof (len_lstrip_le (rev s)). unfold len in *.
  rewrite !length_rev in *. lia.
Qed.

Lemma strip_idempotent s : strip (strip s) = strip s.
Proof.
  unfold strip at 1. set (t := strip s).
  assert (Ht : headed t) by apply lstrip_headed.
  assert (Hr : rstrip t = t).
  { unfold rstrip. rewrite headed_lstrip; [apply rev_involutive|].
    destruct (lstrip_split (rstrip s)) as (w & E & _). fold (strip s) in E.
    fold t in E.
    destruct t as [|c t'] eqn:Et; [exact I|]. rewrite <- Et in *.
    apply (headed_prefix (rev t) (rev w)).
    - intros N. apply (f_equal (@rev _)) in N. rewrite rev_involutive in N.
      simpl in N. congruence.
    - rewrite <- rev_app_distr, <- E. unfold rstrip.
      rewrite rev_involutive. apply lstrip_headed. }
  rewrite Hr. apply headed_lstrip, Ht.
Qed.

(** ** The shape of the chunks *)

Section Shape.
Variables (text : str) (size overlap : Z).
Hypothesis size_nonneg : 0 <= size.

Lemma window_well_cut s : well_cut size (strip (fst (window text size s))).
Proof.
  split; [apply strip_idempotent|].
  eapply Z.le_trans; [apply len_strip_le|].
  assert (L : len (slice text s (s + size)) <= size).
  { pose proof (len_slice_le_span text s (s + size)). lia. }
  unfold window.
  destruct (s + size <? text_length text); [|exact L].
  match goal with |- context [if ?c then _ else _] => destruct c end;
    [|exact L].
  simpl fst. unfold slice_to.
  eapply Z.le_trans; [apply len_slice_le | exact L].
Qed.

Lemma body_well_cut s cs :
  Forall (well_cut size) cs ->
  match body text size overlap s cs with
  | Break cs' | Continue _ cs' => Forall (well_cut size) cs'
  end.
Proof.
  intros H. unfold body.
  pose proof (window_well_cut s) as Hw.
  destruct (window text size s) as [chunk e]. simpl fst in Hw.
  assert (H1 : Forall (well_cut size) (cs ++ [strip chunk]))
    by (apply Forall_app; split; [exact H | constructor; [exact Hw|constructor]]).
  destruct ((e - overlap + size >=? text_length text)
            && (e - overlap <? text_length text)) eqn:Hbr; [|exact H1].
  apply Forall_app. split; [exact H1|]. constructor; [|constructor].
  split; [apply strip_idempotent|].
  eapply Z.le_trans; [apply len_strip_le|].
  apply andb_true_iff in Hbr. destruct Hbr as [Hge _].
  unfold text_length in Hge.
  pose proof (len_slice_from_le text (e - overlap)).
  destruct (Z.geb_spec (e - overlap + size) (len text)); [lia|discriminate].
Qed.

Lemma loop_well_cut fuel : forall s cs r,
  Forall (well_cut size) cs ->
  loop text size overlap fuel s cs = Some r -> Forall (well_cut size) r.
Proof.
  induction fuel as [|fuel IH]; intros s cs r H Hl; simpl in Hl.
  - destruct (s <? text_length text); [discriminate|].
    injection Hl as <-. exact H.
  - destruct (s <? text_length text).
    + pose proof (body_well_cut s cs H) as Hb.
      destruct (body text size overlap s cs) as [s' cs'|cs'].
      * exact (IH _ _ _ Hb Hl).
      * injection Hl as <-. exact Hb.
    + injection Hl as <-. exact H.
Qed.
End Shape.

(** X4: Whenever [chunk_text] returns, with [0 <= size], every chunk is
    non-empty, has no space at either end ([strip] leaves it unchanged) and
    has at most [size] characters. *)
Theorem chunk_text_chunks_trimmed_and_bounded :
  forall (text : str) (size overlap : Z) (fuel : nat) (chunks : list str),
    0 <= size ->
    chunk_text text size overlap fuel = Some chunks ->
    Forall (fun c => c <> [] /\ strip c = c /\ len c <= size) chunks.
Proof.
  intros text size overlap fuel chunks Hsize H. unfold chunk_text in H.
  destruct (is_empty text); [injection H as <-; constructor|].
  destruct (loop text size overlap fuel 0 []) as [cs|] eqn:Hl; [|discriminate].
  injection H as <-.
  pose proof (loop_well_cut text size overlap Hsize fuel 0 [] cs
                (Forall_nil _) Hl) as Hall.
  apply Forall_forall. intros c Hc. apply filter_In in Hc.
  destruct Hc as [Hc Hne]. rewrite Forall_forall in Hall.
  destruct (Hall c Hc) as [Hs Hlen].
  split; [|split; assumption]. intros ->. discriminate.
Qed.

Lemma chunk_text_chunks_trimmed_and_bounded_witness :
  Forall (fun c => c <> [] /\ strip c = c /\ len c <= 4)
         [lit "A. B"; lit "B. C"; lit "C."].
Proof.
  apply (chunk_text_chunks_trimmed_and_bounded (lit "A. B. C.") 4 1 5).
  - lia.
  - reflexivity.
Defined.

(** ** Termination *)

Section Progress.
Variables (text : str) (size overlap : Z).
Hypothesis overlap_lt_size : overlap < size.
Hypothesis overlap_small : overlap <= size / 2 + 1.

Lemma window_advances s :
  0 <= s -> s + overlap < snd (window text size s).
Proof.
  intros Hs. unfold window, text_length.
  destruct (Z.ltb_spec (s + size) (len text)) as [Hlt|Hge]; [|simpl; lia].
  set (chunk := slice text s (s + size)).
  match goal with |- context [if ?c >? _ then _ else _] => set (lp := c) end.
  destruct (Z.gtb_spec lp (size / 2)); simpl; lia.
Qed.

Lemma loop_terminates fuel : forall s cs,
  0 <= s -> (Z.to_nat (len text - s) < fuel)%nat ->
  exists r, loop text size overlap fuel s cs = Some r.
Proof.
  induction fuel as [|fuel IH]; intros s cs Hs Hf; [lia|].
  simpl. unfold text_length.
  destruct (Z.ltb_spec s (len text)) as [Hlt|Hge];
    [|eexists; reflexivity].
  unfold body. pose proof (window_advances s Hs) as Hw.
  destruct (window text size s) as [chunk e]. simpl snd in Hw.
  destruct ((e - overlap + size >=? text_length text)
            && (e - overlap <? text_length text));
    [eexists; reflexivity|].
  apply IH; lia.
Qed.
End Progress.

(** X5: With [overlap < size] and [overlap <= size // 2 + 1] the loop of
    [chunk_text] advances [start] at every pass, so [chunk_text] returns
    on every text, after at most [len(text)] passes. *)
Theorem chunk_text_terminates_with_small_overlap :
  forall (text : str) (size overlap : Z),
    overlap < size -> overlap <= size / 2 + 1 ->
    exists chunks,
      forall fuel, (List.length text < fuel)%nat ->
                   chunk_text text size overlap fuel = Some chunks.
Proof.
  intros text size overlap H1 H2.
  destruct (loop_terminates text size overlap H1 H2
              (S (List.length text)) 0 [] (Z.le_refl 0))
    as (r & Hr); [unfold len; lia|].
  exists (if is_empty text then []
          else filter (fun c => negb (is_empty c)) r).
  intros fuel Hf. unfold chunk_text.
  destruct (is_empty text); [reflexivity|].
  rewrite (loop_fuel_le _ _ _ _ fuel _ _ _ Hf Hr). reflexivity.
Qed.

Lemma chunk_text_terminates_with_small_overlap_witness :
  exists chunks,
    forall fuel, (30 < fuel)%nat ->
      chunk_text (lit "abc. def. ghijkl mnop. qrstuvw") 500 50 fuel
      = Some chunks.
Proof.
  apply (chunk_text_terminates_with_small_overlap
           (lit "abc. def. ghijkl mnop. qrstuvw") 500 50).
  - lia.
  - vm_compute. discriminate.
Defined.

(** * More on the citation auditor *)

Lemma digit_value_range c : is_digit c = true -> 0 <= digit_value c <= 9.
Proof.
  destruct c as [[] [] [] [] [] [] [] []]; vm_compute;
    intuition congruence.
Qed.

Lemma int_of_digits_from ds : forall acc,
  Forall (fun c => is_digit c = true) ds -> 0 <= acc ->
  0 <= fold_left (fun acc c => 10 * acc + digit_value c) ds acc.
Proof.
  induction ds as [|d ds IH]; intros acc Hds Hacc; cbn [fold_left];
    [exact Hacc|].
  inversion Hds as [|? ? Hd Hds']; subst.
  apply IH; [exact Hds'|]. pose proof (digit_value_range d Hd). lia.
Qed.

Lemma marker_digits m ds :
  Marker m ds -> Forall (fun c => is_digit c = true) ds.
Proof. intros [ws ds' _ H _ | lab ws ds' _ _ H _]; exact H. Qed.

(** X6: [extract_citations] never returns a negative id: the pattern captures
    digits only. *)
Theorem extract_citations_nonnegative :
  forall (answer : str) (n : Z), In n (extract_citations answer) -> 0 <= n.
Proof.
  intros answer n Hin. rewrite extract_citations_first_seen in Hin.
  apply in_fold_add_new in Hin. destruct Hin as [[]|Hin].
  apply in_map_iff in Hin. destruct Hin as (ds & <- & Hds).
  destruct (re_findall_sound _ _ Hds) as (pre & m & post & _ & Hm).
  apply int_of_digits_from; [exact (marker_digits _ _ Hm) | lia].
Qed.

Lemma extract_citations_nonnegative_witness : 0 <= 3.
Proof.
  apply (extract_citations_nonnegative scenario 3).
  right. right. left. reflexivity.
Defined.

(** X7: With [num_sources <= 0] no answer is valid: [validate_citations]
    reports [is_valid = False] whatever the answer cites. *)
Theorem validate_citations_without_sources :
  forall (answer : str) (num_sources : Z),
    num_sources <= 0 ->
    is_valid (validate_citations answer num_sources) = false.
Proof.
  intros answer num_sources Hn. unfold validate_citations.
  destruct (extract_citations answer) as [|c ids]; [reflexivity|].
  cbn [filter].
  assert (E : (c <? 1) || (c >? num_sources) = true).
  { apply orb_true_iff. rewrite Z.ltb_lt, Z.gtb_ltb, Z.ltb_lt. lia. }
  rewrite E. reflexivity.
Qed.

Lemma validate_citations_without_sources_witness :
  is_valid (validate_citations (lit "claim [1]") 0) = false.
Proof.
  apply (validate_citations_without_sources (lit "claim [1]") 0). lia.
Defined.

(** ** Texts without an opening bracket *)

Lemma match_at_bracket_free c s :
  c <> "["%char -> match_at (c :: s) = None.
Proof.
  intros H. rewrite match_at_cons.
  destruct (char_eqb c "[") eqn:E; [|reflexivity].
  apply char_eqb_eq in E. congruence.
Qed.

Lemma findall_bracket_free fuel : forall s,
  bracket_free s -> findall fuel s = [].
Proof.
  induction fuel as [|fuel IH]; intros s H; [reflexivity|].
  destruct s as [|c s]; [reflexivity|]. cbn [findall].
  rewrite match_at_bracket_free by (intros ->; apply H; left; reflexivity).
  apply IH. intros Hin. apply H. right. exact Hin.
Qed.

Lemma remove_matches_bracket_free fuel : forall s,
  bracket_free s -> (List.length s <= fuel)%nat -> remove_matches fuel s = s.
Proof.
  induction fuel as [|fuel IH]; intros s H Hf.
  - destruct s; [reflexivity | simpl in Hf; lia].
  - destruct s as [|c s]; [reflexivity|]. cbn [remove_matches].
    rewrite match_at_bracket_free by (intros ->; apply H; left; reflexivity).
    f_equal. apply IH; [|simpl in Hf; lia].
    intros Hin. apply H. right. exact Hin.
Qed.

(** X8: An answer without an opening bracket holds no citation:
    [extract_citations] returns the empty list, the removal of the markers
    in [verify_answer_grounding] leaves the answer unchanged, and
    [validate_citations] reports no citation, for every [num_sources]. *)
Theorem bracket_free_answer_has_no_citations :
  forall (answer : str),
    ~ In "["%char answer ->
    extract_citations answer = []
    /\ re_sub_citations answer = answer
    /\ forall num_sources,
         let r := validate_citations answer num_sources in
         is_valid r = false /\ has_citations r = false
         /\ message_of r = NoCitationsFound.
Proof.
  intros answer H.
  assert (E : extract_citations answer = []).
  { unfold extract_citations, re_findall.
    rewrite findall_bracket_free by exact H. reflexivity. }
  split; [exact E|]. split.
  - apply remove_matches_bracket_free; [exact H | lia].
  - intros num_sources. unfold validate_citations. rewrite E.
    repeat split.
Qed.

Lemma bracket_free_answer_has_no_citations_witness :
  extract_citations (lit "Aspirin reduces fever (see source 1).") = []
  /\ re_sub_citations (lit "Aspirin reduces fever (see source 1).")
     = lit "Aspirin reduces fever (see source 1)."
  /\ forall num_sources,
       let r := validate_citations
                  (lit "Aspirin reduces fever (see source 1).") num_sources in
       is_valid r = false /\ has_citations r = false
       /\ message_of r = NoCitationsFound.
Proof.
  apply (bracket_free_answer_has_no_citations
           (lit "Aspirin reduces fever (see source 1).")).
  vm_compute. intuition discriminate.
Defined.

(** * More on grounding *)

Lemma ratio_between_0_and_1 g t :
  0 <= g -> g <= t -> 0 < t ->
  (0 <= inject_Z g / inject_Z t <= 1)%Q.
Proof.
  intros Hg Hgt Ht. destruct t as [|p|p]; try lia.
  unfold Qle, Qdiv, Qmult, Qinv, inject_Z. cbn [Qnum Qden]. lia.
Qed.

Lemma ratio_monotone g g' t :
  g <= g' -> 0 < t -> (inject_Z g / inject_Z t <= inject_Z g' / inject_Z t)%Q.
Proof.
  intros Hg Ht. destruct t as [|p|p]; try lia.
  unfold Qle, Qdiv, Qmult, Qinv, inject_Z. cbn [Qnum Qden]. nia.
Qed.

Lemma len_filter_monotone {A} (p q : A -> bool) l :
  (forall x, p x = true -> q x = true) ->
  len (filter p l) <= len (filter q l).
Proof.
  intros H. unfold len. induction l as [|x l IH]; simpl; [lia|].
  destruct (p x) eqn:E.
  - rewrite (H x E). simpl. lia.
  - destruct (q x); simpl; lia.
Qed.

Lemma counts_more_sources source_chunks more sentence :
  counts source_chunks sentence = true ->
  counts (source_chunks ++ more) sentence = true.
Proof.
  unfold counts, grounded_in. rewrite existsb_app, !andb_true_iff.
  intros [-> ->]. split; reflexivity.
Qed.

Lemma grounded_count answer source_chunks :
  grounded_sentences (verify_answer_grounding answer source_chunks)
  = len (filter (counts source_chunks) (sentences_of answer)).
Proof.
  unfold verify_answer_grounding. cbn [grounded_sentences].
  rewrite fold_count_sentence. lia.
Qed.

(** X9: In the report of [verify_answer_grounding] the number of grounded
    sentences lies between 0 and the number of sentences, and the grounding
    ratio between 0 and 1. *)
Theorem verify_answer_grounding_bounds :
  forall (answer : str) (source_chunks : list str),
    let r := verify_answer_grounding answer source_chunks in
    0 <= grounded_sentences r <= total_sentences r
    /\ (0 <= grounding_ratio r <= 1)%Q.
Proof.
  intros answer source_chunks r.
  assert (H : 0 <= grounded_sentences r <= total_sentences r).
  { subst r. rewrite grounded_count. cbn [verify_answer_grounding total_sentences].
    split; [unfold len; lia | apply len_filter_le]. }
  split; [exact H|].
  subst r. unfold verify_answer_grounding in *.
  cbn [grounded_sentences total_sentences grounding_ratio] in *.
  destruct (Z.ltb_spec 0 (len (sentences_of answer))) as [Ht|Ht].
  - apply ratio_between_0_and_1; lia.
  - split; discriminate.
Qed.

(** X10: Giving [verify_answer_grounding] more source chunks never lowers the
    result: the number of sentences stays, the number of grounded
    sentences and the ratio do not decrease, and an answer that was well
    grounded stays so. *)
Theorem verify_answer_grounding_more_sources :
  forall (answer : str) (source_chunks more : list str),
    let r := verify_answer_grounding answer source_chunks in
    let r' := verify_answer_grounding answer (source_chunks ++ more) in
    total_sentences r' = total_sentences r
    /\ grounded_sentences r <= grounded_sentences r'
    /\ (grounding_ratio r <= grounding_ratio r')%Q
    /\ (is_well_grounded r = true -> is_well_grounded r' = true).
Proof.
  intros answer source_chunks more r r'.
  assert (Hg : grounded_sentences r <= grounded_sentences r').
  { subst r r'. rewrite !grounded_count. apply len_filter_monotone.
    intros s. apply counts_more_sources. }
  assert (Hr : (grounding_ratio r <= grounding_ratio r')%Q).
  { subst r r'. unfold verify_answer_grounding in *.
    cbn [grounded_sentences grounding_ratio] in *.
    destruct (Z.ltb_spec 0 (len (sentences_of answer))) as [Ht|Ht].
    - apply ratio_monotone; assumption.
    - apply Qle_refl. }
  split; [reflexivity|]. split; [exact Hg|]. split; [exact Hr|].
  subst r r'. unfold verify_answer_grounding in *.
  cbn [is_well_grounded grounding_ratio] in *.
  rewrite !Qle_bool_iff. intros H. eapply Qle_trans; [exact H | exact Hr].
Qed.

Lemma verify_answer_grounding_more_sources_witness :
  is_well_grounded
    (verify_answer_grounding (lit "Aspirin reduces fever quickly.")
       (scenario_sources ++ [lit "rest and fluids"])) = true.
Proof.
  apply (verify_answer_grounding_more_sources
           (lit "Aspirin reduces fever quickly.") scenario_sources
           [lit "rest and fluids"]).
  reflexivity.
Defined.

(** X11: With no source chunk nothing is grounded: [verify_answer_grounding]
    reports no grounded sentence, a ratio of 0 and an answer that is not
    well grounded, whatever the answer. *)
Theorem verify_answer_grounding_without_sources :
  forall (answer : str),
    let r := verify_answer_grounding answer [] in
    grounded_sentences r = 0
    /\ grounding_ratio r == 0
    /\ is_well_grounded r = false.
Proof.
  intros answer r.
  assert (Hg : grounded_sentences r = 0).
  { subst r. rewrite grounded_count.
    replace (filter (counts []) (sentences_of answer)) with (@nil str);
      [reflexivity|].
    induction (sentences_of answer) as [|s l IH]; [reflexivity|].
    simpl. unfold counts at 1. simpl. rewrite andb_false_r. exact IH. }
  assert (Hr : grounding_ratio r == 0).
  { subst r. unfold verify_answer_grounding in *.
    cbn [grounded_sentences grounding_ratio] in *. rewrite Hg.
    destruct (0 <? len (sentences_of answer)); [|reflexivity].
    unfold Qdiv. apply Qmult_0_l. }
  split; [exact Hg|]. split; [exact Hr|].
  subst r. unfold verify_answer_grounding in *.
  cbn [is_well_grounded grounding_ratio] in *.
  match goal with |- Qle_bool ?a ?b = false =>
    destruct (Qle_bool a b) eqn:E; [|reflexivity] end.
  apply Qle_bool_iff in E. rewrite Hr in E.
  unfold Qle in E. simpl in E. lia.
Qed.

(** ** The numbering of the sources in the prompt *)

Lemma digit_char_spec d :
  0 <= d < 10 ->
  is_digit (digit_char d) = true /\ digit_value (digit_char d) = d.
Proof.
  intros H.
  assert (d = 0 \/ d = 1 \/ d = 2 \/ d = 3 \/ d = 4 \/ d = 5 \/ d = 6
          \/ d = 7 \/ d = 8 \/ d = 9) as Hd by lia.
  repeat (destruct Hd as [-> | Hd]; [split; reflexivity |]).
  subst d; split; reflexivity.
Qed.

Lemma int_of_digits_snoc ds c :
  int_of_digits (ds ++ [c]) = 10 * int_of_digits ds + digit_value c.
Proof.
  unfold int_of_digits. rewrite fold_left_app. reflexivity.
Qed.

Lemma decimal_digits_spec fuel : forall n acc,
  0 <= n < 2 ^ Z.of_nat (S fuel) ->
  exists ds, decimal_digits (S fuel) n acc = ds ++ acc /\ written n ds.
Proof.
  induction fuel as [| fuel IH]; intros n acc Hn.
  - change (2 ^ Z.of_nat 1) with 2 in Hn.
    cbn [decimal_digits].
    assert (n / 10 = 0) as E by (apply Z.div_small; lia).
    rewrite E. cbn [Z.eqb].
    assert (n mod 10 = n) as M by (apply Z.mod_small; lia).
    rewrite M. exists [digit_char n].
    destruct (digit_char_spec n) as [D V]; [lia |].
    split; [reflexivity |]. split; [discriminate |]. split.
    + constructor; [exact D | constructor].
    + unfold int_of_digits. cbn [fold_left]. lia.
  - change (decimal_digits (S (S fuel)) n acc)
      with (let acc' := digit_char (n mod 10) :: acc in
            if n / 10 =? 0 then acc'
            else decimal_digits (S fuel) (n / 10) acc').
    cbv zeta.
    assert (0 <= n mod 10 < 10) as Hm by (apply Z.mod_pos_bound; lia).
    destruct (digit_char_spec (n mod 10) Hm) as [D V].
    destruct (n / 10 =? 0) eqn:E.
    + apply Z.eqb_eq in E.
      exists [digit_char (n mod 10)].
      split; [reflexivity |]. split; [discriminate |]. split.
      * constructor; [exact D | constructor].
      * unfold int_of_digits. cbn [fold_left]. rewrite V.
        pose proof (Z.div_mod n 10). lia.
    + apply Z.eqb_neq in E.
      assert (0 <= n / 10 < 2 ^ Z.of_nat (S fuel)) as Hq.
      { split; [apply Z.div_pos; lia |].
        apply Z.div_lt_upper_bound; [lia |].
        replace (Z.of_nat (S (S fuel))) with (Z.succ (Z.of_nat (S fuel)))
          in Hn by lia.
        rewrite Z.pow_succ_r in Hn by lia.
        assert (0 < 2 ^ Z.of_nat (S fuel)) by (apply Z.pow_pos_nonneg; lia).
        lia. }
      destruct (IH (n / 10) (digit_char (n mod 10) :: acc) Hq)
        as (ds & Eds & Hne & Hdig & Hval).
      exists (ds ++ [digit_char (n mod 10)]).
      split; [rewrite Eds, <- app_assoc; reflexivity |].
      split; [destruct ds; discriminate |]. split.
      * apply Forall_app. split; [exact Hdig |].
        constructor; [exact D | constructor].
      * rewrite int_of_digits_snoc, Hval, V.
        pose proof (Z.div_mod n 10). lia.
Qed.

Lemma str_of_int_written n : 0 <= n -> written n (str_of_int n).
Proof.
  intros Hn. unfold str_of_int.
  destruct (n <? 0) eqn:E; [apply Z.ltb_lt in E; lia |].
  destruct (decimal_digits_spec (Z.to_nat (Z.log2 n)) n []) as (ds & Eds & W).
  - split; [exact Hn |].
    pose proof (Z.log2_nonneg n).
    replace (Z.of_nat (S (Z.to_nat (Z.log2 n)))) with (Z.succ (Z.log2 n))
      by lia.
    destruct (Z.eq_dec n 0) as [-> | Hz]; [reflexivity |].
    apply Z.log2_spec. lia.
  - rewrite Eds, app_nil_r. exact W.
Qed.

(** The label of source [i] is a citation marker that carries [str(i)]. *)
Lemma source_label_marker i :
  0 <= i ->
  Marker (lit "[Kaynak " ++ str_of_int i ++ lit "]") (str_of_int i).
Proof.
  intros Hi. destruct (str_of_int_written i Hi) as (Hne & Hd & _).
  change (lit "[Kaynak " ++ str_of_int i ++ lit "]")
    with ("["%char :: lit "Kaynak" ++ [" "%char] ++ str_of_int i ++ ["]"%char]).
  apply marker_labelled; [reflexivity | | exact Hd | exact Hne].
  constructor; [reflexivity | constructor].
Qed.

Lemma bracket_free_app s t :
  bracket_free s -> bracket_free t -> bracket_free (s ++ t).
Proof.
  unfold bracket_free. intros Hs Ht H. apply in_app_or in H. tauto.
Qed.

Lemma re_findall_bracket_free s : bracket_free s -> re_findall s = [].
Proof. intros H. apply findall_bracket_free. exact H. Qed.

(** One pass of the loop adds one match, whatever was written before. *)
Lemma re_findall_add_source text i chunk :
  0 <= i -> bracket_free chunk ->
  re_findall (add_source text i chunk) = re_findall text ++ [str_of_int i].
Proof.
  intros Hi Hc. unfold add_source.
  replace (text ++ lit "[Kaynak " ++ str_of_int i ++ lit "]" ++ [newline]
           ++ chunk ++ [newline; newline])
    with (text ++ (lit "[Kaynak " ++ str_of_int i ++ lit "]")
          ++ ([newline] ++ chunk ++ [newline; newline])).
  2:{ rewrite <- !app_assoc. reflexivity. }
  rewrite (re_findall_marker text _ _ (str_of_int i) (source_label_marker i Hi)).
  rewrite (re_findall_bracket_free ([newline] ++ chunk ++ [newline; newline]));
    [reflexivity |].
  apply bracket_free_app.
  - intros [H | []]. discriminate H.
  - apply bracket_free_app; [exact Hc |].
    intros [H | [H | []]]; discriminate H.
Qed.

Lemma re_findall_context_from chunks : forall i text,
  0 <= i -> Forall bracket_free chunks ->
  re_findall (context_from i chunks text)
  = re_findall text ++ map str_of_int (count_from i (List.length chunks)).
Proof.
  induction chunks as [| c rest IH]; intros i text Hi Hf.
  - cbn. rewrite app_nil_r. reflexivity.
  - inversion Hf as [| ? ? Hc Hrest]; subst.
    cbn [context_from List.length count_from map].
    rewrite IH by (try lia; assumption).
    rewrite re_findall_add_source by assumption.
    rewrite <- app_assoc. reflexivity.
Qed.

Lemma in_count_from n : forall start x,
  In x (count_from start n) <-> start <= x < start + Z.of_nat n.
Proof.
  induction n as [| n IH]; intros start x.
  - cbn. lia.
  - cbn [count_from In]. rewrite IH. lia.
Qed.

Lemma count_from_nodup n : forall start, NoDup (count_from start n).
Proof.
  induction n as [| n IH]; intros start; cbn [count_from]; constructor.
  - rewrite in_count_from. lia.
  - apply IH.
Qed.

Lemma count_from_length n : forall start,
  List.length (count_from start n) = n.
Proof.
  induction n as [| n IH]; intros start; cbn; [| rewrite IH]; reflexivity.
Qed.

Lemma read_back n : forall start,
  0 <= start ->
  map int_of_digits (map str_of_int (count_from start n)) = count_from start n.
Proof.
  induction n as [| n IH]; intros start Hs; cbn [count_from map].
  - reflexivity.
  - rewrite IH by lia.
    destruct (str_of_int_written start Hs) as (_ & _ & ->). reflexivity.
Qed.

(** Ids met for the first time are appended in the order they come. *)
Lemma fold_add_new_fresh l : forall acc,
  NoDup (acc ++ l) -> fold_left add_new l acc = acc ++ l.
Proof.
  induction l as [| x l IH]; intros acc H.
  - cbn. rewrite app_nil_r. reflexivity.
  - cbn [fold_left].
    assert (~ In x acc) as Hx.
    { apply NoDup_remove_2 in H. intros Hin. apply H.
      apply in_or_app. left. exact Hin. }
    rewrite add_new_fresh by exact Hx.
    replace (acc ++ x :: l) with ((acc ++ [x]) ++ l)
      by (rewrite <- app_assoc; reflexivity).
    apply IH. rewrite <- app_assoc. exact H.
Qed.

Lemma extract_citations_context chunks :
  Forall bracket_free chunks ->
  extract_citations (context_text chunks)
  = count_from 1 (List.length chunks).
Proof.
  intros Hf. rewrite extract_citations_first_seen. unfold context_text.
  rewrite re_findall_context_from by (try lia; assumption).
  change (re_findall []) with (@nil str). cbn [app].
  rewrite read_back by lia.
  apply (fold_add_new_fresh _ []). cbn [app]. apply count_from_nodup.
Qed.

(** X12: The labels that [generate_answer] writes in front of the context chunks
    are read back by [extract_citations]: when no chunk holds an opening
    bracket, the citations of the context text are [1, 2, ..., n] for [n]
    chunks, in this order, and for [n > 0] the context text is valid for
    [n] sources. *)
Theorem context_text_cites_every_source :
  forall (context_chunks : list str),
    Forall (fun chunk => ~ In "["%char chunk) context_chunks ->
    extract_citations (context_text context_chunks)
    = count_from 1 (List.length context_chunks)
    /\ (context_chunks <> [] ->
        is_valid (validate_citations (context_text context_chunks)
                    (len context_chunks)) = true).
Proof.
  intros chunks Hf.
  pose proof (extract_citations_context chunks Hf) as E.
  split; [exact E |].
  intros Hne. unfold validate_citations. rewrite E.
  destruct chunks as [| c rest]; [contradiction |].
  cbn [List.length count_from].
  match goal with
  | |- context [filter ?p ?l] =>
      assert (filter p l = []) as F; [| rewrite F; reflexivity]
  end.
  apply filter_nil_iff. apply Forall_forall. intros x Hx.
  change (1 :: count_from (1 + 1) (List.length rest))
    with (count_from 1 (S (List.length rest))) in Hx.
  apply in_count_from in Hx.
  destruct ((x <? 1) || (x >? len (c :: rest))) eqn:B; [| reflexivity].
  apply out_of_range_iff in B. unfold len in B. cbn [List.length] in B. lia.
Qed.

Lemma context_text_cites_every_source_witness :
  extract_citations (context_text [lit "fever"; lit "dose (mg/kg)"])
  = [1; 2]
  /\ is_valid (validate_citations
                 (context_text [lit "fever"; lit "dose (mg/kg)"]) 2) = true.
Proof.
  destruct (context_text_cites_every_source
              [lit "fever"; lit "dose (mg/kg)"]) as [E V].
  - repeat constructor; intros H; cbn in H;
      repeat (destruct H as [H | H]; [discriminate H |]); exact H.
  - split; [exact E | apply V; discriminate].
Defined.

(** ** The first chunk, and what is indexed *)

Lemma slice_head {A} (c : A) (t : list A) b :
  1 <= b -> exists r, slice (c :: t) 0 b = c :: r.
Proof.
  intros Hb. unfold slice, clamp, len. cbn [List.length].
  destruct (Z.ltb_spec 0 0) as [H | _]; [lia |].
  destruct (Z.ltb_spec b 0) as [H | _]; [lia |].
  rewrite (Z.min_l 0) by lia. cbn [Z.to_nat skipn].
  destruct (Z.to_nat (Z.min b (Z.of_nat (S (List.length t))) - 0)) as [| k] eqn:E;
    [lia |].
  cbn [firstn]. eexists. reflexivity.
Qed.

Lemma window_head c t size :
  0 < size -> exists r, fst (window (c :: t) size 0) = c :: r.
Proof.
  intros Hs. unfold window.
  destruct (slice_head c t (0 + size)) as (r & Er); [lia |].
  rewrite Er.
  destruct (0 + size <? text_length (c :: t)); [| exists r; reflexivity].
  match goal with |- context [if ?lp >? _ then _ else _] => set (p := lp) end.
  destruct (Z.gtb_spec p (size / 2)) as [Hp | _]; [| exists r; reflexivity].
  cbn [fst]. unfold slice_to. apply slice_head.
  assert (0 <= size / 2) by (apply Z.div_pos; lia). lia.
Qed.

Lemma lstrip_snoc s c :
  is_space c = false -> lstrip (s ++ [c]) = lstrip s ++ [c].
Proof.
  intros Hc. induction s as [| a s IH]; cbn [app lstrip].
  - rewrite Hc. reflexivity.
  - destruct (is_space a); [exact IH | reflexivity].
Qed.

Lemma strip_head c r :
  is_space c = false -> exists r', strip (c :: r) = c :: r'.
Proof.
  intros Hc. unfold strip, rstrip. cbn [rev].
  rewrite lstrip_snoc by exact Hc. rewrite rev_app_distr. cbn [rev app].
  cbn [lstrip]. rewrite Hc. eexists. reflexivity.
Qed.

Lemma body_prefix text size overlap s cs :
  exists t,
    match body text size overlap s cs with
    | Break cs' | Continue _ cs' =>
        cs' = cs ++ strip (fst (window text size s)) :: t
    end.
Proof.
  unfold body. destruct (window text size s) as [chunk e]. cbn [fst].
  destruct ((e - overlap + size >=? text_length text)
            && (e - overlap <? text_length text)).
  - eexists. rewrite <- app_assoc. reflexivity.
  - exists []. reflexivity.
Qed.

Lemma loop_prefix text size overlap fuel : forall s cs r,
  loop text size overlap fuel s cs = Some r -> exists t, r = cs ++ t.
Proof.
  induction fuel as [| fuel IH]; intros s cs r H; cbn [loop] in H.
  - destruct (s <? text_length text); [discriminate |].
    injection H as <-. exists []. rewrite app_nil_r. reflexivity.
  - destruct (s <? text_length text).
    + destruct (body_prefix text size overlap s cs) as (t & Ht).
      destruct (body text size overlap s cs) as [s' cs' | cs'].
      * destruct (IH _ _ _ H) as (t' & ->). subst cs'.
        eexists. rewrite <- app_assoc. reflexivity.
      * injection H as <-. subst cs'. eexists. reflexivity.
    + injection H as <-. exists []. rewrite app_nil_r. reflexivity.
Qed.

(** X13: When the text starts with a character that is not a space and
    [0 < size], whatever [chunk_text] returns is not empty and its first
    chunk starts with the first character of the text. *)
Theorem chunk_text_keeps_text_start :
  forall (c : ascii) (t : str) (size overlap : Z) (fuel : nat)
         (chunks : list str),
    is_space c = false -> 0 < size ->
    chunk_text (c :: t) size overlap fuel = Some chunks ->
    exists first rest, chunks = (c :: first) :: rest.
Proof.
  intros c t size overlap fuel chunks Hc Hs H.
  unfold chunk_text in H. cbn [is_empty] in H.
  destruct (loop (c :: t) size overlap fuel 0 []) as [r |] eqn:L;
    [| discriminate].
  injection H as <-.
  assert (exists first t', r = (c :: first) :: t') as (first & t' & ->).
  { destruct fuel as [| fuel]; cbn [loop] in L.
    - unfold text_length, len in L. cbn [List.length] in L.
      destruct (Z.ltb_spec 0 (Z.of_nat (S (List.length t)))); [discriminate | lia].
    - unfold text_length, len in L. cbn [List.length] in L.
      destruct (Z.ltb_spec 0 (Z.of_nat (S (List.length t)))) as [_ | H0]; [| lia].
      destruct (body_prefix (c :: t) size overlap 0 []) as (u & Hu).
      destruct (window_head c t size Hs) as (w & Hw). rewrite Hw in Hu.
      destruct (strip_head c w Hc) as (w' & Hw'). rewrite Hw' in Hu.
      destruct (body (c :: t) size overlap 0 []) as [s' cs' | cs'].
      + destruct (loop_prefix _ _ _ _ _ _ _ L) as (v & ->). subst cs'.
        cbn [app]. eexists. eexists. reflexivity.
      + injection L as <-. subst cs'. cbn [app]. eexists. eexists. reflexivity. }
  cbn [filter is_empty negb]. eexists. eexists. reflexivity.
Qed.

Lemma chunk_text_keeps_text_start_witness :
  exists first rest,
    [lit "A. B"; lit "B. C"; lit "C."] = ("A"%char :: first) :: rest.
Proof.
  apply (chunk_text_keeps_text_start "A"%char (lit ". B. C.") 4 1 5).
  - reflexivity.
  - lia.
  - reflexivity.
Defined.

Lemma lower_char_not_space c : is_space c = false -> is_space (lower_char c) = false.
Proof. by_cases_on_char c. Qed.

Lemma split_ws_word s : forall cur, cur <> [] -> split_ws s cur <> [].
Proof.
  induction s as [| c s IH]; intros cur Hc; cbn [split_ws].
  - destruct cur; [contradiction | discriminate].
  - destruct (is_space c).
    + destruct cur; [contradiction | discriminate].
    + apply IH. discriminate.
Qed.

Lemma split_lower_word c :
  c <> [] -> strip c = c -> Grounding.split (lower c) <> [].
Proof.
  intros Hne Hs.
  assert (headed c) as Hh.
  { rewrite <- Hs. unfold strip. apply lstrip_headed. }
  destruct c as [| a r]; [contradiction |]. cbn in Hh.
  unfold Grounding.split, lower. cbn [map split_ws].
  rewrite (lower_char_not_space a Hh).
  apply split_ws_word. discriminate.
Qed.

(** X14: The chunking of [ingest_pdf], [chunk_text(text, size=500, overlap=50)],
    returns on every text; every stored chunk is stripped and has between
    1 and 500 characters; and every chunk gives the BM25 index at least one
    token ([chunk.lower().split()] is not empty). *)
Theorem ingest_chunks_are_indexable :
  forall (text : str),
    exists chunks,
      (forall fuel, (List.length text < fuel)%nat ->
                    stored_chunks text fuel = Some chunks)
      /\ Forall (fun chunk => 1 <= len chunk <= 500 /\ strip chunk = chunk)
                chunks
      /\ Forall (fun tokens => tokens <> []) (tokenized_chunks chunks).
Proof.
  intros text.
  assert ((50 : Z) < 500) as H1 by lia.
  assert ((50 : Z) <= 500 / 2 + 1) as H2 by (vm_compute; discriminate).
  destruct (loop_terminates text 500 50 H1 H2
              (S (List.length text)) 0 [] (Z.le_refl 0))
    as (r & Hr); [unfold len; lia |].
  exists (if is_empty text then []
          else filter (fun c => negb (is_empty c)) r).
  assert (forall c,
            In c (if is_empty text then []
                  else filter (fun c => negb (is_empty c)) r) ->
            c <> [] /\ strip c = c /\ len c <= 500) as Hall.
  { intros c Hin. destruct (is_empty text); [contradiction |].
    apply filter_In in Hin. destruct Hin as [Hin Hne].
    assert ((0 : Z) <= 500) as H0 by lia.
    pose proof (loop_well_cut text 500 50 H0 _ 0 [] r (Forall_nil _) Hr) as W.
    rewrite Forall_forall in W. destruct (W c Hin) as [Hs Hl].
    split; [| split; assumption]. intros ->. discriminate. }
  split; [| split].
  - intros fuel Hf. unfold stored_chunks, chunk_text.
    destruct (is_empty text); [reflexivity |].
    rewrite (loop_fuel_le _ _ _ _ fuel _ _ _ Hf Hr). reflexivity.
  - apply Forall_forall. intros c Hin.
    destruct (Hall c Hin) as (Hne & Hs & Hl).
    split; [| exact Hs]. split; [| exact Hl].
    destruct c; [contradiction |]. unfold len. cbn [List.length]. lia.
  - unfold tokenized_chunks. apply Forall_map. apply Forall_forall.
    intros c Hin. destruct (Hall c Hin) as (Hne & Hs & _).
    apply split_lower_word; assumption.
Qed.

(** ** What retrieval returns, whatever the state *)

Lemma slice_to_prefix {A} (s : list A) stop :
  exists n, slice_to s stop = firstn n s.
Proof.
  unfold slice_to, slice, clamp.
  destruct (Z.ltb_spec 0 0) as [H | _]; [lia |].
  rewrite (Z.min_l 0) by (unfold len; lia).
  cbn [Z.to_nat skipn]. eexists. reflexivity.
Qed.

Lemma index_some {A} (s : list A) i c :
  index s i = Some c -> In c s /\ (0 <= i -> i < len s).
Proof.
  unfold index. intros H.
  destruct ((if i <? 0 then i + len s else i) <? 0); [discriminate |].
  split; [exact (nth_error_In _ _ H) |].
  intros Hi. destruct (Z.ltb_spec i 0) as [Hn | _]; [lia |].
  assert (Z.to_nat i < List.length s)%nat
    by (apply nth_error_Some; rewrite H; discriminate).
  unfold len. lia.
Qed.

Section Results.
Context {C : Collaborators}.

Lemma resolve_ok chunks : forall fused results,
resolve chunks fused = Ok results ->
map fst results = map fst fused
/\ Forall (fun r => index chunks (fst r) = Some (snd r)) results.
Proof.
induction fused as [| [idx sc] fused IH]; intros results H; cbn [resolve] in H.
- injection H as <-. split; [reflexivity | constructor].
- destruct (index chunks idx) as [c |] eqn:E; [| discriminate].
  destruct (resolve chunks fused) as [rs |]; cbn [bind] in H;
    [| discriminate].
  injection H as <-. destruct (IH rs eq_refl) as [Hk Hf].
  split; [cbn; rewrite Hk; reflexivity |].
  constructor; [exact E | exact Hf].
Qed.

Lemma nodup_range_length (l : list Z) n :
NoDup l -> (forall x, In x l -> 0 <= x < Z.of_nat n) ->
(List.length l <= n)%nat.
Proof.
intros Hnd Hr.
assert (NoDup (map Z.to_nat l)) as Hnd'.
{ clear - Hnd Hr. induction Hnd as [| x l Hx Hnd IH]; cbn; constructor.
  - intros Hin. apply in_map_iff in Hin. destruct Hin as (y & Hy & Hin).
    assert (0 <= x) by (apply Hr; left; reflexivity).
    assert (0 <= y) by (apply Hr; right; exact Hin).
    assert (x = y) by lia. subst y. exact (Hx Hin).
  - apply IH. intros y Hy. apply Hr. right. exact Hy. }
assert (incl (map Z.to_nat l) (seq 0 n)) as Hincl.
{ intros k Hk. apply in_map_iff in Hk. destruct Hk as (x & <- & Hin).
  apply in_seq. specialize (Hr x Hin). lia. }
pose proof (NoDup_incl_length Hnd' Hincl) as H.
rewrite length_map, length_seq in H. exact H.
Qed.

Lemma hybrid_search_ok (self : rag) query top_k results :
hybrid_search self query top_k = Ok results ->
NoDup (map fst results)
/\ Forall (fun r => 0 <= fst r < len (chunks self)
                    /\ index (chunks self) (fst r) = Some (snd r)) results
/\ len results <= len (chunks self)
/\ (0 <= top_k -> len results <= top_k).
Proof.
intros H.
assert (results = [] \/
        exists fused : list (Z * Q),
          NoDup (map fst fused)
          /\ (forall id, In id (map fst fused) -> 0 <= id)
          /\ resolve (chunks self) (slice_to fused top_k) = Ok results)
  as [-> | (fused & Hnd & Hpos & Hres)].
{ unfold hybrid_search in H.
  destruct (chunks self) as [| c0 cs]; [left; congruence |].
  destruct (embeddings self) as [E |]; [| left; congruence].
  destruct (bm25 self) as [B |]; [| left; congruence].
  destruct (similarities E (encode (lit "query: " ++ query))) as [sims |];
    cbn [bind] in H; [| discriminate].
  match type of H with
  | context [Fusion.rrf_fusion ?a ?b _] =>
      destruct (rrf_fusion_default a b) as (fused & Ef & Hnd & Hin)
  end.
  rewrite Ef in H. right. exists fused.
  split; [exact Hnd |]. split; [| exact H].
  intros id Hid. apply Hin in Hid.
  rewrite !keys_with_scores in Hid.
  destruct Hid as [Hid | Hid]; apply in_map_iff in Hid;
    destruct Hid as (k & <- & _); lia. }
{ split; [constructor |]. split; [constructor |].
  unfold len. cbn [List.length]. split; lia. }
destruct (resolve_ok _ _ _ Hres) as [Hk Hf].
destruct (slice_to_prefix fused top_k) as (n & En).
assert (NoDup (map fst results)) as Hnd'.
{ rewrite Hk, En, <- firstn_map. apply firstn_nodup. exact Hnd. }
assert (Forall (fun r => 0 <= fst r < len (chunks self)
                         /\ index (chunks self) (fst r) = Some (snd r))
               results) as Hall.
{ apply Forall_forall. intros r Hr. rewrite Forall_forall in Hf.
  pose proof (Hf r Hr) as Hi.
  assert (0 <= fst r) as H0.
  { apply Hpos. apply (firstn_incl n). rewrite firstn_map, <- En, <- Hk.
    apply in_map. exact Hr. }
  destruct (index_some _ _ _ Hi) as [_ Hlt].
  split; [split; [exact H0 | exact (Hlt H0)] | exact Hi]. }
split; [exact Hnd' |]. split; [exact Hall |]. split.
- assert (List.length (map fst results) <= List.length (chunks self))%nat
    as Hl.
  { apply nodup_range_length; [exact Hnd' |].
    intros x Hx. apply in_map_iff in Hx. destruct Hx as (r & <- & Hr).
    rewrite Forall_forall in Hall. destruct (Hall r Hr) as [Hrange _].
    exact Hrange. }
  rewrite length_map in Hl. unfold len. lia.
- intros Hk0.
  assert (len results = len (slice_to fused top_k)) as El.
  { unfold len. f_equal.
    rewrite <- (length_map fst results), Hk, length_map. reflexivity. }
  rewrite El, len_slice_to by exact Hk0. lia.
Qed.
End Results.

(** X15: Whatever the state of the indexes, when [hybrid_search] returns, no
    position occurs twice in the result, every pair is a position of
    [self.chunks] with the chunk at that position, there are at most as
    many results as chunks, and at most [top_k] when [0 <= top_k]. *)
Theorem hybrid_search_results_are_chunks :
  forall (C : Collaborators) (self : rag) (query : str) (top_k : Z)
         (results : list (Z * str)),
    hybrid_search self query top_k = Ok results ->
    NoDup (map fst results)
    /\ Forall (fun r => 0 <= fst r < len (chunks self)
                        /\ index (chunks self) (fst r) = Some (snd r)) results
    /\ len results <= len (chunks self)
    /\ (0 <= top_k -> len results <= top_k).
Proof.
  intros C self query top_k results H. exact (hybrid_search_ok _ _ _ _ H).
Qed.

Lemma hybrid_search_results_are_chunks_witness :
  exists results,
    hybrid_search rag_of_three (lit "fever") 2 = Ok results
    /\ NoDup (map fst results)
    /\ Forall (fun r => 0 <= fst r < 3
                        /\ index (chunks rag_of_three) (fst r) = Some (snd r))
              results
    /\ len results <= 3
    /\ (0 <= 2 -> len results <= 2).
Proof.
  eexists. split; [vm_compute; reflexivity |].
  apply (hybrid_search_results_are_chunks simple_collaborators rag_of_three
           (lit "fever") 2).
  vm_compute. reflexivity.
Defined.

(** ** The source listing *)

Lemma len_slice_to_le {A} (s : list A) stop :
  0 <= stop -> len (slice_to s stop) <= stop.
Proof. intros H. rewrite len_slice_to by exact H. lia. Qed.

Lemma preview_length chunk : len (preview chunk) <= 253.
Proof.
  unfold preview. destruct (Z.gtb_spec (len chunk) 250) as [H | H]; [| lia].
  assert (len (slice_to chunk 250) <= 250) by (apply len_slice_to_le; lia).
  unfold len in *. rewrite length_app. cbn [lit list_ascii_of_string List.length].
  lia.
Qed.

Lemma preview_short chunk : len chunk <= 250 -> preview chunk = chunk.
Proof.
  intros H. unfold preview.
  destruct (Z.gtb_spec (len chunk) 250); [lia | reflexivity].
Qed.

Lemma preview_long chunk :
  250 < len chunk -> preview chunk = firstn 250 chunk ++ lit "...".
Proof.
  intros H. unfold preview.
  destruct (Z.gtb_spec (len chunk) 250); [| lia].
  rewrite slice_to_firstn by lia. reflexivity.
Qed.

Lemma cited_some ids i : cited (Some ids) i = true <-> In i ids.
Proof.
  unfold cited. rewrite andb_true_iff, mem_in. split; [tauto |].
  intros H. split; [| exact H].
  destruct ids; [contradiction |]. reflexivity.
Qed.

Lemma entries_from_spec chunks citation_ids : forall i,
  map number (entries_from i chunks citation_ids)
  = count_from i (List.length chunks)
  /\ map display_chunk (entries_from i chunks citation_ids)
     = map preview chunks
  /\ Forall (fun e => used e = cited citation_ids (number e))
            (entries_from i chunks citation_ids).
Proof.
  induction chunks as [| c rest IH]; intros i; cbn [entries_from map count_from List.length].
  - repeat split. constructor.
  - destruct (IH (i + 1)) as (H1 & H2 & H3).
    rewrite H1, H2. cbn [number display_chunk].
    repeat split. constructor; [reflexivity | exact H3].
Qed.

Lemma format_sources_spec :
  forall (chunks : list str) (citation_ids : option (list Z))
         (max_display : Z),
    chunks <> [] -> 0 <= max_display ->
    exists entries left_out,
      format_sources_with_citations chunks citation_ids max_display
      = Listed entries left_out
      /\ map number entries
         = count_from 1 (Z.to_nat (Z.min max_display (len chunks)))
      /\ map display_chunk entries
         = map preview (firstn (Z.to_nat max_display) chunks)
      /\ Forall (fun e => len (display_chunk e) <= 253) entries
      /\ Forall (fun e => used e = true <->
                          exists ids, citation_ids = Some ids
                                      /\ In (number e) ids) entries
      /\ len entries
         + match left_out with Some more => more | None => 0 end
         = len chunks
      /\ (left_out = None <-> len chunks <= max_display).
Proof.
  intros chunks citation_ids max_display Hne Hm.
  unfold format_sources_with_citations.
  destruct chunks as [| c0 rest] eqn:Ec; [contradiction |].
  rewrite <- Ec in *. clear Hne.
  destruct (entries_from_spec (slice_to chunks max_display) citation_ids 1)
    as (Hn & Hd & Hu).
  eexists. eexists. split; [reflexivity |].
  assert (List.length (slice_to chunks max_display)
          = Z.to_nat (Z.min max_display (len chunks))) as El.
  { pose proof (len_slice_to chunks max_display Hm) as H.
    unfold len in *. lia. }
  split; [rewrite Hn, El; reflexivity |].
  split; [rewrite Hd, slice_to_firstn by exact Hm; reflexivity |].
  split.
  { apply Forall_forall. intros e He.
    assert (In (display_chunk e)
               (map preview (slice_to chunks max_display))) as Hin
      by (rewrite <- Hd; apply in_map; exact He).
    apply in_map_iff in Hin. destruct Hin as (c & <- & _).
    apply preview_length. }
  split.
  { apply Forall_forall. intros e He. rewrite Forall_forall in Hu.
    rewrite (Hu e He). destruct citation_ids as [ids |].
    - rewrite cited_some. split.
      + intros H. exists ids. split; [reflexivity | exact H].
      + intros (ids' & E & H). injection E as <-. exact H.
    - cbn [cited]. split; [discriminate |].
      intros (ids' & E & _). discriminate E. }
  assert (len (entries_from 1 (slice_to chunks max_display) citation_ids)
          = Z.min max_display (len chunks)) as Elen.
  { unfold len at 1. rewrite <- (length_map number), Hn, count_from_length, El.
    unfold len. lia. }
  rewrite Elen.
  destruct (Z.gtb_spec (len chunks) max_display) as [Hgt | Hle].
  - split; [lia |]. split; [discriminate | lia].
  - split; [lia |]. split; [lia | reflexivity].
Qed.

(** X16: For a non-empty list of chunks and [0 <= max_display],
    [format_sources_with_citations] lists the first
    [min(max_display, len(chunks))] chunks, numbered from 1; each is shown
    whole when it has at most 250 characters and cut to 250 characters
    followed by three dots otherwise, hence with at most 253 characters; an
    entry is marked as used exactly when its number is among the citation
    ids; and the entries listed plus the number announced as left out add
    up to the number of chunks, nothing being announced exactly when
    [len(chunks) <= max_display]. *)
Theorem format_sources_accounts_for_every_chunk :
  forall (chunks : list str) (citation_ids : option (list Z))
         (max_display : Z),
    chunks <> [] -> 0 <= max_display ->
    exists entries left_out,
      format_sources_with_citations chunks citation_ids max_display
      = Listed entries left_out
      /\ map number entries
         = count_from 1 (Z.to_nat (Z.min max_display (len chunks)))
      /\ map display_chunk entries
         = map preview (firstn (Z.to_nat max_display) chunks)
      /\ Forall (fun e => len (display_chunk e) <= 253) entries
      /\ Forall (fun e => used e = true <->
                          exists ids, citation_ids = Some ids
                                      /\ In (number e) ids) entries
      /\ len entries
         + match left_out with Some more => more | None => 0 end
         = len chunks
      /\ (left_out = None <-> len chunks <= max_display).
Proof.
  intros chunks citation_ids max_display Hne Hm.
  exact (format_sources_spec chunks citation_ids max_display Hne Hm).
Qed.

Lemma format_sources_accounts_for_every_chunk_witness :
  exists entries left_out,
    format_sources_with_citations [lit "one"; lit "two"; lit "three"]
      (Some [2]) 2
    = Listed entries left_out
    /\ map number entries = [1; 2]
    /\ map display_chunk entries = [lit "one"; lit "two"]
    /\ Forall (fun e => len (display_chunk e) <= 253) entries
    /\ Forall (fun e => used e = true <->
                        exists ids, Some [2] = Some ids
                                    /\ In (number e) ids) entries
    /\ len entries
       + match left_out with Some more => more | None => 0 end
       = 3
    /\ (left_out = None <-> 3 <= 2).
Proof.
  apply (format_sources_accounts_for_every_chunk
           [lit "one"; lit "two"; lit "three"] (Some [2]) 2).
  - discriminate.
  - lia.
Defined.

(** ** The question pipeline *)

Lemma is_valid_iff answer num_sources :
  is_valid (validate_citations answer num_sources) = true
  <-> extract_citations answer <> []
      /\ Forall (fun c => 1 <= c <= num_sources) (extract_citations answer).
Proof.
  unfold validate_citations.
  destruct (extract_citations answer) as [| c0 ids] eqn:E.
  - cbn. split; [discriminate | intros [H _]; contradiction].
  - rewrite <- E.
    destruct (filter (fun cid => (cid <? 1) || (cid >? num_sources))
                     (extract_citations answer)) as [| b bad] eqn:F.
    + cbn [is_valid]. split; [| reflexivity]. intros _.
      split; [rewrite E; discriminate |].
      apply filter_nil_iff in F. rewrite Forall_forall in *.
      intros c Hc. specialize (F c Hc). cbv beta in F.
      destruct ((c <? 1) || (c >? num_sources)) eqn:B; [discriminate |].
      destruct (Z.ltb_spec c 1), (Z.gtb_spec c num_sources);
        cbn in B; try discriminate; lia.
    + cbn [is_valid]. split; [discriminate |]. intros [_ H].
      assert (In b (filter (fun cid => (cid <? 1) || (cid >? num_sources))
                           (extract_citations answer))) as Hb
        by (rewrite F; left; reflexivity).
      apply filter_In in Hb. destruct Hb as [Hin Hb].
      rewrite Forall_forall in H. specialize (H b Hin).
      apply out_of_range_iff in Hb. lia.
Qed.

Section Asking.
Context {C : Collaborators} {G : Generator}.

Lemma ask_state (self : service) query history :
fst (ask self query history)
= match chunks (index_of self) with
  | [] => self
  | _ :: _ => count_query self
  end.
Proof.
unfold ask. destruct (chunks (index_of self)); [reflexivity |].
destruct (hybrid_search (index_of (count_query self)) query 5) as [rs |];
  [| reflexivity].
destruct (map snd rs); reflexivity.
Qed.

Lemma ask_answered (self : service) query history
    answer sources listed ids valid msg :
snd (ask self query history)
= Ok (Answered answer sources listed ids valid msg) ->
exists results,
  hybrid_search (index_of self) query 5 = Ok results
  /\ sources = map snd results /\ sources <> []
  /\ answer = generate_answer query sources history
  /\ ids = extract_citations answer
  /\ valid = is_valid (validate_citations answer (len sources))
  /\ msg = message_of (validate_citations answer (len sources))
  /\ listed = format_sources_with_citations sources (Some ids) 5.
Proof.
unfold ask. intros H.
destruct (chunks (index_of self)); [discriminate |].
change (index_of (count_query self)) with (index_of self) in H.
destruct (hybrid_search (index_of self) query 5) as [rs |];
  [| discriminate].
exists rs. split; [reflexivity |].
destruct (map snd rs) as [| s0 ss] eqn:E; [discriminate |].
cbn [snd] in H. injection H as <- <- <- <- <- <-.
repeat split. discriminate.
Qed.
End Asking.

(** X17: [ask] changes nothing of the state but the query counter, which it
    increases by one exactly when a document is indexed ([get_stats]
    reports [indexed]), also when the search finds nothing or raises; with
    no document indexed it returns the request to upload one. *)
Theorem ask_counts_indexed_queries :
  forall (C : Collaborators) (G : Generator) (self : service) (query : str)
         (conversation_history : list turn),
    let after := fst (ask self query conversation_history) in
    index_of after = index_of self
    /\ document_name after = document_name self
    /\ total_chunks after = total_chunks self
    /\ total_queries after
       = total_queries self + (if indexed (get_stats self) then 1 else 0)
    /\ (indexed (get_stats self) = false ->
        snd (ask self query conversation_history) = Ok UploadFirst).
Proof.
  intros C G self query history. cbv zeta. rewrite ask_state.
  unfold get_stats, ask. cbn [indexed].
  destruct (chunks (index_of self)) as [| c cs].
  - cbn. repeat split; lia.
  - unfold len. cbn [List.length count_query index_of document_name
                       total_chunks total_queries].
    destruct (Z.ltb_spec 0 (Z.of_nat (S (List.length cs)))); [| lia].
    repeat split. discriminate.
Qed.

(** X18: When [ask] returns a generated answer, its sources are between 1 and 5
    chunks of the indexed document; [citation_ids] are the citations of the
    answer; [citations_valid] holds exactly when there is a citation and
    every cited id is the number of one of these sources; and the formatted
    listing shows every source, numbered from 1, with none left out,
    marking exactly the cited ones. *)
Theorem ask_answer_cites_retrieved_sources :
  forall (C : Collaborators) (G : Generator) (self : service) (query : str)
         (conversation_history : list turn)
         (answer : str) (sources : list str) (sources_formatted : listing)
         (citation_ids : list Z) (citations_valid : bool)
         (validation_message : message),
    snd (ask self query conversation_history)
    = Ok (Answered answer sources sources_formatted citation_ids
            citations_valid validation_message) ->
    1 <= len sources <= 5
    /\ Forall (fun source => In source (chunks (index_of self))) sources
    /\ citation_ids = extract_citations answer
    /\ (citations_valid = true <->
        citation_ids <> []
        /\ Forall (fun cid => 1 <= cid <= len sources) citation_ids)
    /\ exists entries,
         sources_formatted = Listed entries None
         /\ map number entries = count_from 1 (List.length sources)
         /\ Forall (fun e => used e = true <-> In (number e) citation_ids)
                   entries.
Proof.
  intros C G self query history answer sources listed ids valid msg H.
  destruct (ask_answered _ _ _ _ _ _ _ _ _ H)
    as (rs & Hs & -> & Hne & Ea & Ei & -> & _ & ->).
  destruct (hybrid_search_ok _ _ _ _ Hs) as (_ & Hall & _ & Hk).
  assert (len (map snd rs) <= 5) as H5.
  { unfold len in *. rewrite length_map. apply Hk. lia. }
  split.
  { split; [| exact H5].
    destruct (map snd rs); [contradiction |]. unfold len. cbn [List.length]. lia. }
  split.
  { apply Forall_forall. intros s Hin. apply in_map_iff in Hin.
    destruct Hin as (r & <- & Hr). rewrite Forall_forall in Hall.
    destruct (Hall r Hr) as [_ Hi]. exact (proj1 (index_some _ _ _ Hi)). }
  split; [exact Ei |].
  split; [rewrite Ei; apply is_valid_iff |].
  assert (0 <= 5) as H0 by lia.
  destruct (format_sources_spec (map snd rs) (Some ids) 5 Hne H0)
    as (entries & left_out & -> & Hn & _ & _ & Hu & _ & Hl).
  exists entries.
  assert (left_out = None) as -> by (apply Hl; exact H5).
  split; [reflexivity |]. split.
  - rewrite Hn. f_equal. unfold len in *. lia.
  - apply Forall_forall. intros e He. rewrite Forall_forall in Hu.
    rewrite (Hu e He). split.
    + intros (ids' & E & Hin). injection E as <-. exact Hin.
    + intros Hin. exists ids. split; [reflexivity | exact Hin].
Qed.

Lemma ask_answer_cites_retrieved_sources_witness :
  exists r,
    snd (@ask simple_collaborators citing_generator
           {| index_of := rag_of_three; document_name := lit "guide.pdf";
              total_queries := 0; total_chunks := 3 |}
           (lit "fever") [])
    = Ok r
    /\ match r with
       | Answered answer sources sources_formatted citation_ids
                  citations_valid _ =>
           1 <= len sources <= 5
           /\ Forall (fun source => In source (chunks rag_of_three)) sources
           /\ citation_ids = extract_citations answer
           /\ (citations_valid = true <->
               citation_ids <> []
               /\ Forall (fun cid => 1 <= cid <= len sources) citation_ids)
           /\ exists entries,
                sources_formatted = Listed entries None
                /\ map number entries = count_from 1 (List.length sources)
                /\ Forall (fun e => used e = true <->
                                    In (number e) citation_ids) entries
       | _ => False
       end.
Proof.
  eexists. split; [vm_compute; reflexivity |].
  cbv iota beta.
  eapply (ask_answer_cites_retrieved_sources simple_collaborators
            citing_generator
            {| index_of := rag_of_three; document_name := lit "guide.pdf";
               total_queries := 0; total_chunks := 3 |}
            (lit "fever") []).
  vm_compute. reflexivity.
Defined.

(** ** The turns of the conversation that reach the prompt *)

(** X20: The turns of the conversation that [generate_answer] puts in the prompt,
    [conversation_history[-3:]], are the end of the history, in order:
    three turns, or all of them when there are fewer. *)
Theorem recent_turns_are_the_last_three :
  forall (Turn : Type) (conversation_history : list Turn),
    exists older,
      conversation_history = older ++ recent_turns conversation_history
      /\ len (recent_turns conversation_history)
         = Z.min 3 (len conversation_history).
Proof.
  intros Turn h. unfold recent_turns, slice_from, slice, clamp.
  set (n := len h). assert (0 <= n) as Hn by (unfold n, len; lia).
  destruct (Z.ltb_spec (-3) 0) as [_ | H]; [| lia].
  destruct (Z.ltb_spec n 0) as [H | _]; [lia |].
  rewrite Z.min_id.
  set (a := Z.to_nat (Z.max 0 (-3 + n))).
  rewrite firstn_all2.
  2:{ rewrite length_skipn. unfold n, len in *. lia. }
  exists (firstn a h). split; [symmetry; apply firstn_skipn |].
  unfold len. rewrite length_skipn. unfold a, n, len in *. lia.
Qed.

(** * The dose calculator *)

Import Dose.
Local Open Scope Q_scope.

(** ** Comparisons and rounding *)

Lemma Qlt_true x y : Dose.Qlt_bool x y = true <-> x < y.
Proof.
  unfold Dose.Qlt_bool, Fusion.Qlt_bool. rewrite negb_true_iff. split.
  - intros H. apply Qnot_le_lt. intros L. apply Qle_bool_iff in L. congruence.
  - intros H. destruct (Qle_bool y x) eqn:E; [| reflexivity].
    apply Qle_bool_iff in E. exfalso. exact (Qlt_not_le _ _ H E).
Qed.

Lemma Qlt_false x y : Dose.Qlt_bool x y = false <-> y <= x.
Proof.
  unfold Dose.Qlt_bool, Fusion.Qlt_bool. rewrite negb_false_iff.
  apply Qle_bool_iff.
Qed.

Ltac lt_case a b H :=
  destruct (Dose.Qlt_bool a b) eqn:H;
  [apply Qlt_true in H | apply Qlt_false in H].

(** Linear arithmetic after the divisions by the constants of the
    calculator are written as products. *)
Ltac qlin :=
  unfold Qdiv in *;
  change (/ 2) with (1 # 2) in *; change (/ 3) with (1 # 3) in *;
  change (/ 20) with (1 # 20) in *; change (/ 25) with (1 # 25) in *;
  change (/ 50) with (1 # 50) in *; change (/ 125) with (1 # 125) in *;
  lra.

Lemma inject_Z_lt a b : inject_Z a < inject_Z b -> (a < b)%Z.
Proof. intros H. rewrite Zlt_Qlt. exact H. Qed.

Lemma py_round_between (a b : Z) x :
  inject_Z a <= x -> x <= inject_Z b -> (a <= py_round x <= b)%Z.
Proof.
  intros Ha Hb.
  assert (a <= Qfloor x)%Z as Hfa
    by (rewrite <- (Qfloor_Z a); apply Qfloor_resp_le; exact Ha).
  assert (Qfloor x <= b)%Z as Hfb
    by (rewrite <- (Qfloor_Z b); apply Qfloor_resp_le; exact Hb).
  unfold py_round.
  destruct (Qcompare_spec (x - inject_Z (Qfloor x)) (1 # 2)) as [E | L | G].
  - destruct (Z.even (Qfloor x)); [lia |].
    assert (inject_Z (Qfloor x) < inject_Z b) as H by lra.
    apply inject_Z_lt in H. lia.
  - lia.
  - assert (inject_Z (Qfloor x) < inject_Z b) as H by lra.
    apply inject_Z_lt in H. lia.
Qed.

Lemma py_round_to_zero x : 0 <= x -> x <= 1 # 2 -> py_round x = 0%Z.
Proof.
  intros H0 H1.
  assert (Qfloor x = 0%Z) as F.
  { assert (0 <= Qfloor x)%Z
      by (rewrite <- (Qfloor_Z 0); apply Qfloor_resp_le; exact H0).
    assert (inject_Z (Qfloor x) < inject_Z 1) as Hlt
      by (pose proof (Qfloor_le x); change (inject_Z 1) with 1; lra).
    apply inject_Z_lt in Hlt. lia. }
  unfold py_round. rewrite F. change (inject_Z 0) with 0.
  destruct (Qcompare_spec (x - 0) (1 # 2)) as [E | L | G];
    [reflexivity | reflexivity | lra].
Qed.

(** ** Amoxicillin *)

Lemma calc_amoxicillin_dose_cases weight_kg age_years :
  0 <= weight_kg -> 1 # 10 <= age_years ->
  exists n : Z,
    (0 <= n <= 4)%Z
    /\ dose (calc_amoxicillin_dose weight_kg age_years) = Mg (n * 125)
    /\ frequency (calc_amoxicillin_dose weight_kg age_years)
       = TwiceDaily (n * 125 * 2)
    /\ (is_safe (calc_amoxicillin_dose weight_kg age_years) = true
        <-> 3 <= weight_kg /\ weight_kg <= 40)
    /\ (weight_kg <= 5 -> n = 0%Z)
    /\ (is_safe (calc_amoxicillin_dose weight_kg age_years) = true ->
        warnings (calc_amoxicillin_dose weight_kg age_years)
        = [DoseInSafeRange]).
Proof.
  intros Hw Ha. unfold calc_amoxicillin_dose.
  lt_case age_years (1 # 10) Hage; [lra |].
  lt_case weight_kg 3 H3; lt_case 150 weight_kg H150;
    lt_case 3000 (25 * weight_kg) Hd; cbn [orb app];
    match goal with
    | |- context [Dose.Qlt_bool 500 ?s] => lt_case 500 s Hs
    end;
    cbn [dose frequency is_safe warnings signs filter has_warning_sign
         or_safe_range len List.length Z.of_nat Z.eqb Pos.of_succ_nat
         Pos.succ];
    try (exfalso; qlin);
    match goal with
    | |- context [Mg (py_round ?x * 125)] =>
        exists (py_round x);
        split; [apply py_round_between; unfold inject_Z; qlin |];
        split; [reflexivity |]; split; [reflexivity |];
        split; [split; [intros T; try discriminate T; split; qlin
                       | intros [T1 T2]; try reflexivity; exfalso; qlin] |];
        split; [intros T; try (apply py_round_to_zero; qlin); exfalso; qlin
               | intros T; try discriminate T; reflexivity]
    end.
Qed.

(** X21: For a weight that is not negative and an age of at least 0.1 year,
    [calc_amoxicillin_dose] gives a single dose of 0, 125, 250, 375 or
    500 mg twice a day, the daily total being twice the single dose; and
    the result is flagged safe exactly when the weight lies between 3 and
    40 kg. *)
Theorem calc_amoxicillin_dose_is_capped :
  forall (weight_kg age_years : Q),
    0 <= weight_kg -> 1 # 10 <= age_years ->
    exists n : Z,
      (0 <= n <= 4)%Z
      /\ dose (calc_amoxicillin_dose weight_kg age_years) = Mg (n * 125)
      /\ frequency (calc_amoxicillin_dose weight_kg age_years)
         = TwiceDaily (n * 125 * 2)
      /\ (is_safe (calc_amoxicillin_dose weight_kg age_years) = true
          <-> 3 <= weight_kg /\ weight_kg <= 40).
Proof.
  intros w a Hw Ha.
  destruct (calc_amoxicillin_dose_cases w a Hw Ha)
    as (n & Hn & Hd & Hf & Hs & _).
  exists n. repeat split; try assumption; try lia; apply Hs; assumption.
Qed.

Lemma calc_amoxicillin_dose_is_capped_witness :
  exists n : Z,
    (0 <= n <= 4)%Z
    /\ dose (calc_amoxicillin_dose 25 7) = Mg (n * 125)
    /\ frequency (calc_amoxicillin_dose 25 7) = TwiceDaily (n * 125 * 2)
    /\ (is_safe (calc_amoxicillin_dose 25 7) = true
        <-> 3 <= 25 /\ 25 <= 40).
Proof.
  apply (calc_amoxicillin_dose_is_capped 25 7); discriminate.
Defined.

(** X22: For a weight between 3 and 5 kg and an age of at least 0.1 year, the
    rounding to multiples of 125 mg brings the single dose and the daily
    total of [calc_amoxicillin_dose] to 0 mg, and the result is flagged
    safe with the only message that the dose is in the safe range. *)
Theorem calc_amoxicillin_dose_rounds_small_doses_to_zero :
  forall (weight_kg age_years : Q),
    3 <= weight_kg -> weight_kg <= 5 -> 1 # 10 <= age_years ->
    dose (calc_amoxicillin_dose weight_kg age_years) = Mg 0
    /\ frequency (calc_amoxicillin_dose weight_kg age_years) = TwiceDaily 0
    /\ is_safe (calc_amoxicillin_dose weight_kg age_years) = true
    /\ warnings (calc_amoxicillin_dose weight_kg age_years)
       = [DoseInSafeRange].
Proof.
  intros w a H3 H5 Ha.
  assert (0 <= w) as Hw by lra.
  destruct (calc_amoxicillin_dose_cases w a Hw Ha)
    as (n & _ & Hd & Hf & Hs & Hz & Hwarn).
  rewrite (Hz H5) in Hd, Hf.
  assert (is_safe (calc_amoxicillin_dose w a) = true) as Safe
    by (apply Hs; split; lra).
  repeat split; try assumption. apply Hwarn. exact Safe.
Qed.

Lemma calc_amoxicillin_dose_rounds_small_doses_to_zero_witness :
  dose (calc_amoxicillin_dose 4 1) = Mg 0
  /\ frequency (calc_amoxicillin_dose 4 1) = TwiceDaily 0
  /\ is_safe (calc_amoxicillin_dose 4 1) = true
  /\ warnings (calc_amoxicillin_dose 4 1) = [DoseInSafeRange].
Proof.
  apply (calc_amoxicillin_dose_rounds_small_doses_to_zero 4 1); discriminate.
Defined.

Ltac qlinz :=
  change (inject_Z 0) with 0 in *; change (inject_Z 4) with 4 in *;
  change (inject_Z 5) with 5 in *; change (inject_Z (4 + 1)) with 5 in *;
  change (inject_Z (5 + 1)) with 6 in *;
  change (inject_Z 8) with 8 in *; change (inject_Z 10) with 10 in *;
  change (inject_Z 20) with 20 in *; qlin.

(** ** Ibuprofen *)

Lemma calc_ibuprofen_dose_cases weight_kg age_years :
  0 <= weight_kg -> 1 # 2 <= age_years ->
  exists n : Z,
    dose (calc_ibuprofen_dose weight_kg age_years) = Mg n
    /\ frequency (calc_ibuprofen_dose weight_kg age_years)
       = EverySixToEightHours 4
    /\ (0 <= n <= 400)%Z /\ (10 | n)%Z
    /\ (is_safe (calc_ibuprofen_dose weight_kg age_years) = true
        <-> weight_kg <= 40)
    /\ (40 < weight_kg ->
        n = 400%Z
        /\ warnings (calc_ibuprofen_dose weight_kg age_years)
           = [DailyMaximumIs 1200; TakeWithFood]).
Proof.
  intros Hw Ha. unfold calc_ibuprofen_dose, py_min.
  lt_case age_years (1 # 2) Hage; [lra |].
  lt_case 1200 (40 * weight_kg) Hmin;
    match goal with
    | |- context [Dose.Qlt_bool (?m / 3) ?s] => lt_case (m / 3) s Hcap
    end;
    match goal with
    | |- context [Dose.Qlt_bool ?s 200] => lt_case s 200 H200
    end;
    try (exfalso; qlin);
    cbn [dose frequency is_safe warnings signs filter has_warning_sign app
         len List.length Z.of_nat Z.eqb Pos.of_succ_nat Pos.succ];
    (eexists; split; [reflexivity |]; split; [reflexivity |]).
  all: match goal with
       | |- context [(py_round (1200 / 3 / 50) * 50)%Z] =>
           assert (8 <= py_round (1200 / 3 / 50) <= 8)%Z as Hr
             by (apply py_round_between; qlinz)
       | |- context [(py_round (?s / 20) * 20)%Z] =>
           assert (0 <= py_round (s / 20) <= 10)%Z as Hr
             by (apply py_round_between; qlinz)
       | |- context [(py_round (?s / 50) * 50)%Z] =>
           assert (0 <= py_round (s / 50) <= 8)%Z as Hr
             by (apply py_round_between; qlinz)
       end.
  all: split; [lia |].
  all: split;
    [ match goal with
      | |- context [(py_round ?x * 20)%Z] => exists (py_round x * 2)%Z; lia
      | |- context [(py_round ?x * 50)%Z] => exists (py_round x * 5)%Z; lia
      end |].
  all: split;
    [ split; [intros T; first [discriminate T | qlin]
             | intros T; first [reflexivity | exfalso; qlin] ] |].
  all: intros T; first [exfalso; qlin | split; [lia | reflexivity]].
Qed.

(** X25: For a weight that is not negative and an age of at least half a year,
    [calc_ibuprofen_dose] gives a single dose that is a multiple of 10 mg
    between 0 and 400 mg, at most 4 times a day; the result is flagged
    safe exactly when the weight is at most 40 kg; and above 40 kg the
    dose is 400 mg with the warning that the daily maximum is 1200 mg. *)
Theorem calc_ibuprofen_dose_is_capped :
  forall (weight_kg age_years : Q),
    0 <= weight_kg -> 1 # 2 <= age_years ->
    exists n : Z,
      dose (calc_ibuprofen_dose weight_kg age_years) = Mg n
      /\ frequency (calc_ibuprofen_dose weight_kg age_years)
         = EverySixToEightHours 4
      /\ (0 <= n <= 400)%Z /\ (10 | n)%Z
      /\ (is_safe (calc_ibuprofen_dose weight_kg age_years) = true
          <-> weight_kg <= 40)
      /\ (40 < weight_kg ->
          n = 400%Z
          /\ warnings (calc_ibuprofen_dose weight_kg age_years)
             = [DailyMaximumIs 1200; TakeWithFood]).
Proof.
  intros w a Hw Ha. exact (calc_ibuprofen_dose_cases w a Hw Ha).
Qed.

Lemma calc_ibuprofen_dose_is_capped_witness :
  exists n : Z,
    dose (calc_ibuprofen_dose 45 7) = Mg n
    /\ frequency (calc_ibuprofen_dose 45 7) = EverySixToEightHours 4
    /\ (0 <= n <= 400)%Z /\ (10 | n)%Z
    /\ (is_safe (calc_ibuprofen_dose 45 7) = true <-> 45 <= 40)
    /\ (40 < 45 ->
        n = 400%Z
        /\ warnings (calc_ibuprofen_dose 45 7)
           = [DailyMaximumIs 1200; TakeWithFood]).
Proof.
  apply (calc_ibuprofen_dose_is_capped 45 7); discriminate.
Defined.

